(** * pyramid_srpauth.noncemanager: signed, time-bounded nonces

    A shallow embedding of [SignedNonceManager] (Python 2) and of the
    library routines it calls, followed by the properties of the nonce
    life cycle: signing, validation, renewal, pseudo-random derivation and
    the purge of the counter store.

    Conventions.
    - A Python 2 [str] is a byte string: [list ascii].
    - A Python [int] or [long] is an integer of [Z].  A Python [float] is
      an IEEE 754 double ([Float.float]): a finite double is held as the
      rational number it denotes, beside the two infinities and NaN, and
      every operation rounds its exact result to the nearest double, ties
      to even, as the hardware does.  The sign of zero is not kept: no
      operation of the manager can tell the two zeros apart.
    - Ambient services are explicit arguments: every call of [time.time()]
      is an argument [now], a float (in a loop, [clock i] is the reading
      of turn [i]), every call of [os.urandom] an argument, and
      [sys.maxint] is the argument [maxint].
    - A raised exception is the [Raise] case of [result].
    - A method that assigns to an attribute of [self] returns, beside what
      it returns or raises, the state it leaves: an exception does not
      undo the assignments made before it.  Calls are sequential: the lock
      of the purge queue is not modelled.
    - The library routines ([hex], [int], [split], [hashlib.sha1], [hmac],
      [base64.b64encode], [heapq]) are modelled after their documented
      behaviour; [strings_differ], from [pyramid_srpauth.utils], is
      modelled from the specification.  The abstract class [NonceManager]
      only raises [NotImplementedError] and has no model. *)

From Stdlib Require Import ZArith QArith Qround Qabs Qpower Lia Lqa Ascii String List
  Permutation.
From stdpp Require Import base option list relations gmap strings.

Abbreviation str := (list ascii).

(** Byte-string literal. *)
Notation "b{ s }" := (list_ascii_of_string s) (at level 0, format "b{ s }").

(** ** Exceptions *)

Inductive exn : Set :=
| ValueError
| AssertionError
| IndexError
| AttributeError
| ZeroDivisionError
| OverflowError
| TypeError.

Inductive result (A : Type) : Type :=
| Ok (a : A)
| Raise (e : exn).
Arguments Ok {A} a.
Arguments Raise {A} e.

#[global] Instance result_ret : MRet result := fun A a => Ok a.

#[global] Instance result_bind : MBind result := fun A B k m =>
  match m with
  | Ok a => k a
  | Raise e => Raise e
  end.

(** ** Python built-ins on byte strings *)

Module Py.

Definition colon : ascii := ":"%char.

(** [s.split(sep, 1)]: cut at the first separator, if there is one. *)
Fixpoint split1_aux (sep : ascii) (acc s : str) : list str :=
  match s with
  | [] => [rev acc]
  | c :: s' =>
      if Ascii.eqb c sep then [rev acc; s'] else split1_aux sep (c :: acc) s'
  end.

Definition split1 (sep : ascii) (s : str) : list str := split1_aux sep [] s.

(** [s.rsplit(sep, 1)]: cut at the last separator, if there is one. *)
Definition rsplit1 (sep : ascii) (s : str) : list str :=
  match split1 sep (rev s) with
  | [a; b] => [rev b; rev a]
  | _ => [s]
  end.

(** [a, b = parts]: tuple unpacking into two names. *)
Definition unpack2 (parts : list str) : result (str * str) :=
  match parts with
  | [a; b] => Ok (a, b)
  | _ => Raise ValueError
  end.

(** [s[:n]] for an integer [n] of either sign. *)
Definition slice_to (s : str) (n : Z) : str :=
  if (0 <=? n)%Z then take (Z.to_nat n) s
  else take (length s - Z.to_nat (- n)) s.

(** [s[n:]] for a non-negative literal [n]. *)
Definition slice_from (n : nat) (s : str) : str := drop n s.

(** [s.endswith(c)] for a one-character suffix. *)
Definition endswith (s : str) (c : ascii) : bool :=
  match last s with
  | Some d => Ascii.eqb d c
  | None => false
  end.

(** ["%s:%s" % (a, b)] *)
Definition fmt_colon (a b : str) : str := a ++ colon :: b.

Definition hex_digit (d : Z) : ascii :=
  nth (Z.to_nat d) b{"0123456789abcdef"} "0"%char.

(** Lower-case hexadecimal digits of a non-negative integer, most
    significant first; [fuel] bounds the number of digits. *)
Fixpoint hex_digits_aux (fuel : nat) (n : Z) (acc : str) : str :=
  match fuel with
  | O => acc
  | S fuel' =>
      let acc' := hex_digit (n mod 16) :: acc in
      if (n / 16 =? 0)%Z then acc' else hex_digits_aux fuel' (n / 16) acc'
  end.

Definition hex_digits (n : Z) : str :=
  hex_digits_aux (S (Z.to_nat (Z.log2 n))) n [].

(** [hex(n)]: ["0x1f"], ["-0x1f"], with the suffix ["L"] when [n] is a
    Python 2 [long], that is outside [-maxint-1 .. maxint]. *)
Definition hex (maxint : Z) (n : Z) : str :=
  (if (n <? 0)%Z then b{"-"} else []) ++ b{"0x"} ++ hex_digits (Z.abs n)
  ++ (if ((n <=? maxint) && (- maxint - 1 <=? n))%Z then [] else b{"L"}).

Definition hex_value (c : ascii) : option Z :=
  let n := Z.of_N (N_of_ascii c) in
  if ((48 <=? n) && (n <=? 57))%Z then Some (n - 48)%Z
  else if ((97 <=? n) && (n <=? 102))%Z then Some (n - 87)%Z
  else if ((65 <=? n) && (n <=? 70))%Z then Some (n - 55)%Z
  else None.

Fixpoint parse_hex_digits (s : str) (acc : Z) : option Z :=
  match s with
  | [] => Some acc
  | c :: s' =>
      match hex_value c with
      | Some d => parse_hex_digits s' (acc * 16 + d)
      | None => None
      end
  end.

Definition is_space (c : ascii) : bool :=
  let n := N_of_ascii c in
  ((n =? 32) || ((9 <=? n) && (n <=? 13)))%N.

Fixpoint lstrip (s : str) : str :=
  match s with
  | c :: s' => if is_space c then lstrip s' else s
  | [] => []
  end.

Definition strip (s : str) : str := rev (lstrip (rev (lstrip s))).

Definition drop_0x (s : str) : str :=
  match s with
  | c0 :: cx :: s' =>
      if Ascii.eqb c0 "0" && (Ascii.eqb cx "x" || Ascii.eqb cx "X")
      then s' else s
  | _ => s
  end.

(** [int(s, 16)] of Python 2: white space, an optional sign, white space
    again, an optional ["0x"] prefix, at least one hexadecimal digit of
    either case, and white space; anything else is a [ValueError]. *)
Definition int16 (s : str) : result Z :=
  let s := strip s in
  let '(neg, s) :=
    match s with
    | c :: s' =>
        if Ascii.eqb c "-" then (true, s')
        else if Ascii.eqb c "+" then (false, s')
        else (false, s)
    | [] => (false, s)
    end in
  match drop_0x (lstrip s) with
  | [] => Raise ValueError
  | ds =>
      match parse_hex_digits ds 0 with
      | Some v => Ok (if neg then (- v)%Z else v)
      | None => Raise ValueError
      end
  end.

(** [s.encode("hex")] *)
Definition hex_encode (s : str) : str :=
  flat_map (fun c => let n := Z.of_N (N_of_ascii c) in
                     [hex_digit (n / 16); hex_digit (n mod 16)]) s.

(** [chr(i)] *)
Definition chr (i : Z) : result ascii :=
  if ((0 <=? i) && (i <? 256))%Z then Ok (ascii_of_N (Z.to_N i))
  else Raise ValueError.

(** [a < b] on byte strings: lexicographic order of the byte values. *)
Fixpoint str_ltb (a b : str) : bool :=
  match a, b with
  | _, [] => false
  | [], _ :: _ => true
  | x :: a', y :: b' =>
      let nx := N_of_ascii x in
      let ny := N_of_ascii y in
      if (nx <? ny)%N then true
      else if (ny <? nx)%N then false
      else str_ltb a' b'
  end.

End Py.


(** ** float: IEEE 754 double precision *)

Module Float.
Local Open Scope Q_scope.

(** A double: a finite one, held as the rational number it denotes, an
    infinity, or NaN.  The finite doubles are the rationals that [round]
    leaves as they are; the operations take any rational, and so do the
    properties, which therefore hold of the doubles. *)
Inductive float : Type :=
| Fin (x : Q)
| Inf (negative : bool)
| NaN.

(** The exponent [e] of the binade of a non-zero [x]:
    [2^e <= |x| < 2^(e+1)]. *)
Definition binade (x : Q) : Z :=
  let e := (Z.log2 (Z.abs (Qnum x)) - Z.log2 (Z.pos (Qden x)))%Z in
  if Qle_bool (2 ^ e) (Qabs x) then e else (e - 1)%Z.

(** The nearest integer, the even one of two that are equally near. *)
Definition round_half_even (x : Q) : Z :=
  let f := Qfloor x in
  match Qcompare (x - inject_Z f) (1 # 2) with
  | Lt => f
  | Gt => (f + 1)%Z
  | Eq => if Z.even f then f else (f + 1)%Z
  end.

(** The exponent of the unit in the last place: 53 significant bits, and
    [2^-1074] for the subnormal numbers. *)
Definition ulp_exponent (x : Q) : Z := Z.max (binade x - 52) (-1074).

(** The double nearest to [x], ties to even; an infinity when the rounded
    value does not fit below [2^1024]. *)
Definition round (x : Q) : float :=
  let p := ulp_exponent x in
  let y := inject_Z (round_half_even (x / 2 ^ p)) * 2 ^ p in
  if Qle_bool (2 ^ 1024) (Qabs y) then Inf (negb (Qle_bool 0 x)) else Fin y.

(** A decimal literal of the source, such as [0.1]. *)
Definition lit (x : Q) : float := round x.

Definition negative (x : Q) : bool := negb (Qle_bool 0 x).

(** [a * b] *)
Definition mul (a b : float) : float :=
  match a, b with
  | NaN, _ | _, NaN => NaN
  | Fin x, Fin y => round (x * y)
  | Inf s, Inf t => Inf (xorb s t)
  | Inf s, Fin y | Fin y, Inf s =>
      if Qeq_bool y 0 then NaN else Inf (xorb s (negative y))
  end.

(** [a + b] *)
Definition add (a b : float) : float :=
  match a, b with
  | NaN, _ | _, NaN => NaN
  | Fin x, Fin y => round (x + y)
  | Inf s, Inf t => if Bool.eqb s t then Inf s else NaN
  | Inf s, Fin _ | Fin _, Inf s => Inf s
  end.

(** [a / b], which Python refuses for a zero divisor. *)
Definition div (a b : float) : result float :=
  match b with
  | NaN => Ok NaN
  | Inf t =>
      match a with
      | Fin _ => Ok (Fin 0)
      | _ => Ok NaN
      end
  | Fin y =>
      if Qeq_bool y 0 then Raise ZeroDivisionError
      else
        match a with
        | Fin x => Ok (round (x / y))
        | Inf s => Ok (Inf (xorb s (negative y)))
        | NaN => Ok NaN
        end
  end.

(** [a <= b]: false as soon as one side is NaN. *)
Definition le (a b : float) : bool :=
  match a, b with
  | NaN, _ | _, NaN => false
  | Fin x, Fin y => Qle_bool x y
  | Inf s, Inf t => s || negb t
  | Inf s, Fin _ => s
  | Fin _, Inf t => negb t
  end.

(** [math.ceil(a)] *)
Definition ceil (a : float) : float :=
  match a with
  | Fin x => Fin (inject_Z (Qceiling x))
  | _ => a
  end.

(** [int(a)]: truncation towards zero. *)
Definition int (a : float) : result Z :=
  match a with
  | Fin x => Ok (if Qle_bool 0 x then Qfloor x else Qceiling x)
  | Inf _ => Raise OverflowError
  | NaN => Raise ValueError
  end.

(** The conversion of an [int] or [long] operand of a float operation:
    correctly rounded, and refused when the result would be infinite. *)
Definition of_int (n : Z) : result float :=
  match round (inject_Z n) with
  | Inf _ => Raise OverflowError
  | x => Ok x
  end.

End Float.

(** A Python number: an [int] or [long], or a [float]. *)
Inductive number : Type :=
| PyInt (n : Z)
| PyFloat (x : Float.float).

(** The operand of a float operation, as a float. *)
Definition to_float (a : number) : result Float.float :=
  match a with
  | PyInt n => Float.of_int n
  | PyFloat x => Ok x
  end.

(** ** hashlib: hash constructors *)

(** What the manager uses of a [hashlib] constructor: the digest size, the
    block size, and the digest of the bytes fed to a hash object.  A
    digest always has [digest_size] bytes: at least one, and no more than
    [2^43], far above the 64 bytes of the largest digest of [hashlib]. *)
Record HashMod : Type := {
  digest_size : nat;
  block_size : nat;
  digest : str -> str;
  digest_size_pos : 0 < digest_size;
  digest_size_bound : (Z.of_nat digest_size <= 2 ^ 43)%Z;
  digest_length : forall m, length (digest m) = digest_size
}.

(** [hashlib.sha1] (FIPS 180-4), on 32-bit words held in [Z]. *)
Module SHA1.
Local Open Scope Z_scope.

Definition mask32 : Z := 0xFFFFFFFF.
Definition add32 (a b : Z) : Z := Z.land (a + b) mask32.
Definition rotl32 (n x : Z) : Z :=
  Z.land (Z.lor (Z.shiftl x n) (Z.shiftr x (32 - n))) mask32.
Definition not32 (x : Z) : Z := Z.lxor x mask32.

Definition byte_val (c : ascii) : Z := Z.of_N (N_of_ascii c).
Definition byte_chr (z : Z) : ascii := ascii_of_N (Z.to_N (Z.land z 0xFF)).

(** Big-endian bytes of a 64-bit and of a 32-bit quantity. *)
Definition be64 (n : Z) : list Z :=
  map (fun i => Z.land (Z.shiftr n (8 * i)) 0xFF) [7; 6; 5; 4; 3; 2; 1; 0].
Definition be32 (w : Z) : str :=
  [byte_chr (Z.shiftr w 24); byte_chr (Z.shiftr w 16);
   byte_chr (Z.shiftr w 8); byte_chr w].

(** Message padding: a one bit, zero bits up to 56 mod 64 bytes, and the
    bit length on 64 bits. *)
Definition pad (m : str) : list Z :=
  let len := Z.of_nat (length m) in
  let zeros := Z.to_nat ((55 - len) mod 64) in
  map byte_val m ++ 0x80 :: repeat 0 zeros ++ be64 (8 * len).

Fixpoint words (fuel : nat) (bs : list Z) : list Z :=
  match fuel, bs with
  | S fuel', b0 :: b1 :: b2 :: b3 :: bs' =>
      Z.lor (Z.shiftl b0 24) (Z.lor (Z.shiftl b1 16) (Z.lor (Z.shiftl b2 8) b3))
      :: words fuel' bs'
  | _, _ => []
  end.

(** The message schedule, built backwards: [w] holds the words computed
    so far, the latest first. *)
Fixpoint schedule (n : nat) (w : list Z) : list Z :=
  match n with
  | O => rev w
  | S n' =>
      let x := Z.lxor (Z.lxor (nth 2 w 0) (nth 7 w 0))
                      (Z.lxor (nth 13 w 0) (nth 15 w 0)) in
      schedule n' (rotl32 1 x :: w)
  end.

Definition state : Type := Z * Z * Z * Z * Z.

Definition round (st : state) (tw : nat * Z) : state :=
  let '(a, b, c, d, e) := st in
  let '(t, w) := tw in
  let '(f, k) :=
    if (t <? 20)%nat then
      (Z.lor (Z.land b c) (Z.land (not32 b) d), 0x5A827999)
    else if (t <? 40)%nat then
      (Z.lxor b (Z.lxor c d), 0x6ED9EBA1)
    else if (t <? 60)%nat then
      (Z.lor (Z.lor (Z.land b c) (Z.land b d)) (Z.land c d), 0x8F1BBCDC)
    else
      (Z.lxor b (Z.lxor c d), 0xCA62C1D6) in
  let tmp := add32 (add32 (add32 (add32 (rotl32 5 a) f) e) k) w in
  (tmp, a, rotl32 30 b, c, d).

Definition compress (h : state) (block : list Z) : state :=
  let w := schedule 64 (rev block) in
  let '(a, b, c, d, e) := fold_left round (combine (seq 0 80) w) h in
  let '(h0, h1, h2, h3, h4) := h in
  (add32 h0 a, add32 h1 b, add32 h2 c, add32 h3 d, add32 h4 e).

Fixpoint blocks (fuel : nat) (ws : list Z) (h : state) : state :=
  match fuel, ws with
  | S fuel', _ :: _ => blocks fuel' (drop 16 ws) (compress h (take 16 ws))
  | _, _ => h
  end.

Definition init : state :=
  (0x67452301, 0xEFCDAB89, 0x98BADCFE, 0x10325476, 0xC3D2E1F0).

Definition sha1 (m : str) : str :=
  let bs := pad m in
  let ws := words (length bs) bs in
  let '(h0, h1, h2, h3, h4) := blocks (length ws) ws init in
  be32 h0 ++ be32 h1 ++ be32 h2 ++ be32 h3 ++ be32 h4.

(** The constructor, with its digest size of 20 bytes. *)
Definition hashmod : HashMod := {|
  digest_size := 20;
  block_size := 64;
  digest := sha1;
  digest_size_pos := Nat.lt_0_succ 19;
  digest_size_bound := proj1 (Z.leb_le (Z.of_nat 20) (2 ^ 43)) eq_refl;
  digest_length := fun m =>
    match blocks (length (words (length (pad m)) (pad m)))
            (words (length (pad m)) (pad m)) init as st
    return length (let '(h0, h1, h2, h3, h4) := st in
                   be32 h0 ++ be32 h1 ++ be32 h2 ++ be32 h3 ++ be32 h4)
           = 20%nat
    with
    | (h0, h1, h2, h3, h4) => eq_refl
    end
|}.
End SHA1.

(** ** hmac: keyed hashing (RFC 2104) *)

Module hmac.

Definition xor_byte (pad : N) (c : ascii) : ascii :=
  ascii_of_N (N.lxor (N_of_ascii c) pad).

(** An HMAC object: the hash constructor, the key brought to the block
    size, and the message bytes received so far. *)
Record HMAC : Type := {
  digestmod : HashMod;
  key_block : str;
  message : str
}.

(** [hmac.new(key, msg, digestmod)] *)
Definition new (key msg : str) (digestmod : HashMod) : HMAC :=
  let blocksize :=
  if (block_size digestmod <? 16)%nat then 64%nat
  else block_size digestmod in
  let key :=
    if (blocksize <? length key)%nat then digest digestmod key else key in
  {| digestmod := digestmod;
     key_block := key ++ repeat zero (blocksize - length key);
     message := msg |}.

(** [h.update(data)] *)
Definition update (h : HMAC) (data : str) : HMAC :=
  {| digestmod := digestmod h;
     key_block := key_block h;
     message := message h ++ data |}.

(** [h.digest()] *)
Definition hmac_digest (h : HMAC) : str :=
  let H := digest (digestmod h) in
  H (map (xor_byte 0x5C) (key_block h)
     ++ H (map (xor_byte 0x36) (key_block h) ++ message h)).

End hmac.

(** ** base64 *)

Module base64.

Definition alphabet : str :=
  b{"ABCDEFGHIJKLMNOPQRSTUVWXYZabcdefghijklmnopqrstuvwxyz0123456789+/"}.

Definition sextet (n : N) : ascii := nth (N.to_nat (n mod 64)) alphabet "="%char.

(** [base64.b64encode(s)] *)
Fixpoint b64encode (s : str) : str :=
  match s with
  | [] => []
  | [a] =>
      let n := (N_of_ascii a * 65536)%N in
      [sextet (n / 262144); sextet (n / 4096); "="%char; "="%char]
  | [a; b] =>
      let n := (N_of_ascii a * 65536 + N_of_ascii b * 256)%N in
      [sextet (n / 262144); sextet (n / 4096); sextet (n / 64); "="%char]
  | a :: b :: c :: s' =>
      let n := (N_of_ascii a * 65536 + N_of_ascii b * 256 + N_of_ascii c)%N in
      sextet (n / 262144) :: sextet (n / 4096) :: sextet (n / 64) :: sextet n
      :: b64encode s'
  end.

End base64.

(** ** heapq: a binary heap laid out in a list *)

(** The positions read by the two sift routines are within the list
    whenever they are called by [heappush] and [heappop]; the branches
    for a position outside it are there for totality and are never
    taken. *)

Module heapq.
Section Heap.
Context {A : Type} (lt : A -> A -> bool).

(** The loop of [_siftdown]: move the hole at [pos] towards [startpos]
    while [newitem] is smaller than the parent.  [pos] decreases at each
    turn, so [pos] turns are enough. *)
Fixpoint siftdown_loop (fuel : nat) (heap : list A) (newitem : A)
    (startpos pos : nat) : list A * nat :=
  match fuel with
  | O => (heap, pos)
  | S fuel' =>
      if (startpos <? pos)%nat then
        let parentpos := Nat.div2 (pos - 1) in
        match heap !! parentpos with
        | Some parent =>
            if lt newitem parent
            then siftdown_loop fuel' (<[pos := parent]> heap) newitem
                   startpos parentpos
            else (heap, pos)
        | None => (heap, pos)
        end
      else (heap, pos)
  end.

(** [_siftdown(heap, startpos, pos)] *)
Definition siftdown (heap : list A) (startpos pos : nat) : list A :=
  match heap !! pos with
  | Some newitem =>
      let '(heap', pos') := siftdown_loop pos heap newitem startpos pos in
      <[pos' := newitem]> heap'
  | None => heap
  end.

(** The loop of [_siftup]: move the hole at [pos] down to a leaf, pulling
    up the smaller child each time. *)
Fixpoint siftup_loop (fuel : nat) (heap : list A) (pos childpos : nat)
    : list A * nat :=
  match fuel with
  | O => (heap, pos)
  | S fuel' =>
      if (childpos <? length heap)%nat then
        let rightpos := (childpos + 1)%nat in
        let childpos :=
          match heap !! childpos, heap !! rightpos with
          | Some c, Some r => if negb (lt c r) then rightpos else childpos
          | _, _ => childpos
          end in
        match heap !! childpos with
        | Some c =>
            siftup_loop fuel' (<[pos := c]> heap) childpos
              (2 * childpos + 1)%nat
        | None => (heap, pos)
        end
      else (heap, pos)
  end.

(** [_siftup(heap, pos)] *)
Definition siftup (heap : list A) (pos : nat) : list A :=
  match heap !! pos with
  | Some newitem =>
      let '(heap', pos') :=
        siftup_loop (length heap) heap pos (2 * pos + 1)%nat in
      siftdown (<[pos' := newitem]> heap') pos pos'
  | None => heap
  end.

(** [heapq.heappush(heap, item)] *)
Definition heappush (heap : list A) (item : A) : list A :=
  siftdown (heap ++ [item]) 0 (length heap).

(** [heapq.heappop(heap)]: the popped item and the heap left. *)
Definition heappop (heap : list A) : result (A * list A) :=
  match last heap with
  | None => Raise IndexError
  | Some lastelt =>
      match removelast heap with
      | [] => Ok (lastelt, [])
      | returnitem :: rest =>
          Ok (returnitem, siftup (lastelt :: rest) 0)
      end
  end.

End Heap.
End heapq.

(** ** pyramid_srpauth.utils *)

(** Modelled from the spec: [strings_differ] of [pyramid_srpauth.utils],
    which is not part of this file's source.  The comparison is the
    equal-length, byte-by-byte one that does not stop at the first
    mismatch: strings of different lengths differ, and otherwise the
    mismatches of all positions are accumulated. *)
Definition strings_differ (string1 string2 : str) : bool :=
  if negb (length string1 =? length string2)%nat then true
  else
    let invalid_bits :=
      fold_left (fun acc ab => (acc + if Ascii.eqb ab.1 ab.2 then 0 else 1)%nat)
        (combine string1 string2) 0%nat in
    negb (invalid_bits =? 0)%nat.

(** ** The request *)

(** [request.environ]: the WSGI environment, a dict of strings. *)
Record Request : Type := { environ : gmap str str }.

(** [d.get(key, default)] *)
Definition dict_get {V} (d : gmap str V) (key : str) (default : V) : V :=
  match d !! key with
  | Some v => v
  | None => default
  end.

(** [l[0]] *)
Definition getitem0 {A} (l : list A) : result A :=
  match l with
  | x :: _ => Ok x
  | [] => Raise IndexError
  end.


(** ** SignedNonceManager *)

Record SignedNonceManager : Type := {
  secret : str;
  timeout : number;
  soft_timeout : option number;
  sign_headers : list str;
  hashmod : HashMod;
  hashmod_digest_size : nat;
  _signing_key : str;
  _generation_key : str;
  _nonce_counts : gmap str Z;
  _nonce_purge_queue : list str
}.

(** Assignment to [self._nonce_counts] and to [self._nonce_purge_queue]. *)
Definition set_counts (self : SignedNonceManager) (counts : gmap str Z)
    : SignedNonceManager :=
  {| secret := secret self; timeout := timeout self;
     soft_timeout := soft_timeout self; sign_headers := sign_headers self;
     hashmod := hashmod self; hashmod_digest_size := hashmod_digest_size self;
     _signing_key := _signing_key self;
     _generation_key := _generation_key self;
     _nonce_counts := counts;
     _nonce_purge_queue := _nonce_purge_queue self |}.

Definition set_queue (self : SignedNonceManager) (queue : list str)
    : SignedNonceManager :=
  {| secret := secret self; timeout := timeout self;
     soft_timeout := soft_timeout self; sign_headers := sign_headers self;
     hashmod := hashmod self; hashmod_digest_size := hashmod_digest_size self;
     _signing_key := _signing_key self;
     _generation_key := _generation_key self;
     _nonce_counts := _nonce_counts self;
     _nonce_purge_queue := queue |}.

(** What a method that assigns to [self] returns or raises, and the state
    that it leaves. *)
Definition outcome : Type := result unit * SignedNonceManager.

(** The [hashmod] argument of the constructor: a hash constructor or the
    name of an attribute of [hashlib]. *)
Inductive hashmod_arg : Type :=
| HashCons (h : HashMod)
| HashName (name : str).

(** An attribute of the module [hashlib]: a hash constructor, or anything
    else, for which [hashmod().digest_size] raises [e] ([TypeError] for
    what cannot be called without an argument, such as [hashlib.new]). *)
Inductive hashlib_attr : Type :=
| Constructor (h : HashMod)
| NotConstructor (e : exn).

(** [SignedNonceManager.__init__].  [hashlib] gives the attributes of the
    module [hashlib] by name and [urandom16] is the value of
    [os.urandom(16)], read when no secret is given. *)
Definition __init__ (hashlib : str -> option hashlib_attr) (urandom16 : str)
    (secret : option str) (timeout soft_timeout : option number)
    (sign_headers : option (list str)) (hashmod : option hashmod_arg)
    : result SignedNonceManager :=
  let secret := match secret with None => urandom16 | Some s => s end in
  let timeout := match timeout with None => PyInt (5 * 60) | Some t => t end in
  soft_timeout ←
    match soft_timeout with
    | None =>
        t ← to_float timeout;
        s ← Float.int (Float.mul t (Float.lit (8 # 10)));
        mret (if (s =? 0)%Z then None else Some (PyInt s))
    | Some s => mret (Some s)
    end;
  let sign_headers :=
    match sign_headers with
    | None => [b{"HTTP_USER_AGENT"}]
    | Some hs => hs
    end in
  hashmod ←
    match hashmod with
    | None => Ok SHA1.hashmod
    | Some (HashCons h) => Ok h
    | Some (HashName name) =>
        match hashlib name with
        | Some (Constructor h) => Ok h
        | Some (NotConstructor e) => Raise e
        | None => Raise AttributeError
        end
    end;
  mret {| secret := secret;
          timeout := timeout;
          soft_timeout := soft_timeout;
          sign_headers := sign_headers;
          hashmod := hashmod;
          hashmod_digest_size := digest_size hashmod;
          _signing_key := hmac.hmac_digest (hmac.new b{"SIGN"} secret hashmod);
          _generation_key :=
            hmac.hmac_digest (hmac.new b{"GENERATE"} secret hashmod);
          _nonce_counts := ∅;
          _nonce_purge_queue := [] |}.

(** [_get_signature]: the HMAC of [value], then for each signed header a
    zero byte and the header's value in the request environment. *)
Definition _get_signature (self : SignedNonceManager) (value : str)
    (request : Request) : str :=
  let sig := hmac.new (secret self) value (hashmod self) in
  let sig :=
    fold_left
      (fun sig header =>
         let sig := hmac.update sig [zero] in
         hmac.update sig (dict_get (environ request) header []))
      (sign_headers self) sig in
  base64.b64encode (hmac.hmac_digest sig).

(** [generate_nonce]; [now] is [time.time()], [rnd] is [os.urandom(3)] and
    [maxint] is [sys.maxint], which decides whether [hex] prints a
    trailing ["L"].  The factor [10] is an [int] that converts to a float
    as it is. *)
Definition generate_nonce (maxint : Z) (self : SignedNonceManager)
    (now : Float.float) (rnd : str) (request : Request) : result str :=
  ticks ← Float.int (Float.mul now (Float.Fin 10));
  let timestamp := Py.hex maxint ticks in
  let timestamp := Py.slice_from 2 timestamp in
  let timestamp :=
    if Py.endswith timestamp "L" then Py.slice_to timestamp (-1)
    else timestamp in
  let data := Py.fmt_colon timestamp (Py.hex_encode rnd) in
  let sig := _get_signature self data request in
  mret (Py.fmt_colon data sig).

(** The body of the [try] of [_nonce_has_expired]. *)
Definition expiry_time (nonce : str) (timeout : number) : result Float.float :=
  '(timestamp, rand_and_sig) ← Py.unpack2 (Py.split1 Py.colon nonce);
  ts ← Py.int16 timestamp;
  ts ← Float.of_int ts;
  let seconds := Float.mul ts (Float.lit (1 # 10)) in
  timeout ← to_float timeout;
  mret (Float.add seconds timeout).

(** [_nonce_has_expired(nonce, timeout=None)]; [now] is [time.time()],
    read once the expiry time is known.  Only [ValueError] is caught. *)
Definition _nonce_has_expired (self : SignedNonceManager) (now : Float.float)
    (nonce : str) (timeout_arg : option number) : result bool :=
  let timeout :=
    match timeout_arg with
    | None => timeout self
    | Some t => t
    end in
  match expiry_time nonce timeout with
  | Raise ValueError => Ok true
  | Raise e => Raise e
  | Ok expiry_time => Ok (Float.le expiry_time now)
  end.

(** [is_valid_nonce] *)
Definition is_valid_nonce (self : SignedNonceManager) (now : Float.float)
    (nonce : str) (request : Request) : result bool :=
  expired ← _nonce_has_expired self now nonce None;
  if expired : bool then mret false
  else
    '(data, sig) ← Py.unpack2 (Py.rsplit1 Py.colon nonce);
    let expected_sig := _get_signature self data request in
    mret (negb (strings_differ sig expected_sig)).

(** [get_next_nonce]; [now] is the time read by the expiry check, [now']
    and [rnd] are the time and the random bytes read by [generate_nonce]. *)
Definition get_next_nonce (maxint : Z) (self : SignedNonceManager)
    (now now' : Float.float) (rnd : str) (nonce : str) (request : Request)
    : result (option str) :=
  expired ← _nonce_has_expired self now nonce (soft_timeout self);
  if negb expired then mret None
  else
    fresh ← generate_nonce maxint self now' rnd request;
    mret (Some fresh).

(** The loop of [get_prandom_bytes] over [xrange(1, N + 1)]. *)
Fixpoint prandom_loop (self : SignedNonceManager) (nonce : str)
    (range : list Z) (T : str) (output : list str) : result (list str) :=
  match range with
  | [] => Ok output
  | i :: range' =>
      c ← Py.chr i;
      let data := T ++ nonce ++ [c] in
      let T :=
        hmac.hmac_digest (hmac.new (_generation_key self) data (hashmod self)) in
      prandom_loop self nonce range' T (output ++ [T])
  end.

(** [xrange(a, a + n)] *)
Definition xrange (a : Z) (n : nat) : list Z :=
  map (fun k => (a + Z.of_nat k)%Z) (seq 0 n).

(** [int(math.ceil(a * 1.0 / b))] for integers [a] and [b]: both are
    converted to floats, and the product and the quotient are rounded. *)
Definition ceil_quotient (a b : Z) : result Z :=
  a ← Float.of_int a;
  let a := Float.mul a (Float.Fin 1) in
  b ← Float.of_int b;
  q ← Float.div a b;
  Float.int (Float.ceil q).

(** [get_prandom_bytes] *)
Definition get_prandom_bytes (self : SignedNonceManager) (nonce : str)
    (size : Z) : result str :=
  N ← ceil_quotient size (Z.of_nat (hashmod_digest_size self));
  if negb (N <=? 255)%Z then Raise AssertionError
  else
    output ← prandom_loop self nonce (xrange 1 (Z.to_nat N)) [] [];
    mret (Py.slice_to (concat output) size).

(** [get_nonce_count] *)
Definition get_nonce_count (self : SignedNonceManager) (nonce : str)
    : option Z :=
  _nonce_counts self !! nonce.

(** The loop of [_purge_expired_nonces]: [n] turns are left, and
    [clock i] is [time.time()] as read in turn [i].  An exception leaves
    the queue and the counters as the turns before it have made them. *)
Fixpoint purge_loop (self : SignedNonceManager) (clock : nat -> Float.float)
    (i n : nat) : outcome :=
  match n with
  | O => (Ok (), self)
  | S n' =>
      match getitem0 (_nonce_purge_queue self) with
      | Raise e => (Raise e, self)
      | Ok nonce =>
          match _nonce_has_expired self (clock i) nonce None with
          | Raise e => (Raise e, self)
          | Ok false => (Ok (), self)
          | Ok true =>
              let self := set_counts self (delete nonce (_nonce_counts self)) in
              match heapq.heappop Py.str_ltb (_nonce_purge_queue self) with
              | Raise e => (Raise e, self)
              | Ok (_, queue) => purge_loop (set_queue self queue) clock (S i) n'
              end
          end
      end
  end.

(** [_purge_expired_nonces(limit=None)] *)
Definition _purge_expired_nonces (self : SignedNonceManager)
    (clock : nat -> Float.float) (limit : option Z) : outcome :=
  let len := Z.of_nat (length (_nonce_purge_queue self)) in
  let limit := match limit with None => len | Some l => l end in
  purge_loop self clock 0 (Z.to_nat (Z.min limit len)).

(** [set_nonce_count]; the lock only matters to concurrent callers and is
    left out.  When the purge raises, the nonce is neither pushed on the
    queue nor given a counter. *)
Definition set_nonce_count (self : SignedNonceManager)
    (clock : nat -> Float.float) (nonce : str) (nc : Z) : outcome :=
  match _nonce_counts self !! nonce with
  | None =>
      match _purge_expired_nonces self clock (Some 10%Z) with
      | (Raise e, self) => (Raise e, self)
      | (Ok _, self) =>
          let self :=
            set_queue self
              (heapq.heappush Py.str_ltb (_nonce_purge_queue self) nonce) in
          (Ok (), set_counts self (<[nonce := nc]> (_nonce_counts self)))
      end
  | Some _ => (Ok (), set_counts self (<[nonce := nc]> (_nonce_counts self)))
  end.

(** * Notions used to state the properties *)

Import Py.

(** ** Signing *)

(** [hmac.new(key, msg, H).digest()] *)
Definition hmac_of (H : HashMod) (key msg : str) : str :=
  hmac.hmac_digest (hmac.new key msg H).

(** The bytes that [_get_signature] feeds to the HMAC after the value: a
    zero byte and the header's value, for each signed header. *)
Definition bound_headers (self : SignedNonceManager) (request : Request) : str :=
  flat_map (fun header => zero :: dict_get (environ request) header [])
    (sign_headers self).

(** The bytes given to the HMAC by [_get_signature]: the value, then the
    bound header fields. *)
Definition signed_message (self : SignedNonceManager) (value : str)
    (request : Request) : str :=
  value ++ bound_headers self request.

(** ** Numbers and time *)

(** The number of seconds that a finite number stands for. *)
Definition seconds (a : number) : option Q :=
  match a with
  | PyInt n => Some (inject_Z n)
  | PyFloat (Float.Fin x) => Some x
  | PyFloat _ => None
  end.

(** The least magnitude of an integer that does not convert to a float:
    half a unit in the last place below [2^1024]. *)
Definition overflow_threshold : Z := (2 ^ 1024 - 2 ^ 970)%Z.

(** The times and timeouts that the properties on rounding cover: up to
    [2^40] seconds, some 34 000 years. *)
Definition in_time_range (t : Q) : Prop := (Qabs t <= 2 ^ 40)%Q.

(** The timestamps that they cover: up to [2^44] tenths of a second. *)
Definition in_tick_range (ts : Z) : Prop := (Z.abs ts <= 2 ^ 44)%Z.

(** Within these ranges the expiry time computed in double precision is
    less than a millisecond away from the exact one. *)
Definition slack : Q := 1 # 1000.

(** The timestamp that [generate_nonce] stamps at the time [now]:
    [int(time.time() * 10)]. *)
Definition ticks (now : Float.float) : result Z :=
  Float.int (Float.mul now (Float.Fin 10)).

(** [int(timeout * 0.8)], of which the constructor makes the soft timeout
    when none is given. *)
Definition eighty_percent (timeout : number) : result Z :=
  t ← to_float timeout; Float.int (Float.mul t (Float.lit (8 # 10))).

(** ** The age of a nonce *)

(** The digits printed by [hex]. *)
Definition lower_hex : str := b{"0123456789abcdef"}.

(** The integer encoded in the timestamp field, the text before the first
    colon; [None] when there is no colon or the field is not a
    hexadecimal integer. *)
Definition timestamp_of (nonce : str) : option Z :=
  match Py.split1 Py.colon nonce with
  | [ts; _] =>
      match Py.int16 ts with
      | Ok z => Some z
      | Raise _ => None
      end
  | _ => None
  end.

(** The exact age in seconds, at time [now], of a nonce stamped in tenths
    of a second. *)
Definition age (now : Q) (nonce : str) : option Q :=
  match timestamp_of nonce with
  | Some ts => Some (now - inject_Z ts / 10)%Q
  | None => None
  end.

(** A malformed nonce: no colon, or a timestamp field that [int(_, 16)]
    rejects. *)
Definition malformed (nonce : str) : Prop :=
  (Py.colon ∉ nonce) \/
  exists ts rest,
    nonce = ts ++ Py.colon :: rest /\ (Py.colon ∉ ts) /\
    Py.int16 ts = Raise ValueError.

(** What [get_next_nonce] answers when it renews: the nonce that
    [generate_nonce] returns, or the exception that it raises. *)
Definition renewed (fresh : result str) : result (option str) :=
  fresh ← fresh; mret (Some fresh).

(** [get_next_nonce] renews at [limit]: its result [r] is none for a
    nonce younger than [limit], and the renewal for a nonce that has
    reached [limit] or is malformed.  The ages are exact; those within
    [slack] of [limit] are left to the rounding of the expiry time, and
    so are the timestamps out of range. *)
Definition renews_at (limit : Q) (now : Q) (nonce : str)
    (r : result (option str)) (fresh : result str) : Prop :=
  (forall ts a,
     timestamp_of nonce = Some ts -> in_tick_range ts ->
     age now nonce = Some a ->
     ((a <= limit - slack)%Q -> r = Ok None) /\
     ((limit + slack <= a)%Q -> r = renewed fresh)) /\
  (malformed nonce -> r = renewed fresh).

(** ** The states of a manager *)

(** One state change: a call of [set_nonce_count] or of
    [_purge_expired_nonces], whether it returns or raises. *)
Inductive step (self self' : SignedNonceManager) : Prop :=
| step_set_nonce_count clock nonce nc r :
    set_nonce_count self clock nonce nc = (r, self') -> step self self'
| step_purge clock limit r :
    _purge_expired_nonces self clock limit = (r, self') -> step self self'.

(** The states a manager goes through: the one built by the constructor
    and those that follow it. *)
Definition reachable (self : SignedNonceManager) : Prop :=
  exists hashlib urandom16 secret_arg timeout_arg soft_arg headers_arg
         hashmod_arg self0,
    __init__ hashlib urandom16 secret_arg timeout_arg soft_arg headers_arg
      hashmod_arg = Ok self0 /\
    rtc step self0 self.

(** The configuration: everything but the counter store and the queue. *)
Definition same_config (self self' : SignedNonceManager) : Prop :=
  secret self' = secret self /\
  timeout self' = timeout self /\
  soft_timeout self' = soft_timeout self /\
  sign_headers self' = sign_headers self /\
  hashmod self' = hashmod self /\
  hashmod_digest_size self' = hashmod_digest_size self /\
  _signing_key self' = _signing_key self /\
  _generation_key self' = _generation_key self.

(** ** HKDF-Expand *)

(** [ceil(a / b)] on integers, for a positive [b]. *)
Definition ceil_div (a b : Z) : Z := ((a + b - 1) / b)%Z.

(** HKDF-Expand (RFC 5869), in the words of the specification:
    [T(0)] is empty and [T(i) = keyed_hash(generation_key, T(i-1) + token +
    byte(i))]. *)
Fixpoint hkdf_T (self : SignedNonceManager) (token : str) (i : nat) : str :=
  match i with
  | O => []
  | S j =>
      hmac_of (hashmod self) (_generation_key self)
        (hkdf_T self token j ++ token ++ [ascii_of_nat i])
  end.

(** The first [size] bytes of [T(1) ++ T(2) ++ ... ++ T(n)], with
    [n = ceil(size / hash_output_size)]. *)
Definition hkdf_expand (self : SignedNonceManager) (token : str) (size : Z)
    : str :=
  let n := ceil_div size (Z.of_nat (digest_size (hashmod self))) in
  take (Z.to_nat size)
    (concat (map (hkdf_T self token) (seq 1 (Z.to_nat n)))).

(** ** The counter store and the expiry queue *)


(** The queue has no duplicates and holds exactly the nonces that have a
    counter. *)
Definition store_inv (self : SignedNonceManager) : Prop :=
  NoDup (_nonce_purge_queue self) /\
  forall nonce,
    nonce ∈ _nonce_purge_queue self <-> is_Some (_nonce_counts self !! nonce).

(** A sweep of at most [n] turns, reading the clock at [clock i],
    [clock (i + 1)], ..., has taken the nonces [purged] from the state
    [self] and ended with the outcome [out]: they are gone from the queue
    and from the counter store, and each had expired when it was
    examined.  A sweep that returns ended because the turns were used up
    or because the head of the queue had not expired; a sweep that raises
    ended because the expiry check of the head of the queue raised. *)
Definition swept (self : SignedNonceManager) (clock : nat -> Float.float)
    (i n : nat) (purged : list str) (out : outcome) : Prop :=
  length purged <= n /\
  _nonce_purge_queue self ≡ₚ purged ++ _nonce_purge_queue out.2 /\
  (forall nonce,
     _nonce_counts out.2 !! nonce =
     if decide (nonce ∈ purged) then None else _nonce_counts self !! nonce) /\
  (forall k nonce,
     purged !! k = Some nonce ->
     _nonce_has_expired self (clock (i + k)) nonce None = Ok true) /\
  match out.1 with
  | Ok _ =>
      length purged = n \/
      exists head,
        _nonce_purge_queue out.2 !! 0 = Some head /\
        _nonce_has_expired self (clock (i + length purged)) head None
        = Ok false
  | Raise e =>
      length purged < n /\
      exists head,
        _nonce_purge_queue out.2 !! 0 = Some head /\
        _nonce_has_expired self (clock (i + length purged)) head None
        = Raise e
  end.

(** The number of turns of a sweep with the given limit. *)
Definition purge_turns (self : SignedNonceManager) (limit : option Z) : nat :=
  let len := Z.of_nat (length (_nonce_purge_queue self)) in
  Z.to_nat (Z.min (default len limit) len).

(** What [set_nonce_count] does: for a nonce that has a counter, the
    counter is replaced; for a new nonce, a sweep of at most ten turns,
    and then, unless the sweep raised, the nonce is pushed on the queue
    and its counter stored. *)
Definition registers (self : SignedNonceManager) (clock : nat -> Float.float)
    (nonce : str) (nc : Z) (out : outcome) : Prop :=
  match _nonce_counts self !! nonce with
  | Some _ =>
      out.1 = Ok () /\
      _nonce_purge_queue out.2 = _nonce_purge_queue self /\
      _nonce_counts out.2 = <[nonce := nc]> (_nonce_counts self)
  | None =>
      exists purged,
        let sweep := _purge_expired_nonces self clock (Some 10%Z) in
        purge_turns self (Some 10%Z) <= 10 /\
        swept self clock 0 (purge_turns self (Some 10%Z)) purged sweep /\
        match sweep.1 with
        | Ok _ =>
            out.1 = Ok () /\
            _nonce_purge_queue out.2 ≡ₚ nonce :: _nonce_purge_queue sweep.2 /\
            _nonce_counts out.2 = <[nonce := nc]> (_nonce_counts sweep.2)
        | Raise e => out = sweep
        end
  end.

(** ** Running examples *)

(** A [hashlib] without attributes. *)
Definition no_hashlib : str -> option hashlib_attr := fun _ => None.

(** [SignedNonceManager(secret="sekrit")]: SHA-1, a hard timeout of 300 s,
    a soft timeout of 240 s, signatures bound to the user agent. *)
Definition example_manager : SignedNonceManager := {|
  secret := b{"sekrit"};
  timeout := PyInt 300;
  soft_timeout := Some (PyInt 240);
  sign_headers := [b{"HTTP_USER_AGENT"}];
  hashmod := SHA1.hashmod;
  hashmod_digest_size := 20;
  _signing_key := hmac_of SHA1.hashmod b{"SIGN"} b{"sekrit"};
  _generation_key := hmac_of SHA1.hashmod b{"GENERATE"} b{"sekrit"};
  _nonce_counts := ∅;
  _nonce_purge_queue := []
|}.

(** The example manager with another hard timeout and no soft timeout. *)
Definition manager_with_timeout (t : number) : SignedNonceManager := {|
  secret := b{"sekrit"};
  timeout := t;
  soft_timeout := None;
  sign_headers := [b{"HTTP_USER_AGENT"}];
  hashmod := SHA1.hashmod;
  hashmod_digest_size := 20;
  _signing_key := hmac_of SHA1.hashmod b{"SIGN"} b{"sekrit"};
  _generation_key := hmac_of SHA1.hashmod b{"GENERATE"} b{"sekrit"};
  _nonce_counts := ∅;
  _nonce_purge_queue := []
|}.

(** [SignedNonceManager(secret="sekrit", timeout=0.05)] *)
Definition short_lived_manager : SignedNonceManager :=
  manager_with_timeout (PyFloat (Float.lit (1 # 20))).

(** [SignedNonceManager(secret="sekrit", timeout=0.1)] *)
Definition tenth_second_manager : SignedNonceManager :=
  manager_with_timeout (PyFloat (Float.lit (1 # 10))).

(** [SignedNonceManager(secret="sekrit", timeout=299.9, soft_timeout=240)] *)
Definition fractional_manager : SignedNonceManager := {|
  secret := b{"sekrit"};
  timeout := PyFloat (Float.lit (2999 # 10));
  soft_timeout := Some (PyInt 240);
  sign_headers := [b{"HTTP_USER_AGENT"}];
  hashmod := SHA1.hashmod;
  hashmod_digest_size := 20;
  _signing_key := hmac_of SHA1.hashmod b{"SIGN"} b{"sekrit"};
  _generation_key := hmac_of SHA1.hashmod b{"GENERATE"} b{"sekrit"};
  _nonce_counts := ∅;
  _nonce_purge_queue := []
|}.

(** [SignedNonceManager(secret="sekrit", timeout=1)]: 80% of the hard
    timeout is less than a second, and no soft timeout is set. *)
Definition one_second_manager : SignedNonceManager :=
  manager_with_timeout (PyInt 1).

(** [SignedNonceManager(secret="sekrit", timeout=300, soft_timeout=0)] *)
Definition zero_soft_manager : SignedNonceManager := {|
  secret := b{"sekrit"};
  timeout := PyInt 300;
  soft_timeout := Some (PyInt 0);
  sign_headers := [b{"HTTP_USER_AGENT"}];
  hashmod := SHA1.hashmod;
  hashmod_digest_size := 20;
  _signing_key := hmac_of SHA1.hashmod b{"SIGN"} b{"sekrit"};
  _generation_key := hmac_of SHA1.hashmod b{"GENERATE"} b{"sekrit"};
  _nonce_counts := ∅;
  _nonce_purge_queue := []
|}.

Definition example_request : Request :=
  {| environ := {[ b{"HTTP_USER_AGENT"} := b{"UA"} ]} |}.

(** [os.urandom(3)] *)
Definition example_rnd : str := [ascii_of_nat 1; ascii_of_nat 2; ascii_of_nat 255].

(** [sys.maxint] of a 64-bit build. *)
Definition maxint64 : Z := (2 ^ 63 - 1)%Z.

(** The clock reading 1300000000.5 s, a double. *)
Definition example_time : Float.float := Float.Fin (13000000005 # 10).

(** The nonce issued at that time. *)
Definition example_nonce : str :=
  b{"306dc4205:0102ff:SUlPpb81RB4LVxoY8wuV89b8lg8="}.

(** A nonce stamped 1700000000.1 s, signed for the request of the
    example. *)
Definition fractional_nonce : str :=
  b{"3f5476a01:0102ff:yMA2z4cLwXFDnmEPEha/NcuIC+I="}.

(** The request of the running example, sent with one more header. *)
Definition example_request_more : Request :=
  {| environ := {[ b{"HTTP_USER_AGENT"} := b{"UA"};
                   b{"HTTP_ACCEPT"} := b{"text/html"} ]} |}.

(** [SignedNonceManager(secret="sekrit", sign_headers=("HTTP_USER_AGENT",
    "HTTP_ACCEPT"))] *)
Definition two_header_manager : SignedNonceManager := {|
  secret := b{"sekrit"};
  timeout := PyInt 300;
  soft_timeout := Some (PyInt 240);
  sign_headers := [b{"HTTP_USER_AGENT"}; b{"HTTP_ACCEPT"}];
  hashmod := SHA1.hashmod;
  hashmod_digest_size := 20;
  _signing_key := hmac_of SHA1.hashmod b{"SIGN"} b{"sekrit"};
  _generation_key := hmac_of SHA1.hashmod b{"GENERATE"} b{"sekrit"};
  _nonce_counts := ∅;
  _nonce_purge_queue := []
|}.

(** Two requests whose fields differ by the place of a zero byte. *)
Definition zero_byte_request_1 : Request :=
  {| environ := {[ b{"HTTP_USER_AGENT"} := b{"U"} ++ zero :: b{"A"};
                   b{"HTTP_ACCEPT"} := b{"*"} ]} |}.

Definition zero_byte_request_2 : Request :=
  {| environ := {[ b{"HTTP_USER_AGENT"} := b{"U"};
                   b{"HTTP_ACCEPT"} := b{"A"} ++ zero :: b{"*"} ]} |}.

(** The state after [set_nonce_count(example_nonce, 1)] at the time the
    nonce was issued. *)
Definition example_registered : SignedNonceManager :=
  (set_nonce_count example_manager (fun _ => example_time) example_nonce 1).2.

(** A nonce whose timestamp, [16^256], is too large for a float. *)
Definition oversized_nonce : str :=
  b{"1"} ++ repeat "0"%char 256 ++ b{":0102ff:c2ln"}.

(** * Facts about the library routines *)

Module PyFacts.

Lemma split1_aux_cut sep acc a b :
  sep ∉ a -> split1_aux sep acc (a ++ sep :: b) = [rev acc ++ a; b].
Proof.
  revert acc. induction a as [|c a IH]; intros acc Hnot; simpl.
  - rewrite Ascii.eqb_refl, app_nil_r. reflexivity.
  - apply not_elem_of_cons in Hnot as [Hc Ha].
    destruct (Ascii.eqb_spec c sep) as [->|_]; [congruence|].
    rewrite IH by assumption. simpl. rewrite <- app_assoc. reflexivity.
Qed.

Lemma split1_cut sep a b :
  sep ∉ a -> split1 sep (a ++ sep :: b) = [a; b].
Proof. intros H. unfold split1. rewrite split1_aux_cut by assumption. reflexivity. Qed.

Lemma split1_aux_none sep acc s :
  sep ∉ s -> split1_aux sep acc s = [rev acc ++ s].
Proof.
  revert acc. induction s as [|c s IH]; intros acc Hnot; simpl.
  - rewrite app_nil_r. reflexivity.
  - apply not_elem_of_cons in Hnot as [Hc Hs].
    destruct (Ascii.eqb_spec c sep) as [->|_]; [congruence|].
    rewrite IH by assumption. simpl. rewrite <- app_assoc. reflexivity.
Qed.

Lemma split1_none sep s : sep ∉ s -> split1 sep s = [s].
Proof. intros H. unfold split1. rewrite split1_aux_none by assumption. reflexivity. Qed.

Lemma rsplit1_cut sep a b :
  sep ∉ b -> rsplit1 sep (a ++ sep :: b) = [a; b].
Proof.
  intros H. unfold rsplit1.
  rewrite rev_app_distr. simpl. rewrite <- app_assoc. simpl.
  rewrite split1_cut.
  - rewrite !rev_involutive. reflexivity.
  - rewrite list_elem_of_In, <- in_rev, <- list_elem_of_In. assumption.
Qed.

(** A missing separator makes the unpacking of [split] fail. *)
Lemma unpack2_split1_none sep s :
  sep ∉ s -> unpack2 (split1 sep s) = Raise ValueError.
Proof. intros H. rewrite split1_none by assumption. reflexivity. Qed.

Lemma split1_aux_shape sep acc s :
  ((sep ∉ s) /\ split1_aux sep acc s = [rev acc ++ s]) \/
  (exists a b, s = a ++ sep :: b /\ (sep ∉ a) /\
               split1_aux sep acc s = [rev acc ++ a; b]).
Proof.
  revert acc. induction s as [|c s IH]; intros acc; simpl.
  - left. split; [apply not_elem_of_nil|]. rewrite app_nil_r. reflexivity.
  - destruct (Ascii.eqb_spec c sep) as [->|Hne].
    + right. exists [], s. split; [reflexivity|]. split; [apply not_elem_of_nil|].
      rewrite app_nil_r. reflexivity.
    + destruct (IH (c :: acc)) as [[Hn He]|(a & b & -> & Hn & He)].
      * left. split; [apply not_elem_of_cons; auto|].
        rewrite He. simpl. rewrite <- app_assoc. reflexivity.
      * right. exists (c :: a), b. split; [reflexivity|].
        split; [apply not_elem_of_cons; auto|].
        rewrite He. simpl. rewrite <- app_assoc. reflexivity.
Qed.

(** [split] yields one part when the separator is missing and two parts
    otherwise. *)
Lemma split1_shape sep s :
  ((sep ∉ s) /\ split1 sep s = [s]) \/
  (exists a b, s = a ++ sep :: b /\ (sep ∉ a) /\ split1 sep s = [a; b]).
Proof. apply (split1_aux_shape sep [] s). Qed.

(** [rsplit] yields two parts when the separator occurs. *)
Lemma unpack2_rsplit1 sep s :
  sep ∈ s -> exists a b, unpack2 (rsplit1 sep s) = Ok (a, b).
Proof.
  intros Hin. unfold rsplit1.
  destruct (split1_shape sep (rev s)) as [[Hn _]|(a & b & _ & _ & He)].
  - exfalso. apply Hn. rewrite list_elem_of_In, <- in_rev, <- list_elem_of_In.
    exact Hin.
  - rewrite He. eexists _, _. reflexivity.
Qed.

(** Hexadecimal digits. *)

Lemma hex_digit_lower d : (0 <= d < 16)%Z -> hex_digit d ∈ lower_hex.
Proof.
  intros H.
  assert (Hd : exists k, (k < 16)%nat /\ d = Z.of_nat k)
    by (exists (Z.to_nat d); lia).
  destruct Hd as (k & Hk & ->).
  unfold hex_digit. rewrite Nat2Z.id.
  do 16 (destruct k as [|k]; [apply list_elem_of_In; simpl; tauto|]).
  lia.
Qed.

Lemma hex_value_digit d : (0 <= d < 16)%Z -> hex_value (hex_digit d) = Some d.
Proof.
  intros H.
  assert (Hd : exists k, (k < 16)%nat /\ d = Z.of_nat k)
    by (exists (Z.to_nat d); lia).
  destruct Hd as (k & Hk & ->).
  unfold hex_digit. rewrite Nat2Z.id.
  do 16 (destruct k as [|k]; [reflexivity|]).
  lia.
Qed.

Lemma hex_digits_aux_lower fuel n acc :
  (0 <= n)%Z -> Forall (fun c => c ∈ lower_hex) acc ->
  Forall (fun c => c ∈ lower_hex) (hex_digits_aux fuel n acc).
Proof.
  revert n acc. induction fuel as [|fuel IH]; intros n acc Hn Hacc; simpl.
  - assumption.
  - assert (Hd : hex_digit (n mod 16) ∈ lower_hex)
      by (apply hex_digit_lower, Z.mod_pos_bound; lia).
    destruct (n / 16 =? 0)%Z.
    + constructor; assumption.
    + apply IH; [apply Z.div_pos; lia | constructor; assumption].
Qed.

Lemma hex_digits_lower n :
  (0 <= n)%Z -> Forall (fun c => c ∈ lower_hex) (hex_digits n).
Proof. intros H. apply hex_digits_aux_lower; [assumption | constructor]. Qed.

Lemma hex_digits_aux_nonempty fuel n acc :
  hex_digits_aux (S fuel) n acc <> [].
Proof.
  revert n acc. induction fuel as [|fuel IH]; intros n acc.
  - simpl. destruct (n / 16 =? 0)%Z; discriminate.
  - change (hex_digits_aux (S (S fuel)) n acc)
      with (let acc' := hex_digit (n mod 16) :: acc in
            if (n / 16 =? 0)%Z then acc'
            else hex_digits_aux (S fuel) (n / 16) acc').
    simpl. destruct (n / 16 =? 0)%Z; [discriminate | apply IH].
Qed.

Lemma hex_digits_aux_app fuel n acc :
  hex_digits_aux fuel n acc = hex_digits_aux fuel n [] ++ acc.
Proof.
  revert n acc. induction fuel as [|fuel IH]; intros n acc; simpl.
  - reflexivity.
  - destruct (n / 16 =? 0)%Z; [reflexivity|].
    rewrite IH. rewrite (IH _ [_]). rewrite <- app_assoc. reflexivity.
Qed.

Lemma parse_hex_digits_aux fuel n acc :
  (0 <= n < 16 ^ Z.of_nat fuel)%Z ->
  parse_hex_digits (hex_digits_aux fuel n acc) 0 = parse_hex_digits acc n.
Proof.
  revert n acc. induction fuel as [|fuel IH]; intros n acc Hn.
  - simpl in *. assert (n = 0%Z) by lia. subst. reflexivity.
  - simpl hex_digits_aux.
    assert (Hmod : (0 <= n mod 16 < 16)%Z) by (apply Z.mod_pos_bound; lia).
    destruct (n / 16 =? 0)%Z eqn:Hq.
    + apply Z.eqb_eq in Hq.
      assert (Hsmall : (n mod 16 = n)%Z)
        by (pose proof (Z.div_mod n 16); lia).
      simpl. rewrite hex_value_digit by assumption. rewrite Hsmall.
      reflexivity.
    + rewrite IH.
      * simpl. rewrite hex_value_digit by assumption.
        f_equal. pose proof (Z.div_mod n 16). lia.
      * rewrite Nat2Z.inj_succ, Z.pow_succ_r in Hn by lia.
        split; [apply Z.div_pos; lia|].
        apply Z.div_lt_upper_bound; lia.
Qed.

Lemma hex_digits_fuel n :
  (0 <= n)%Z -> (n < 16 ^ Z.of_nat (S (Z.to_nat (Z.log2 n))))%Z.
Proof.
  intros Hn.
  destruct (Z.eq_dec n 0%Z) as [->|Hne]; [reflexivity|].
  assert (Hlog := Z.log2_spec n ltac:(lia)).
  assert (H0 := Z.log2_nonneg n).
  rewrite Nat2Z.inj_succ, Z2Nat.id by assumption.
  eapply Z.lt_le_trans; [apply Hlog|].
  change 16%Z with (2 ^ 4)%Z. rewrite <- Z.pow_mul_r by lia.
  apply Z.pow_le_mono_r; lia.
Qed.

(** The digits printed for a non-negative integer read back as it. *)
Lemma parse_hex_digits_hex_digits n :
  (0 <= n)%Z -> parse_hex_digits (hex_digits n) 0 = Some n.
Proof.
  intros Hn. unfold hex_digits.
  rewrite parse_hex_digits_aux; [reflexivity|].
  split; [assumption | apply hex_digits_fuel; assumption].
Qed.

Lemma hex_digits_nonempty n : hex_digits n <> [].
Proof. apply hex_digits_aux_nonempty. Qed.

Lemma lower_hex_facts c :
  c ∈ lower_hex ->
  c <> colon /\ c <> "L"%char /\ is_space c = false /\
  Ascii.eqb c "-" = false /\ Ascii.eqb c "+" = false /\
  Ascii.eqb c "x" = false /\ Ascii.eqb c "X" = false.
Proof.
  unfold lower_hex. simpl. intros H.
  repeat (apply elem_of_cons in H as [->|H]; [repeat split; discriminate|]).
  apply elem_of_nil in H. contradiction.
Qed.

Lemma lstrip_id s : Forall (fun c => is_space c = false) s -> lstrip s = s.
Proof. intros H. destruct H as [|c s Hc _]; simpl; [reflexivity | rewrite Hc; reflexivity]. Qed.

Lemma strip_id s : Forall (fun c => is_space c = false) s -> strip s = s.
Proof.
  intros H. unfold strip. rewrite (lstrip_id s) by assumption.
  rewrite lstrip_id; [apply rev_involutive|].
  apply Forall_rev. assumption.
Qed.

(** [int(s, 16)] reads the lower-case digits of [n] back as [n]. *)
Lemma int16_hex_digits n : (0 <= n)%Z -> int16 (hex_digits n) = Ok n.
Proof.
  intros Hn.
  pose proof (hex_digits_lower n Hn) as Hall.
  pose proof (hex_digits_nonempty n) as Hne.
  pose proof (parse_hex_digits_hex_digits n Hn) as Hparse.
  unfold int16. rewrite strip_id.
  2:{ eapply Forall_impl; [exact Hall|]. intros c Hc.
      apply lower_hex_facts in Hc. tauto. }
  destruct (hex_digits n) as [|c s]; [congruence|].
  inversion Hall as [|? ? Hc Hs]; subst.
  apply lower_hex_facts in Hc as (_ & _ & Hsp & Hm & Hp & Hx & HX).
  rewrite Hm, Hp. cbn [lstrip]. rewrite Hsp.
  assert (Hdrop : drop_0x (c :: s) = c :: s).
  { destruct s as [|c2 s]; [reflexivity|]. simpl.
    inversion Hs as [|? ? Hc2 _]; subst.
    apply lower_hex_facts in Hc2 as (_ & _ & _ & _ & _ & Hx2 & HX2).
    rewrite Hx2, HX2. rewrite andb_false_r. reflexivity. }
  rewrite Hdrop, Hparse. reflexivity.
Qed.

Lemma last_lower_hex s d :
  Forall (fun c => c ∈ lower_hex) s -> last s = Some d -> d ∈ lower_hex.
Proof.
  intros Hall Hlast. apply last_Some in Hlast as [s' ->].
  apply Forall_app in Hall as [_ Hd]. inversion Hd; assumption.
Qed.

(** [hex], cut after ["0x"] and freed of a trailing ["L"], leaves the
    digits of a non-negative integer. *)
Lemma hex_stripped maxint n :
  (0 <= n)%Z ->
  let timestamp := slice_from 2 (hex maxint n) in
  (if endswith timestamp "L" then slice_to timestamp (-1) else timestamp)
  = hex_digits n.
Proof.
  intros Hn. unfold hex.
  assert (Hneg : (n <? 0)%Z = false) by lia. rewrite Hneg.
  rewrite Z.abs_eq by assumption.
  pose proof (hex_digits_lower n Hn) as Hall.
  pose proof (hex_digits_nonempty n) as Hne.
  simpl. unfold slice_from. simpl.
  destruct ((n <=? maxint)%Z && (- maxint - 1 <=? n)%Z).
  - rewrite app_nil_r. unfold endswith.
    destruct (last (hex_digits n)) as [d|] eqn:Hlast; [|reflexivity].
    apply (last_lower_hex _ _ Hall) in Hlast.
    apply lower_hex_facts in Hlast as (_ & HL & _).
    destruct (Ascii.eqb_spec d "L"); [contradiction | reflexivity].
  - unfold endswith. rewrite last_snoc. simpl.
    unfold slice_to. simpl. rewrite length_app. simpl.
    replace (length (hex_digits n) + 1 - Z.to_nat (- (-1)))%nat
      with (length (hex_digits n)) by lia.
    rewrite take_app_length. reflexivity.
Qed.

Lemma int16_raises s e : Py.int16 s = Raise e -> e = ValueError.
Proof.
  unfold Py.int16. intros H.
  repeat case_match; congruence.
Qed.

End PyFacts.

(** ** Floating point *)

Module FloatFacts.
Import Float.
Local Open Scope Q_scope.

Lemma pow2_pos z : 0 < 2 ^ z.
Proof. apply Qpower_0_lt. reflexivity. Qed.

Lemma pow2_add a b : 2 ^ (a + b) == 2 ^ a * 2 ^ b.
Proof. apply Qpower_plus. discriminate. Qed.

Lemma pow2_le a b : (a <= b)%Z -> 2 ^ a <= 2 ^ b.
Proof. intros H. apply Qpower_le_compat_l; [exact H | discriminate]. Qed.

Lemma pow2_lt a b : (a < b)%Z -> 2 ^ a < 2 ^ b.
Proof. intros H. apply Qpower_lt_compat_l; [exact H | reflexivity]. Qed.

Lemma pow2_succ a : 2 ^ (a + 1) == 2 * 2 ^ a.
Proof. rewrite pow2_add. change (2 ^ 1) with 2. ring. Qed.

Lemma pow2_inject (n : Z) : (0 <= n)%Z -> 2 ^ n == inject_Z (2 ^ n).
Proof. intros H. rewrite Zpower_Qpower by exact H. reflexivity. Qed.

(** [binade] is the exponent of the power of two at or below [|x|]. *)
Lemma binade_spec x :
  ~ x == 0 -> 2 ^ binade x <= Qabs x /\ Qabs x < 2 ^ (binade x + 1).
Proof.
  intros Hx. unfold binade.
  set (n := Z.abs (Qnum x)). set (d := Z.pos (Qden x)).
  assert (Hn : (0 < n)%Z).
  { unfold n. destruct x as [a b]. unfold Qeq in Hx. simpl in *. lia. }
  assert (Hd : (0 < d)%Z) by (unfold d; lia).
  pose proof (Z.log2_spec n Hn) as Hln. pose proof (Z.log2_spec d Hd) as Hld.
  pose proof (Z.log2_nonneg n) as Hln0. pose proof (Z.log2_nonneg d) as Hld0.
  set (ln := Z.log2 n) in *. set (ld := Z.log2 d) in *.
  assert (Habs : Qabs x * inject_Z d == inject_Z n).
  { destruct x as [a b]. unfold Qeq, Qabs, n, d. simpl. lia. }
  assert (Hdq : 0 < inject_Z d) by (unfold Qlt; simpl; lia).
  assert (Hpos : 0 < Qabs x).
  { destruct x as [a b]. unfold Qlt, Qabs, n in *. simpl in *. lia. }
  assert (Hup : Qabs x < 2 ^ (ln - ld + 1)).
  { apply (Qmult_lt_r _ _ (2 ^ ld) (pow2_pos ld)).
    rewrite <- pow2_add. replace (ln - ld + 1 + ld)%Z with (ln + 1)%Z by lia.
    apply Qle_lt_trans with (Qabs x * inject_Z d).
    - apply Qmult_le_compat_nonneg.
      + split; [apply Qabs_nonneg | apply Qle_refl].
      + split; [apply Qlt_le_weak, pow2_pos|].
        rewrite pow2_inject by lia. rewrite <- Zle_Qle. lia.
    - rewrite Habs, pow2_inject by lia. rewrite <- Zlt_Qlt. lia. }
  assert (Hlo : 2 ^ (ln - ld - 1) < Qabs x).
  { apply (Qmult_lt_r _ _ (2 ^ (ld + 1)) (pow2_pos _)).
    rewrite <- pow2_add. replace (ln - ld - 1 + (ld + 1))%Z with ln by lia.
    apply Qle_lt_trans with (Qabs x * inject_Z d).
    - rewrite Habs, pow2_inject by lia. rewrite <- Zle_Qle. lia.
    - apply Qmult_lt_l.
      + exact Hpos.
      + rewrite pow2_inject by lia. rewrite <- Zlt_Qlt. lia. }
  destruct (Qle_bool (2 ^ (ln - ld)) (Qabs x)) eqn:Hle.
  - apply Qle_bool_iff in Hle. split; [exact Hle | exact Hup].
  - assert (Hlt : Qabs x < 2 ^ (ln - ld)).
    { apply Qnot_le_lt. intros H. apply Qle_bool_iff in H. congruence. }
    replace (ln - ld - 1 + 1)%Z with (ln - ld)%Z by lia.
    split; [apply Qlt_le_weak, Hlo | exact Hlt].
Qed.

(** Rounding to an integer, ties to even. *)
Lemma round_half_even_spec q :
  inject_Z (round_half_even q) - (1 # 2) <= q /\
  q <= inject_Z (round_half_even q) + (1 # 2).
Proof.
  unfold round_half_even.
  pose proof (Qfloor_le q) as Hlo. pose proof (Qlt_floor q) as Hhi.
  rewrite inject_Z_plus in Hhi. change (inject_Z 1) with 1 in Hhi.
  destruct (Qcompare_spec (q - inject_Z (Qfloor q)) (1 # 2)) as [He|Hl|Hg].
  - destruct (Z.even (Qfloor q));
      [|rewrite inject_Z_plus; change (inject_Z 1) with 1]; split; lra.
  - split; lra.
  - rewrite inject_Z_plus. change (inject_Z 1) with 1. split; lra.
Qed.

(** An integer is left as it is. *)
Lemma round_half_even_Z q (n : Z) : q == inject_Z n -> round_half_even q = n.
Proof.
  intros Hq. unfold round_half_even.
  assert (Hf : Qfloor q = n) by (rewrite Hq; apply Qfloor_Z).
  rewrite Hf.
  destruct (Qcompare_spec (q - inject_Z n) (1 # 2)) as [He|Hl|Hg].
  - rewrite Hq in He. exfalso. lra.
  - reflexivity.
  - rewrite Hq in Hg. exfalso. lra.
Qed.

(** An integer bound on the argument bounds the result. *)
Lemma round_half_even_le q (n : Z) : q <= inject_Z n -> (round_half_even q <= n)%Z.
Proof.
  intros Hq. destruct (round_half_even_spec q) as [Hlo _].
  assert (H : inject_Z (round_half_even q) < inject_Z (n + 1)).
  { rewrite inject_Z_plus. change (inject_Z 1) with 1. lra. }
  rewrite <- Zlt_Qlt in H. lia.
Qed.

Lemma round_half_even_ge q (n : Z) : inject_Z n <= q -> (n <= round_half_even q)%Z.
Proof.
  intros Hq. destruct (round_half_even_spec q) as [_ Hhi].
  assert (H' : inject_Z (n - 1) < inject_Z (round_half_even q)).
  { unfold Z.sub. rewrite inject_Z_plus, inject_Z_opp. change (inject_Z 1) with 1. lra. }
  rewrite <- Zlt_Qlt in H'. lia.
Qed.

Lemma pow2_cancel p x : x / 2 ^ p * 2 ^ p == x.
Proof.
  field. intros H. pose proof (pow2_pos p) as Hp. rewrite H in Hp.
  apply (Qlt_irrefl _ Hp).
Qed.

(** The value that [round] gives to [x] before the range check is within
    half a unit in the last place. *)
Lemma round_value_error x :
  let p := ulp_exponent x in
  let y := inject_Z (round_half_even (x / 2 ^ p)) * 2 ^ p in
  Qabs (y - x) <= (1 # 2) * 2 ^ p.
Proof.
  intros p y. unfold y.
  pose proof (pow2_pos p) as Hp.
  destruct (round_half_even_spec (x / 2 ^ p)) as [Hlo Hhi].
  set (m := inject_Z (round_half_even (x / 2 ^ p))) in *.
  apply Qabs_Qle_condition.
  apply (Qmult_le_compat_r _ _ (2 ^ p)) in Hlo; [|apply Qlt_le_weak, Hp].
  apply (Qmult_le_compat_r _ _ (2 ^ p)) in Hhi; [|apply Qlt_le_weak, Hp].
  rewrite pow2_cancel in Hlo, Hhi.
  split; lra.
Qed.

Lemma round_zero x : x == 0 -> exists y, round x = Fin y /\ y == 0.
Proof.
  intros Hx. unfold round.
  set (p := ulp_exponent x).
  assert (Hm : round_half_even (x / 2 ^ p) = 0%Z).
  { apply round_half_even_Z. rewrite Hx. unfold Qdiv. ring. }
  rewrite Hm.
  assert (Hy : inject_Z 0 * 2 ^ p == 0) by ring.
  destruct (Qle_bool _ _) eqn:Hle.
  - apply Qle_bool_iff in Hle. rewrite Hy in Hle.
    exfalso. revert Hle. apply Qlt_not_le. reflexivity.
  - eexists. split; [reflexivity | exact Hy].
Qed.

Lemma binade_le x (k : Z) : ~ x == 0 -> Qabs x <= 2 ^ k -> (binade x <= k)%Z.
Proof.
  intros Hx Hk. destruct (binade_spec x Hx) as [Hlo _].
  apply (Qpower_le_compat_l_inv 2); [|reflexivity].
  eapply Qle_trans; eassumption.
Qed.

Lemma binade_lt x (k : Z) : ~ x == 0 -> Qabs x < 2 ^ k -> (binade x < k)%Z.
Proof.
  intros Hx Hk. destruct (binade_spec x Hx) as [Hlo _].
  apply (Qpower_lt_compat_l_inv 2); [|reflexivity].
  eapply Qle_lt_trans; eassumption.
Qed.

(** The unit in the last place of a non-zero [x]. *)
Lemma ulp_bound x :
  ~ x == 0 -> 2 ^ ulp_exponent x <= Qabs x * 2 ^ (-52) + 2 ^ (-1074).
Proof.
  intros Hx. destruct (binade_spec x Hx) as [Hlo _].
  unfold ulp_exponent.
  pose proof (pow2_pos (-1074)) as H1. pose proof (pow2_pos (-52)) as H2.
  pose proof (Qabs_nonneg x) as H3.
  destruct (Z.max_spec (binade x - 52) (-1074)) as [[_ ->]|[_ ->]].
  - assert (0 <= Qabs x * 2 ^ (-52)).
    { apply Qmult_le_0_compat; [exact H3 | apply Qlt_le_weak, H2]. }
    lra.
  - replace (binade x - 52)%Z with (binade x + (-52))%Z by lia.
    rewrite pow2_add.
    apply (Qmult_le_compat_r _ _ (2 ^ (-52))) in Hlo; [|apply Qlt_le_weak, H2].
    lra.
Qed.

(** The value that [round] gives to a number of magnitude at most [B],
    before the range check, is within [B * 2^-53 + 2^-100]. *)
Lemma round_value_within x B :
  Qabs x <= B ->
  let y := inject_Z (round_half_even (x / 2 ^ ulp_exponent x))
           * 2 ^ ulp_exponent x in
  x - (B * (1 # 9007199254740992) + (1 # 1267650600228229401496703205376)) <= y /\
  y <= x + (B * (1 # 9007199254740992) + (1 # 1267650600228229401496703205376)).
Proof.
  intros HB y.
  destruct (Qeq_dec x 0) as [Hx|Hx].
  { assert (Hm : round_half_even (x / 2 ^ ulp_exponent x) = 0%Z).
    { apply round_half_even_Z. generalize (ulp_exponent x). intros p.
      rewrite Hx. unfold Qdiv. ring. }
    assert (Hy : y == 0) by (unfold y; rewrite Hm; ring).
    pose proof (Qabs_nonneg x). clearbody y.
    assert (0 <= B * (1 # 9007199254740992))
      by (apply Qmult_le_0_compat; lra).
    split; lra. }
  pose proof (round_value_error x) as Herr. cbv zeta in Herr. fold y in Herr.
  clearbody y.
  pose proof (ulp_bound x Hx) as Hulp.
  set (u := 2 ^ ulp_exponent x) in *.
  assert (E52 : 2 ^ (-52) == 1 # 4503599627370496) by reflexivity.
  assert (E1074 : 2 ^ (-1074) <= 2 # 1267650600228229401496703205376).
  { apply Qle_trans with (2 ^ (-99)); [apply pow2_le; lia|].
    unfold Qle. simpl. lia. }
  assert (Hsmall : (1 # 2) * u
                   <= B * (1 # 9007199254740992)
                      + (1 # 1267650600228229401496703205376)).
  { rewrite E52 in Hulp.
    assert (Qabs x * (1 # 4503599627370496) <= B * (1 # 4503599627370496))
      by (apply Qmult_le_compat_r; [exact HB | discriminate]).
    lra. }
  apply Qabs_Qle_condition in Herr. split; lra.
Qed.

Lemma round_small x :
  Qabs x <= 2 ^ 1023 ->
  exists y, round x = Fin y /\ Qabs y < 2 ^ 1024 - 2 ^ 970.
Proof.
  intros Hx.
  destruct (round_value_within x (2 ^ 1023) Hx) as [Hlo Hhi].
  unfold round.
  set (y := inject_Z (round_half_even (x / 2 ^ ulp_exponent x))
            * 2 ^ ulp_exponent x) in *.
  assert (E10 : 2 ^ 1024 == 2 * 2 ^ 1023) by (apply (pow2_succ 1023)).
  assert (E970 : 2 ^ 1023 == inject_Z (2 ^ 53) * 2 ^ 970).
  { rewrite <- pow2_inject, <- pow2_add by lia. reflexivity. }
  change (inject_Z (2 ^ 53)) with (9007199254740992 # 1) in E970.
  assert (H1 : 1 <= 2 ^ 1023) by (apply (pow2_le 0 1023); lia).
  pose proof (pow2_pos 970) as H970.
  assert (Hy : Qabs y < 2 ^ 1024 - 2 ^ 970).
  { apply Qabs_Qlt_condition. apply Qabs_Qle_condition in Hx.
    set (P := 2 ^ 1023) in *. set (U := 2 ^ 970) in *. split; lra. }
  destruct (Qle_bool (2 ^ 1024) (Qabs y)) eqn:Hover.
  - exfalso. apply Qle_bool_iff in Hover. lra.
  - exists y. split; [reflexivity | exact Hy].
Qed.

(** The sign is kept. *)
Lemma round_sign x y :
  round x = Fin y -> (0 <= x -> 0 <= y) /\ (x <= 0 -> y <= 0).
Proof.
  unfold round. set (p := ulp_exponent x).
  destruct (Qle_bool _ _); [discriminate|]. intros [= <-].
  pose proof (pow2_pos p) as Hp.
  assert (Hinv : 0 < / 2 ^ p) by (apply Qinv_lt_0_compat, Hp).
  split; intros Hx.
  - assert (Hq : inject_Z 0 <= x / 2 ^ p).
    { unfold Qdiv. change (inject_Z 0) with 0.
      apply Qmult_le_0_compat; [exact Hx | apply Qlt_le_weak, Hinv]. }
    apply round_half_even_ge in Hq. rewrite Zle_Qle in Hq.
    apply Qmult_le_0_compat; [exact Hq | apply Qlt_le_weak, Hp].
  - assert (Hq : x / 2 ^ p <= inject_Z 0).
    { unfold Qdiv. change (inject_Z 0) with 0.
      assert (H : 0 <= (- x) * / 2 ^ p)
        by (apply Qmult_le_0_compat; [lra | apply Qlt_le_weak, Hinv]).
      lra. }
    apply round_half_even_le in Hq. rewrite Zle_Qle in Hq.
    change (inject_Z 0) with 0 in Hq.
    set (m := inject_Z (round_half_even (x / 2 ^ p))) in *.
    assert (H : 0 <= (- m) * 2 ^ p)
      by (apply Qmult_le_0_compat; [lra | apply Qlt_le_weak, Hp]).
    lra.
Qed.

(** A number [m * 2^p] with [|m| < 2^53] and [p >= -1074], below the
    overflow threshold, is a double: rounding leaves it as it is. *)
Lemma round_exact x (m0 p0 : Z) :
  x == inject_Z m0 * 2 ^ p0 ->
  (Z.abs m0 < 2 ^ 53)%Z -> (-1074 <= p0)%Z -> Qabs x < 2 ^ 1024 ->
  exists y, round x = Fin y /\ y == x.
Proof.
  intros Hx Hm Hp0 Hlt.
  destruct (Qeq_dec x 0) as [H0|H0].
  { destruct (round_zero x H0) as (y & Hy & Hy0). exists y.
    split; [exact Hy | rewrite Hy0, H0; reflexivity]. }
  assert (Hp : (ulp_exponent x <= p0)%Z).
  { unfold ulp_exponent. apply Z.max_lub; [|exact Hp0].
    assert (Hb : (binade x < 53 + p0)%Z); [|lia].
    apply binade_lt; [exact H0|].
    rewrite Hx, Qabs_Qmult, pow2_add.
    rewrite (Qabs_pos (2 ^ p0)) by (apply Qlt_le_weak, pow2_pos).
    apply Qmult_lt_compat_r; [apply pow2_pos|].
    rewrite pow2_inject by lia.
    destruct m0 as [|m|m]; unfold Qabs, inject_Z, Qlt; simpl in *; lia. }
  unfold round. set (p := ulp_exponent x) in *.
  assert (Hq : x / 2 ^ p == inject_Z (m0 * 2 ^ (p0 - p))).
  { rewrite inject_Z_mult, <- pow2_inject by lia.
    rewrite Hx. replace p0 with ((p0 - p) + p)%Z at 1 by lia.
    rewrite pow2_add. field.
    intros H. pose proof (pow2_pos p) as Hpp. rewrite H in Hpp.
    apply (Qlt_irrefl _ Hpp). }
  rewrite (round_half_even_Z _ _ Hq).
  assert (Hy : inject_Z (m0 * 2 ^ (p0 - p)) * 2 ^ p == x).
  { rewrite <- Hq. apply pow2_cancel. }
  destruct (Qle_bool _ _) eqn:Hover.
  - exfalso. apply Qle_bool_iff in Hover. rewrite Hy in Hover.
    apply (Qlt_not_le _ _ Hlt Hover).
  - eexists. split; [reflexivity | exact Hy].
Qed.

(** Integers below [2^53] in magnitude are doubles. *)
Lemma round_Z x (n : Z) :
  x == inject_Z n -> (Z.abs n < 2 ^ 53)%Z -> exists y, round x = Fin y /\ y == x.
Proof.
  intros Hx Hn. apply (round_exact x n 0); [|exact Hn|lia|].
  - rewrite Hx. change (2 ^ 0) with 1. ring.
  - rewrite Hx. apply Qlt_trans with (2 ^ 53).
    + rewrite pow2_inject by lia.
      destruct n as [|m|m]; unfold Qabs, inject_Z, Qlt; simpl in *; lia.
    + apply pow2_lt. lia.
Qed.

(** Ties go to the even neighbour. *)
Lemma round_half_even_up q (n : Z) :
  Z.even n = true -> inject_Z n - (1 # 2) <= q -> (n <= round_half_even q)%Z.
Proof.
  intros Heven Hq. unfold round_half_even.
  pose proof (Qfloor_le q) as Hlo. pose proof (Qlt_floor q) as Hhi.
  rewrite inject_Z_plus in Hhi. change (inject_Z 1) with 1 in Hhi.
  assert (Hf : (n - 1 <= Qfloor q)%Z).
  { assert (H : inject_Z (n - 2) < inject_Z (Qfloor q)).
    { unfold Z.sub. rewrite inject_Z_plus, inject_Z_opp.
      change (inject_Z 2) with 2. lra. }
    rewrite <- Zlt_Qlt in H. lia. }
  destruct (Z.eq_dec (Qfloor q) (n - 1)%Z) as [E|E].
  - rewrite E in *.
    assert (En : inject_Z (n - 1) == inject_Z n - 1).
    { unfold Z.sub. rewrite inject_Z_plus, inject_Z_opp. reflexivity. }
    destruct (Qcompare_spec (q - inject_Z (n - 1)) (1 # 2)) as [He|Hl|Hg].
    + replace (Z.even (n - 1)) with false; [lia|].
      rewrite Z.even_sub, Heven. reflexivity.
    + exfalso. lra.
    + lia.
  - destruct (Qcompare _ _); [destruct (Z.even (Qfloor q))| |]; lia.
Qed.

Lemma round_half_even_down q (n : Z) :
  Z.even n = true -> q <= inject_Z n + (1 # 2) -> (round_half_even q <= n)%Z.
Proof.
  intros Heven Hq. unfold round_half_even.
  pose proof (Qfloor_le q) as Hlo.
  assert (Hf : (Qfloor q <= n)%Z).
  { assert (H : inject_Z (Qfloor q) < inject_Z (n + 1)).
    { rewrite inject_Z_plus. change (inject_Z 1) with 1. lra. }
    rewrite <- Zlt_Qlt in H. lia. }
  destruct (Z.eq_dec (Qfloor q) n) as [E|E].
  - rewrite E in *.
    destruct (Qcompare_spec (q - inject_Z n) (1 # 2)) as [He|Hl|Hg].
    + rewrite Heven. lia.
    + lia.
    + exfalso. lra.
  - destruct (Qcompare _ _); [destruct (Z.even (Qfloor q))| |]; lia.
Qed.

(** The overflow threshold: half a unit in the last place below [2^1024]. *)
Lemma threshold_facts :
  2 ^ 1024 == inject_Z (2 ^ 53) * 2 ^ 971 /\
  2 ^ 1024 - 2 ^ 970 == (inject_Z (2 ^ 53) - (1 # 2)) * 2 ^ 971 /\
  2 ^ 1023 < 2 ^ 1024 - 2 ^ 970.
Proof.
  assert (E1 : 2 ^ 1024 == inject_Z (2 ^ 53) * 2 ^ 971).
  { rewrite <- pow2_inject by lia. rewrite <- pow2_add. reflexivity. }
  assert (E2 : 2 ^ 971 == 2 * 2 ^ 970) by (apply (pow2_succ 970)).
  assert (E3 : 2 ^ 1023 == inject_Z (2 ^ 52) * 2 ^ 971).
  { rewrite <- pow2_inject by lia. rewrite <- pow2_add. reflexivity. }
  pose proof (pow2_pos 970) as Hp.
  split; [exact E1|]. split.
  - rewrite E1, E2. ring.
  - rewrite E1, E3, E2.
    change (inject_Z (2 ^ 53)) with (9007199254740992 # 1).
    change (inject_Z (2 ^ 52)) with (4503599627370496 # 1).
    set (U := 2 ^ 970) in *. lra.
Qed.

(** Below the threshold the result is finite, and itself below the
    threshold. *)
Lemma round_finite x :
  Qabs x < 2 ^ 1024 - 2 ^ 970 ->
  exists y, round x = Fin y /\ Qabs y < 2 ^ 1024 - 2 ^ 970.
Proof.
  intros Hx.
  destruct threshold_facts as (E1 & E2 & E3).
  destruct (Qlt_le_dec (2 ^ 1023) (Qabs x)) as [Hbig|Hsmall].
  2:{ apply round_small, Hsmall. }
  assert (H0 : ~ x == 0).
  { intros H. rewrite H in Hbig. pose proof (pow2_pos 1023).
    change (Qabs 0) with 0 in Hbig. lra. }
  destruct (binade_spec x H0) as [Hlo Hhi].
  assert (Hb : binade x = 1023%Z).
  { assert (binade x < 1024)%Z.
    { apply binade_lt; [exact H0|]. pose proof (pow2_pos 970). lra. }
    assert (1023 < binade x + 1)%Z; [|lia].
    apply (Qpower_lt_compat_l_inv 2); [|reflexivity].
    eapply Qlt_trans; eassumption. }
  unfold round, ulp_exponent. rewrite Hb.
  change (Z.max (1023 - 52) (-1074)) with 971%Z.
  pose proof (pow2_pos 971) as HU.
  set (U := 2 ^ 971) in *.
  destruct (round_half_even_spec (x / U)) as [Hm1 Hm2].
  set (m := round_half_even (x / U)) in *.
  rewrite E2 in Hx. apply Qabs_Qlt_condition in Hx as [Hx1 Hx2].
  assert (Hq1 : x / U < inject_Z (2 ^ 53) - (1 # 2))
    by (apply Qlt_shift_div_r; assumption).
  assert (Hq2 : - (inject_Z (2 ^ 53) - (1 # 2)) < x / U).
  { apply Qlt_shift_div_l; [exact HU|].
    setoid_replace (- (inject_Z (2 ^ 53) - (1 # 2)) * U)
      with (- ((inject_Z (2 ^ 53) - (1 # 2)) * U)) using relation Qeq by ring.
    exact Hx1. }
  assert (Hm : (- (2 ^ 53 - 1) <= m <= 2 ^ 53 - 1)%Z).
  { change (inject_Z (2 ^ 53)) with (9007199254740992 # 1) in Hq1, Hq2.
    assert (H1 : inject_Z m < inject_Z (2 ^ 53)).
    { change (inject_Z (2 ^ 53)) with (9007199254740992 # 1). lra. }
    assert (H2 : inject_Z (- 2 ^ 53) < inject_Z m).
    { change (inject_Z (- 2 ^ 53)) with (-9007199254740992 # 1). lra. }
    rewrite <- Zlt_Qlt in H1, H2. lia. }
  destruct Hm as [Hma Hmb]. rewrite Zle_Qle in Hma, Hmb.
  change (inject_Z (- (2 ^ 53 - 1))) with (-9007199254740991 # 1) in Hma.
  change (inject_Z (2 ^ 53 - 1)) with (9007199254740991 # 1) in Hmb.
  change (inject_Z (2 ^ 53)) with (9007199254740992 # 1) in E1, E2.
  apply (Qmult_le_compat_r _ _ U) in Hma; [|apply Qlt_le_weak, HU].
  apply (Qmult_le_compat_r _ _ U) in Hmb; [|apply Qlt_le_weak, HU].
  assert (Hy : Qabs (inject_Z m * U) < 2 ^ 1024 - 2 ^ 970).
  { rewrite E2. apply Qabs_Qlt_condition. split; lra. }
  destruct (Qle_bool _ _) eqn:Hover.
  - exfalso. apply Qle_bool_iff in Hover. pose proof (pow2_pos 970). lra.
  - eexists. split; [reflexivity | exact Hy].
Qed.

Lemma binade_big x : 2 ^ 1024 - 2 ^ 970 <= Qabs x -> ~ x == 0 /\ (1023 <= binade x)%Z.
Proof.
  intros Hx. destruct threshold_facts as (_ & _ & E3).
  assert (H0 : ~ x == 0).
  { intros H. rewrite H in Hx. pose proof (pow2_pos 1023).
    change (Qabs 0) with 0 in Hx. lra. }
  split; [exact H0|].
  destruct (binade_spec x H0) as [_ Hhi].
  assert (1023 < binade x + 1)%Z; [|lia].
  apply (Qpower_lt_compat_l_inv 2); [|reflexivity]. lra.
Qed.

Lemma Qabs_div_pow2 x p : Qabs (x / 2 ^ p) == Qabs x / 2 ^ p.
Proof.
  unfold Qdiv. rewrite Qabs_Qmult, Qabs_Qinv.
  rewrite (Qabs_pos (2 ^ p)) by (apply Qlt_le_weak, pow2_pos). reflexivity.
Qed.

(** From the threshold on, the result is an infinity. *)
Lemma round_overflow x :
  2 ^ 1024 - 2 ^ 970 <= Qabs x -> round x = Inf (negb (Qle_bool 0 x)).
Proof.
  intros Hx. destruct (binade_big x Hx) as [H0 Hb].
  destruct threshold_facts as (E1 & E2 & _).
  destruct (binade_spec x H0) as [Hlo _].
  unfold round, ulp_exponent.
  rewrite Z.max_l by lia.
  assert (Hbig : 2 ^ 1024
                 <= Qabs (inject_Z (round_half_even (x / 2 ^ (binade x - 52)))
                          * 2 ^ (binade x - 52)));
    [|apply Qle_bool_iff in Hbig; rewrite Hbig; reflexivity].
  destruct (Z.eq_dec (binade x) 1023%Z) as [E|E].
  - (* the last binade: the mantissa is rounded up to 2^53 *)
    rewrite E. change (1023 - 52)%Z with 971%Z.
    pose proof (pow2_pos 971) as Hp.
    rewrite Qabs_Qmult, (Qabs_pos (2 ^ 971)) by (apply Qlt_le_weak, Hp).
    assert (Hge : inject_Z (2 ^ 53) - (1 # 2) <= Qabs x / 2 ^ 971).
    { apply Qle_shift_div_l; [exact Hp|]. rewrite <- E2. exact Hx. }
    rewrite <- Qabs_div_pow2 in Hge.
    set (m := round_half_even (x / 2 ^ 971)).
    assert (Hm : inject_Z (2 ^ 53) <= Qabs (inject_Z m)).
    { revert Hge. apply Qabs_case; intros Hs Hge.
      - apply Qabs_ge. rewrite <- Zle_Qle.
        apply round_half_even_up; [reflexivity | exact Hge].
      - rewrite <- Qabs_opp. apply Qabs_ge.
        rewrite <- inject_Z_opp, <- Zle_Qle.
        assert (H : (m <= - 2 ^ 53)%Z); [|lia].
        apply round_half_even_down; [reflexivity|].
        rewrite inject_Z_opp. lra. }
    rewrite E1. apply Qmult_le_compat_r; [exact Hm | apply Qlt_le_weak, Hp].
  - (* beyond: the mantissa is at least 2^52 *)
    set (p := (binade x - 52)%Z).
    pose proof (pow2_pos p) as Hp.
    rewrite Qabs_Qmult, (Qabs_pos (2 ^ p)) by (apply Qlt_le_weak, Hp).
    assert (Hge : inject_Z (2 ^ 52) <= Qabs x / 2 ^ p).
    { apply Qle_shift_div_l; [exact Hp|].
      rewrite <- pow2_inject, <- pow2_add by lia.
      replace (52 + p)%Z with (binade x) by (unfold p; lia). exact Hlo. }
    rewrite <- Qabs_div_pow2 in Hge.
    set (m := round_half_even (x / 2 ^ p)).
    assert (Hm : inject_Z (2 ^ 52) <= Qabs (inject_Z m)).
    { revert Hge. apply Qabs_case; intros Hs Hge.
      - apply Qabs_ge. rewrite <- Zle_Qle.
        apply round_half_even_ge. exact Hge.
      - rewrite <- Qabs_opp. apply Qabs_ge.
        rewrite <- inject_Z_opp, <- Zle_Qle.
        assert (H : (m <= - 2 ^ 52)%Z); [|lia].
        apply round_half_even_le. rewrite inject_Z_opp. lra. }
    apply Qle_trans with (inject_Z (2 ^ 52) * 2 ^ p).
    + rewrite <- pow2_inject, <- pow2_add by lia. apply pow2_le. unfold p. lia.
    + apply Qmult_le_compat_r; [exact Hm | apply Qlt_le_weak, Hp].
Qed.

(** Rounding a number of magnitude at most [B], below the overflow
    threshold: the result is a finite double within
    [B * 2^-53 + 2^-100]. *)
Lemma round_within x B :
  Qabs x <= B -> Qabs x < 2 ^ 1024 - 2 ^ 970 ->
  exists y, round x = Fin y /\
    x - (B * (1 # 9007199254740992) + (1 # 1267650600228229401496703205376)) <= y /\
    y <= x + (B * (1 # 9007199254740992) + (1 # 1267650600228229401496703205376)).
Proof.
  intros HB Hx. destruct (round_finite x Hx) as (y & Hy & _).
  exists y. split; [exact Hy|].
  pose proof (round_value_within x B HB) as H. cbv zeta in H.
  unfold round in Hy. destruct (Qle_bool _ _); [discriminate|].
  injection Hy as <-. exact H.
Qed.

(** A double is below the overflow threshold. *)
Lemma round_below_threshold x y :
  round x = Fin y -> Qabs y < 2 ^ 1024 - 2 ^ 970.
Proof.
  intros Hy.
  destruct (Qlt_le_dec (Qabs x) (2 ^ 1024 - 2 ^ 970)) as [Hlt|Hge].
  - destruct (round_finite x Hlt) as (y' & Hy' & Hb). congruence.
  - rewrite (round_overflow x Hge) in Hy. discriminate.
Qed.

(** The two literals of the source. *)
Lemma lit_tenth :
  exists c, lit (1 # 10) = Fin c /\ c == 3602879701896397 # 36028797018963968.
Proof. eexists. split; vm_compute; reflexivity. Qed.

Lemma lit_eight_tenths :
  exists c, lit (8 # 10) = Fin c /\ c == 3602879701896397 # 4503599627370496.
Proof. eexists. split; vm_compute; reflexivity. Qed.

Lemma threshold_inject :
  inject_Z (2 ^ 1024 - 2 ^ 970) == 2 ^ 1024 - 2 ^ 970.
Proof.
  unfold Z.sub. rewrite inject_Z_plus, inject_Z_opp.
  rewrite <- !pow2_inject by lia. reflexivity.
Qed.

Lemma Qabs_inject_Z (n : Z) : Qabs (inject_Z n) == inject_Z (Z.abs n).
Proof. reflexivity. Qed.

(** An integer converts to a float exactly when its magnitude is below
    the threshold. *)
Lemma of_int_overflow (n : Z) :
  (2 ^ 1024 - 2 ^ 970 <= Z.abs n)%Z -> of_int n = Raise OverflowError.
Proof.
  intros Hn. unfold of_int. rewrite round_overflow; [reflexivity|].
  rewrite Qabs_inject_Z, <- threshold_inject, <- Zle_Qle. exact Hn.
Qed.

Lemma of_int_finite (n : Z) :
  (Z.abs n < 2 ^ 1024 - 2 ^ 970)%Z ->
  exists y, of_int n = Ok (Fin y) /\
    Qabs y < 2 ^ 1024 - 2 ^ 970 /\
    inject_Z n - (inject_Z (Z.abs n) * (1 # 9007199254740992)
                  + (1 # 1267650600228229401496703205376)) <= y /\
    y <= inject_Z n + (inject_Z (Z.abs n) * (1 # 9007199254740992)
                       + (1 # 1267650600228229401496703205376)) /\
    ((0 <= n)%Z -> 0 <= y) /\ ((n <= 0)%Z -> y <= 0).
Proof.
  intros Hn. unfold of_int.
  assert (Hlt : Qabs (inject_Z n) < 2 ^ 1024 - 2 ^ 970).
  { rewrite Qabs_inject_Z, <- threshold_inject, <- Zlt_Qlt. exact Hn. }
  destruct (round_within (inject_Z n) (inject_Z (Z.abs n))) as (y & Hy & Hb);
    [rewrite Qabs_inject_Z; apply Qle_refl | exact Hlt |].
  rewrite Hy. exists y. split; [reflexivity|].
  split; [eapply round_below_threshold, Hy|].
  destruct Hb as [Hb1 Hb2]. split; [exact Hb1|]. split; [exact Hb2|].
  destruct (round_sign _ _ Hy) as [Hp Hm].
  split; intros H; [apply Hp | apply Hm];
    change 0 with (inject_Z 0); rewrite <- Zle_Qle; exact H.
Qed.

(** Integers below [2^53] convert exactly. *)
Lemma of_int_exact (n : Z) :
  (Z.abs n < 2 ^ 53)%Z -> exists y, of_int n = Ok (Fin y) /\ y == inject_Z n.
Proof.
  intros Hn. unfold of_int.
  destruct (round_Z (inject_Z n) n (Qeq_refl _) Hn) as (y & Hy & Hyn).
  rewrite Hy. exists y. split; [reflexivity | exact Hyn].
Qed.

(** [int(math.ceil(x))] is the ceiling. *)
Lemma int_ceil (x : Q) : int (ceil (Fin x)) = Ok (Qceiling x).
Proof.
  unfold int, ceil. destruct (Qle_bool 0 (inject_Z (Qceiling x)));
    [rewrite Qfloor_Z | rewrite Qceiling_Z]; reflexivity.
Qed.

(** [int(x)] of a non-negative float is its floor. *)
Lemma int_floor (x : Q) : 0 <= x -> int (Fin x) = Ok (Qfloor x).
Proof.
  intros Hx. unfold int. apply Qle_bool_iff in Hx. rewrite Hx. reflexivity.
Qed.

End FloatFacts.

Import PyFacts.

Module Base64Facts.
Import base64.

Lemma sextet_alphabet n : sextet n ∈ alphabet.
Proof.
  unfold sextet. apply list_elem_of_In, nth_In.
  change (length alphabet) with 64%nat.
  pose proof (N.mod_lt n 64 ltac:(discriminate)). lia.
Qed.

Lemma alphabet_no_colon c : c ∈ alphabet -> c <> Py.colon.
Proof.
  unfold alphabet. simpl. intros H.
  repeat (apply elem_of_cons in H as [->|H]; [discriminate|]).
  apply elem_of_nil in H. contradiction.
Qed.

Lemma sextet_no_colon n : sextet n <> Py.colon.
Proof. apply alphabet_no_colon, sextet_alphabet. Qed.

Lemma b64encode_no_colon_len k s :
  (length s <= k)%nat -> Py.colon ∉ b64encode s.
Proof.
  revert s. induction k as [k IH] using lt_wf_ind. intros s Hlen.
  destruct s as [|a [|b [|c s]]]; simpl.
  - apply not_elem_of_nil.
  - repeat (apply not_elem_of_cons; split;
            [first [apply not_eq_sym, sextet_no_colon | discriminate]|]).
    apply not_elem_of_nil.
  - repeat (apply not_elem_of_cons; split;
            [first [apply not_eq_sym, sextet_no_colon | discriminate]|]).
    apply not_elem_of_nil.
  - repeat (apply not_elem_of_cons; split;
            [first [apply not_eq_sym, sextet_no_colon | discriminate]|]).
    simpl in Hlen. apply (IH (length s)); lia.
Qed.

(** The base64 alphabet has no colon. *)
Lemma b64encode_no_colon s : Py.colon ∉ b64encode s.
Proof. apply (b64encode_no_colon_len (length s)). lia. Qed.

End Base64Facts.

(** [strings_differ] decides inequality of byte strings. *)
Lemma strings_differ_count (a b : str) (acc : nat) :
  length a = length b ->
  fold_left (fun acc ab => (acc + if Ascii.eqb ab.1 ab.2 then 0 else 1)%nat)
    (combine a b) acc = 0%nat <-> acc = 0%nat /\ a = b.
Proof.
  revert b acc. induction a as [|x a IH]; intros [|y b] acc Hlen;
    simpl in Hlen; try discriminate; simpl.
  - tauto.
  - rewrite IH by lia. destruct (Ascii.eqb_spec x y) as [->|Hne].
    + split; intros [H1 H2]; (split; [lia | congruence]).
    + split; intros [H1 H2]; [lia | congruence].
Qed.

Lemma strings_differ_false (a b : str) :
  strings_differ a b = false <-> a = b.
Proof.
  unfold strings_differ.
  destruct (Nat.eqb_spec (length a) (length b)) as [Hlen|Hlen]; simpl.
  - rewrite negb_false_iff, Nat.eqb_eq, strings_differ_count by assumption.
    tauto.
  - split; [discriminate | intros ->; contradiction].
Qed.

Lemma hmac_updates (request : Request) (headers : list str) (h : hmac.HMAC) :
  fold_left
    (fun sig header =>
       let sig := hmac.update sig [zero] in
       hmac.update sig (dict_get (environ request) header []))
    headers h
  = {| hmac.digestmod := hmac.digestmod h;
       hmac.key_block := hmac.key_block h;
       hmac.message :=
         hmac.message h
         ++ flat_map (fun header => zero :: dict_get (environ request) header [])
              headers |}.
Proof.
  revert h. induction headers as [|hd headers IH]; intros h; simpl.
  - rewrite app_nil_r. destruct h; reflexivity.
  - rewrite IH. simpl. f_equal. rewrite <- !app_assoc. reflexivity.
Qed.

Lemma hmac_of_length H key msg : length (hmac_of H key msg) = digest_size H.
Proof. unfold hmac_of, hmac.hmac_digest. simpl. apply digest_length. Qed.

(** The heap holds what was pushed and not popped. *)

Module HeapFacts.
Section Heap.
Context {A : Type} (lt : A -> A -> bool).
Implicit Types (heap : list A) (x y item : A).

Lemma insert_head_perm heap i x y :
  heap !! i = Some y -> y :: <[i := x]> heap ≡ₚ x :: heap.
Proof.
  revert i. induction heap as [|b heap IH]; intros [|i] Hi; simpl in *;
    try discriminate.
  - injection Hi as ->. apply perm_swap.
  - rewrite perm_swap. rewrite (IH i Hi). apply perm_swap.
Qed.

(** Exchanging the contents of two positions permutes the list. *)
Lemma insert_swap_perm heap i j x y :
  i <> j -> heap !! i = Some x -> heap !! j = Some y ->
  <[j := x]> (<[i := y]> heap) ≡ₚ heap.
Proof.
  revert i j. induction heap as [|b heap IH]; intros [|i] [|j] Hne Hi Hj;
    simpl in *; try discriminate; try congruence.
  - injection Hi as ->. apply insert_head_perm. exact Hj.
  - injection Hj as ->. apply insert_head_perm. exact Hi.
  - f_equiv. apply IH; [congruence | exact Hi | exact Hj].
Qed.

(** Moving the hole from [pos] to [pos'], where [v] is stored. *)
Lemma move_hole_perm heap pos pos' newitem v :
  pos <> pos' -> pos < length heap -> heap !! pos' = Some v ->
  <[pos' := newitem]> (<[pos := v]> heap) ≡ₚ <[pos := newitem]> heap.
Proof.
  intros Hne Hpos Hv.
  rewrite <- (list_insert_insert_eq heap pos v newitem).
  apply insert_swap_perm; [exact Hne | |].
  - apply list_lookup_insert_eq. exact Hpos.
  - rewrite list_lookup_insert_ne by exact Hne. exact Hv.
Qed.

Lemma div2_pred_lt pos : 0 < pos -> Nat.div2 (pos - 1) < pos.
Proof.
  intros Hpos. pose proof (Nat.div2_decr (pos - 1) (pos - 1) ltac:(lia)). lia.
Qed.

Lemma siftdown_loop_perm fuel heap newitem startpos pos heap' pos' :
  pos < length heap ->
  heapq.siftdown_loop lt fuel heap newitem startpos pos = (heap', pos') ->
  <[pos' := newitem]> heap' ≡ₚ <[pos := newitem]> heap.
Proof.
  revert heap pos. induction fuel as [|fuel IH]; intros heap pos Hpos H;
    simpl in H.
  - injection H as <- <-. reflexivity.
  - destruct (Nat.ltb_spec startpos pos) as [Hlt|_];
      [|injection H as <- <-; reflexivity].
    destruct (heap !! Nat.div2 (pos - 1)) as [parent|] eqn:Hparent;
      [|injection H as <- <-; reflexivity].
    destruct (lt newitem parent); [|injection H as <- <-; reflexivity].
    pose proof (div2_pred_lt pos ltac:(lia)) as Hdiv.
    apply IH in H; [|rewrite length_insert; lia].
    rewrite H. apply move_hole_perm; [lia | exact Hpos | exact Hparent].
Qed.

Lemma siftdown_perm heap startpos pos :
  heapq.siftdown lt heap startpos pos ≡ₚ heap.
Proof.
  unfold heapq.siftdown.
  destruct (heap !! pos) as [newitem|] eqn:Hnew; [|reflexivity].
  destruct (heapq.siftdown_loop _ _ _ _ _ _) as [heap' pos'] eqn:Hloop.
  apply siftdown_loop_perm in Hloop; [|eapply lookup_lt_Some, Hnew].
  rewrite Hloop, list_insert_id by exact Hnew. reflexivity.
Qed.

Lemma siftup_loop_perm fuel heap newitem pos childpos heap' pos' :
  pos < length heap -> pos < childpos ->
  heapq.siftup_loop lt fuel heap pos childpos = (heap', pos') ->
  pos' < length heap' /\
  <[pos' := newitem]> heap' ≡ₚ <[pos := newitem]> heap.
Proof.
  revert heap pos childpos.
  induction fuel as [|fuel IH]; intros heap pos childpos Hpos Hchild H;
    simpl in H.
  - injection H as <- <-. split; [exact Hpos | reflexivity].
  - destruct (Nat.ltb_spec childpos (length heap)) as [Hlt|_];
      [|injection H as <- <-; split; [exact Hpos | reflexivity]].
    set (c := match heap !! childpos with
              | Some c0 =>
                  match heap !! (childpos + 1) with
                  | Some r => if negb (lt c0 r) then childpos + 1 else childpos
                  | None => childpos
                  end
              | None => childpos
              end) in H.
    assert (Hc : pos < c).
    { unfold c. destruct (heap !! childpos); [|lia].
      destruct (heap !! (childpos + 1)); [|lia].
      destruct (negb _); lia. }
    destruct (heap !! c) as [v|] eqn:Hv;
      [|injection H as <- <-; split; [exact Hpos | reflexivity]].
    apply IH in H; [| rewrite length_insert; eapply lookup_lt_Some, Hv | lia].
    destruct H as [Hlen Hperm]. split; [exact Hlen|].
    rewrite Hperm. apply move_hole_perm; [lia | exact Hpos | exact Hv].
Qed.

Lemma siftup_perm heap pos : heapq.siftup lt heap pos ≡ₚ heap.
Proof.
  unfold heapq.siftup.
  destruct (heap !! pos) as [newitem|] eqn:Hnew; [|reflexivity].
  destruct (heapq.siftup_loop _ _ _ _ _) as [heap' pos'] eqn:Hloop.
  apply (siftup_loop_perm _ _ newitem) in Hloop;
    [| eapply lookup_lt_Some, Hnew | lia].
  destruct Hloop as [_ Hperm].
  rewrite siftdown_perm, Hperm, list_insert_id by exact Hnew. reflexivity.
Qed.

(** The turns counted by the fuel are enough: the loops stop by their
    own tests before it runs out. *)
Lemma siftdown_loop_fuel fuel fuel' heap newitem startpos pos :
  pos <= fuel -> pos <= fuel' ->
  heapq.siftdown_loop lt fuel heap newitem startpos pos
  = heapq.siftdown_loop lt fuel' heap newitem startpos pos.
Proof.
  revert fuel' heap pos.
  induction fuel as [|fuel IH]; intros [|fuel'] heap pos H1 H2; simpl;
    try reflexivity.
  - assert (pos = 0) as -> by lia. reflexivity.
  - assert (pos = 0) as -> by lia. reflexivity.
  - destruct (Nat.ltb_spec startpos pos) as [Hlt|_]; [|reflexivity].
    destruct (heap !! Nat.div2 (pos - 1)); [|reflexivity].
    destruct (lt newitem a); [|reflexivity].
    pose proof (div2_pred_lt pos ltac:(lia)). apply IH; lia.
Qed.

Lemma siftup_loop_fuel fuel fuel' heap pos childpos :
  length heap - childpos <= fuel -> length heap - childpos <= fuel' ->
  heapq.siftup_loop lt fuel heap pos childpos
  = heapq.siftup_loop lt fuel' heap pos childpos.
Proof.
  revert fuel' heap pos childpos.
  induction fuel as [|fuel IH]; intros [|fuel'] heap pos childpos H1 H2;
    simpl; try reflexivity.
  - destruct (Nat.ltb_spec childpos (length heap)); [lia | reflexivity].
  - destruct (Nat.ltb_spec childpos (length heap)); [lia | reflexivity].
  - destruct (Nat.ltb_spec childpos (length heap)) as [Hlt|_]; [|reflexivity].
    set (c := match heap !! childpos with
              | Some c0 =>
                  match heap !! (childpos + 1) with
                  | Some r => if negb (lt c0 r) then childpos + 1 else childpos
                  | None => childpos
                  end
              | None => childpos
              end).
    assert (Hc : childpos <= c).
    { unfold c. destruct (heap !! childpos); [|lia].
      destruct (heap !! (childpos + 1)); [|lia].
      destruct (negb _); lia. }
    destruct (heap !! c); [|reflexivity].
    apply IH; rewrite length_insert; lia.
Qed.

(** [heappush] adds the item to the heap. *)
Lemma heappush_perm heap item : heapq.heappush lt heap item ≡ₚ item :: heap.
Proof.
  unfold heapq.heappush. rewrite siftdown_perm.
  symmetry. apply Permutation_cons_append.
Qed.

(** [heappop] takes the first item of the list away; it fails on the
    empty heap only. *)
Lemma heappop_cons x heap :
  exists heap', heapq.heappop lt (x :: heap) = Ok (x, heap') /\ heap' ≡ₚ heap.
Proof.
  unfold heapq.heappop.
  destruct (last (x :: heap)) as [lastelt|] eqn:Hlast.
  2:{ apply last_None in Hlast. discriminate. }
  apply last_Some in Hlast as [front Hfront].
  rewrite Hfront, removelast_last.
  destruct front as [|y front].
  - injection Hfront as -> ->. exists []. split; reflexivity.
  - injection Hfront as -> ->.
    exists (heapq.siftup lt (lastelt :: front) 0). split; [reflexivity|].
    rewrite siftup_perm. apply Permutation_cons_append.
Qed.

End Heap.
End HeapFacts.

Import HeapFacts.

Import FloatFacts.

(** * Facts about the manager *)

(** ** Signing *)

(** The signature is the base64 of one HMAC, keyed with [self.secret], over
    the value followed by the bound header fields. *)
Lemma _get_signature_eq (self : SignedNonceManager) (value : str)
    (request : Request) :
  _get_signature self value request
  = base64.b64encode
      (hmac_of (hashmod self) (secret self)
         (value ++ bound_headers self request)).
Proof.
  unfold _get_signature, hmac_of, bound_headers.
  rewrite hmac_updates. reflexivity.
Qed.

Lemma _get_signature_no_colon self value request :
  Py.colon ∉ _get_signature self value request.
Proof. unfold _get_signature. apply Base64Facts.b64encode_no_colon. Qed.

(** ** Numbers *)

Lemma time_range_bounds T :
  in_time_range T -> (- 1099511627776 <= T /\ T <= 1099511627776)%Q.
Proof. intros H. apply Qabs_Qle_condition in H. exact H. Qed.

Lemma tick_range_bounds ts :
  in_tick_range ts ->
  (- 17592186044416 <= inject_Z ts /\ inject_Z ts <= 17592186044416)%Q.
Proof.
  unfold in_tick_range. intros H.
  change (-17592186044416)%Q with (inject_Z (-17592186044416)).
  change 17592186044416%Q with (inject_Z 17592186044416).
  rewrite <- !Zle_Qle. lia.
Qed.

(** Rounding a number of magnitude at most [b], an integer below
    [2^1023]. *)
Lemma round_within_Z (x : Q) (b : Z) :
  (Qabs x <= inject_Z b)%Q -> (b <=? 2 ^ 1023)%Z = true ->
  exists y, Float.round x = Float.Fin y /\
    (x - (inject_Z b * (1 # 9007199254740992)
          + (1 # 1267650600228229401496703205376)) <= y)%Q /\
    (y <= x + (inject_Z b * (1 # 9007199254740992)
               + (1 # 1267650600228229401496703205376)))%Q.
Proof.
  intros Hx Hb. apply round_within; [exact Hx|].
  destruct threshold_facts as (_ & _ & E3).
  eapply Qle_lt_trans; [exact Hx|]. eapply Qle_lt_trans; [|exact E3].
  rewrite pow2_inject by lia. rewrite <- Zle_Qle. apply Z.leb_le, Hb.
Qed.

(** A finite number within the range converts to the float of its
    value. *)
Lemma to_float_seconds a T :
  seconds a = Some T -> in_time_range T ->
  exists y, to_float a = Ok (Float.Fin y) /\ (y == T)%Q.
Proof.
  intros Hs HT. destruct a as [n|[x| |]]; simpl in Hs; try discriminate.
  - injection Hs as <-.
    apply of_int_exact.
    apply time_range_bounds in HT.
    change (-1099511627776)%Q with (inject_Z (-1099511627776)) in HT.
    change 1099511627776%Q with (inject_Z 1099511627776) in HT.
    rewrite <- !Zle_Qle in HT. lia.
  - injection Hs as <-. exists x. split; [reflexivity | apply Qeq_refl].
Qed.

(** ** The age of a nonce *)

Lemma malformed_timestamp nonce : malformed nonce <-> timestamp_of nonce = None.
Proof.
  unfold malformed, timestamp_of.
  destruct (split1_shape Py.colon nonce) as [[Hn He]|(a & b & -> & Hn & He)];
    rewrite He.
  - tauto.
  - split.
    + intros [Hc|(ts & rest & Heq & Hts & Hraise)].
      * exfalso. apply Hc. apply elem_of_app. right. apply elem_of_cons. auto.
      * assert (Hsp := split1_cut Py.colon ts rest Hts).
        rewrite <- Heq, He in Hsp. injection Hsp as -> ->.
        rewrite Hraise. reflexivity.
    + destruct (Py.int16 a) as [z|e] eqn:Hi; [discriminate|]. intros _.
      right. exists a, b. pose proof (int16_raises _ _ Hi) as ->. done.
Qed.

(** The expiry time, in terms of the timestamp. *)
Lemma expiry_time_eq nonce t :
  expiry_time nonce t =
  match timestamp_of nonce with
  | Some ts =>
      ts ← Float.of_int ts;
      t ← to_float t;
      Ok (Float.add (Float.mul ts (Float.lit (1 # 10))) t)
  | None => Raise ValueError
  end.
Proof.
  unfold expiry_time, timestamp_of.
  destruct (split1_shape Py.colon nonce) as [[Hn He]|(a & b & -> & Hn & He)];
    rewrite He; simpl; [reflexivity|].
  destruct (Py.int16 a) as [z|e] eqn:Hi; simpl; [reflexivity|].
  apply int16_raises in Hi as ->. reflexivity.
Qed.

(** A malformed nonce counts as expired, whatever the timeout. *)
Lemma _nonce_has_expired_malformed self now nonce timeout_arg :
  timestamp_of nonce = None ->
  _nonce_has_expired self now nonce timeout_arg = Ok true.
Proof.
  intros H. unfold _nonce_has_expired. rewrite expiry_time_eq, H. reflexivity.
Qed.

Lemma of_int_raises n e : Float.of_int n = Raise e -> e = OverflowError.
Proof.
  unfold Float.of_int. destruct (Float.round (inject_Z n)); congruence.
Qed.

Lemma to_float_raises a e : to_float a = Raise e -> e = OverflowError.
Proof. destruct a; simpl; [apply of_int_raises | discriminate]. Qed.

(** The only exception of the expiry check is the [OverflowError] of a
    timestamp or a timeout that does not convert to a float. *)
Lemma expiry_time_raises nonce t e :
  expiry_time nonce t = Raise e ->
  e = ValueError /\ timestamp_of nonce = None \/
  e = OverflowError /\ exists ts, timestamp_of nonce = Some ts.
Proof.
  rewrite expiry_time_eq.
  destruct (timestamp_of nonce) as [ts|]; [|intros [= <-]; left; done].
  intros H. right. split; [|eauto].
  destruct (Float.of_int ts) as [y|e1] eqn:H1; simpl in H.
  - destruct (to_float t) as [t'|e2] eqn:H2; simpl in H; [discriminate|].
    injection H as <-. eapply to_float_raises, H2.
  - injection H as <-. eapply of_int_raises, H1.
Qed.

Lemma _nonce_has_expired_raises self now nonce timeout_arg e :
  _nonce_has_expired self now nonce timeout_arg = Raise e ->
  e = OverflowError /\ exists ts, timestamp_of nonce = Some ts.
Proof.
  unfold _nonce_has_expired.
  destruct (expiry_time _ _) as [x|e'] eqn:He; [discriminate|].
  apply expiry_time_raises in He as [[-> _]|[-> Hts]]; [discriminate|].
  intros [= <-]. split; [reflexivity | exact Hts].
Qed.

(** Within the ranges, the expiry time computed in double precision is
    the exact one, up to 0.7 ms. *)
Lemma expiry_time_near nonce timeout ts T :
  timestamp_of nonce = Some ts -> in_tick_range ts ->
  seconds timeout = Some T -> in_time_range T ->
  exists E, expiry_time nonce timeout = Ok (Float.Fin E) /\
    (inject_Z ts / 10 + T - (7 # 10000) <= E)%Q /\
    (E <= inject_Z ts / 10 + T + (7 # 10000))%Q.
Proof.
  intros Hts Hrange Hsec HT.
  rewrite expiry_time_eq, Hts.
  destruct (of_int_exact ts) as (y1 & -> & Hy1);
    [unfold in_tick_range in Hrange; lia|].
  destruct (to_float_seconds timeout T Hsec HT) as (t' & -> & Ht').
  destruct lit_tenth as (c & -> & Hc).
  apply tick_range_bounds in Hrange as [Hts1 Hts2].
  apply time_range_bounds in HT as [HT1 HT2].
  cbn [mbind result_bind Float.mul Float.add].
  destruct (round_within_Z (y1 * c) 1759218604442) as (y2 & -> & Hlo2 & Hhi2).
  { rewrite Hy1, Hc. apply Qabs_Qle_condition.
    change (inject_Z 1759218604442) with 1759218604442%Q. split; lra. }
  { reflexivity. }
  rewrite Hy1, Hc in Hlo2, Hhi2.
  change (inject_Z 1759218604442) with 1759218604442%Q in Hlo2, Hhi2.
  cbn [Float.add].
  destruct (round_within_Z (y2 + t') 2858730232220) as (E & -> & Hlo3 & Hhi3).
  { rewrite Ht'. apply Qabs_Qle_condition.
    change (inject_Z 2858730232220) with 2858730232220%Q. split; lra. }
  { reflexivity. }
  rewrite Ht' in Hlo3, Hhi3.
  change (inject_Z 2858730232220) with 2858730232220%Q in Hlo3, Hhi3.
  exists E. split; [reflexivity|].
  assert (E10 : (inject_Z ts / 10 == inject_Z ts * (1 # 10))%Q) by reflexivity.
  rewrite E10. split; lra.
Qed.

(** Within the ranges the expiry check returns, and compares the current
    time with an expiry time that is the exact one up to 0.7 ms. *)
Lemma _nonce_has_expired_near self nonce timeout_arg ts T :
  timestamp_of nonce = Some ts -> in_tick_range ts ->
  seconds (default (timeout self) timeout_arg) = Some T -> in_time_range T ->
  exists E,
    (inject_Z ts / 10 + T - (7 # 10000) <= E)%Q /\
    (E <= inject_Z ts / 10 + T + (7 # 10000))%Q /\
    forall now,
      _nonce_has_expired self now nonce timeout_arg
      = Ok (Float.le (Float.Fin E) now).
Proof.
  intros Hts Hrange Hsec HT.
  destruct (expiry_time_near nonce _ ts T Hts Hrange Hsec HT)
    as (E & HE & Hlo & Hhi).
  exists E. split; [exact Hlo|]. split; [exact Hhi|].
  intros now. unfold _nonce_has_expired.
  destruct timeout_arg; simpl in HE; rewrite HE; reflexivity.
Qed.

(** The expiry check, in terms of the exact age: a nonce whose age
    exceeds the timeout in force by a millisecond has expired, and one
    that is a millisecond younger has not. *)
Lemma _nonce_has_expired_age self t nonce timeout_arg ts T a :
  timestamp_of nonce = Some ts -> in_tick_range ts ->
  seconds (default (timeout self) timeout_arg) = Some T -> in_time_range T ->
  age t nonce = Some a ->
  ((T + slack <= a)%Q ->
   _nonce_has_expired self (Float.Fin t) nonce timeout_arg = Ok true) /\
  ((a <= T - slack)%Q ->
   _nonce_has_expired self (Float.Fin t) nonce timeout_arg = Ok false).
Proof.
  intros Hts Hrange Hsec HT Hage.
  destruct (_nonce_has_expired_near self nonce timeout_arg ts T Hts Hrange
              Hsec HT) as (E & Hlo & Hhi & Hexp).
  unfold age in Hage. rewrite Hts in Hage. injection Hage as <-.
  assert (E10 : (inject_Z ts / 10 == inject_Z ts * (1 # 10))%Q) by reflexivity.
  rewrite E10 in *. unfold slack.
  rewrite Hexp. cbn [Float.le]. split; intros Ha; f_equal.
  - apply Qle_bool_iff. lra.
  - destruct (Qle_bool E t) eqn:Hle; [|reflexivity].
    apply Qle_bool_iff in Hle. lra.
Qed.

(** ** Issued nonces *)

(** The nonce issued at a time with a non-negative timestamp: the digits
    of the timestamp, the random bytes in hexadecimal and the signature
    of both. *)
Lemma generate_nonce_eq maxint self now rnd request n :
  ticks now = Ok n -> (0 <= n)%Z ->
  let data := hex_digits n ++ Py.colon :: hex_encode rnd in
  generate_nonce maxint self now rnd request
  = Ok (data ++ Py.colon :: _get_signature self data request).
Proof.
  intros Hticks Hn. unfold generate_nonce. unfold ticks in Hticks.
  rewrite Hticks. cbn [mbind result_bind].
  rewrite (hex_stripped maxint _ Hn). reflexivity.
Qed.

Lemma timestamp_of_data n rest :
  (0 <= n)%Z -> timestamp_of (hex_digits n ++ Py.colon :: rest) = Some n.
Proof.
  intros Hn. unfold timestamp_of. rewrite split1_cut.
  - rewrite int16_hex_digits by assumption. reflexivity.
  - intros Hin.
    pose proof (hex_digits_lower _ Hn) as Hall.
    rewrite Forall_forall in Hall. apply Hall in Hin.
    apply lower_hex_facts in Hin. tauto.
Qed.

Lemma timestamp_of_generated maxint self now rnd request n nonce :
  ticks now = Ok n -> (0 <= n)%Z ->
  generate_nonce maxint self now rnd request = Ok nonce ->
  timestamp_of nonce = Some n.
Proof.
  intros Hticks Hn. rewrite (generate_nonce_eq _ _ _ _ _ n Hticks Hn).
  intros [= <-]. rewrite <- app_assoc. apply timestamp_of_data, Hn.
Qed.

(** The timestamp of a non-negative time below the overflow of
    [time * 10]. *)
Lemma ticks_nonneg (t : Q) :
  (0 <= t)%Q -> (t <= 2 ^ 1019)%Q ->
  exists n, ticks (Float.Fin t) = Ok n /\ (0 <= n)%Z.
Proof.
  intros Ht Hbig. unfold ticks. cbn [Float.mul].
  destruct (round_small (t * 10)) as (y & Hy & _).
  { rewrite Qabs_pos by lra.
    assert (E : (2 ^ 1023 == 16 * 2 ^ 1019)%Q).
    { change 16%Q with (2 ^ 4)%Q. rewrite <- pow2_add. reflexivity. }
    rewrite E. lra. }
  rewrite Hy.
  destruct (round_sign _ _ Hy) as [Hpos _].
  assert (H0 : (0 <= y)%Q) by (apply Hpos; lra).
  rewrite int_floor by exact H0. eexists. split; [reflexivity|].
  change 0%Z with (Qfloor 0). apply Qfloor_resp_le, H0.
Qed.

(** Within the range, the timestamp is the time in tenths of a second,
    rounded down, up to the rounding of the product. *)
Lemma ticks_near (t : Q) :
  (0 <= t)%Q -> in_time_range t ->
  exists n, ticks (Float.Fin t) = Ok n /\ (0 <= n)%Z /\ in_tick_range n /\
    (t - (1 # 10) - (2 # 10000) <= inject_Z n / 10)%Q /\
    (inject_Z n / 10 <= t + (2 # 10000))%Q.
Proof.
  intros Ht Hrange. apply time_range_bounds in Hrange as [_ Hmax].
  unfold ticks. cbn [Float.mul].
  destruct (round_within_Z (t * 10) 10995116277760) as (y & Hy & Hlo & Hhi).
  { apply Qabs_Qle_condition.
    change (inject_Z 10995116277760) with 10995116277760%Q. split; lra. }
  { reflexivity. }
  change (inject_Z 10995116277760) with 10995116277760%Q in Hlo, Hhi.
  rewrite Hy.
  destruct (round_sign _ _ Hy) as [Hpos _].
  assert (H0 : (0 <= y)%Q) by (apply Hpos; lra).
  rewrite int_floor by exact H0. exists (Qfloor y).
  pose proof (Qfloor_le y) as Hf1. pose proof (Qlt_floor y) as Hf2.
  rewrite inject_Z_plus in Hf2. change (inject_Z 1) with 1%Q in Hf2.
  assert (Hn0 : (0 <= Qfloor y)%Z).
  { change 0%Z with (Qfloor 0). apply Qfloor_resp_le, H0. }
  split; [reflexivity|]. split; [exact Hn0|]. split.
  - unfold in_tick_range. rewrite Z.abs_eq by exact Hn0.
    rewrite Zle_Qle. change (inject_Z (2 ^ 44)) with 17592186044416%Q. lra.
  - assert (E10 : (inject_Z (Qfloor y) / 10 == inject_Z (Qfloor y) * (1 # 10))%Q)
      by reflexivity.
    rewrite E10. split; lra.
Qed.

(** ** Validation *)

(** A well-formed, unexpired nonce is valid exactly when its last field is
    the signature of the rest. *)
Lemma is_valid_nonce_signed self now data sig request :
  (Py.colon ∉ sig) ->
  is_valid_nonce self now (data ++ Py.colon :: sig) request =
  (expired ← _nonce_has_expired self now (data ++ Py.colon :: sig) None;
   if expired : bool then Ok false
   else Ok (negb (strings_differ sig (_get_signature self data request)))).
Proof.
  intros Hsig. unfold is_valid_nonce.
  rewrite rsplit1_cut by assumption. reflexivity.
Qed.

(** An issued nonce is valid for the issuing request as long as it has
    not expired. *)
Lemma is_valid_nonce_generated maxint self t0 now rnd request n nonce :
  ticks t0 = Ok n -> (0 <= n)%Z ->
  generate_nonce maxint self t0 rnd request = Ok nonce ->
  is_valid_nonce self now nonce request =
  (expired ← _nonce_has_expired self now nonce None; Ok (negb expired)).
Proof.
  intros Hticks Hn. rewrite (generate_nonce_eq _ _ _ _ _ n Hticks Hn).
  intros [= <-].
  rewrite is_valid_nonce_signed by apply _get_signature_no_colon.
  destruct (_nonce_has_expired _ _ _ _) as [[]|]; simpl; try reflexivity.
  f_equal. apply negb_true_iff, strings_differ_false. reflexivity.
Qed.

(** [is_valid_nonce] raises only when the expiry check does: the nonces
    that [rsplit] cannot cut in two have no colon, and count as expired
    before that. *)
Lemma is_valid_nonce_raises self now nonce request e :
  is_valid_nonce self now nonce request = Raise e ->
  _nonce_has_expired self now nonce None = Raise e.
Proof.
  unfold is_valid_nonce.
  destruct (_nonce_has_expired self now nonce None) as [[]|e'] eqn:Hexp;
    simpl; [discriminate| |congruence].
  assert (Hin : Py.colon ∈ nonce).
  { destruct (timestamp_of nonce) as [ts|] eqn:Hts.
    - unfold timestamp_of in Hts.
      destruct (split1_shape Py.colon nonce) as [[_ He]|(x & y & -> & _ & _)].
      + rewrite He in Hts. discriminate.
      + apply elem_of_app. right. apply list_elem_of_here.
    - rewrite _nonce_has_expired_malformed in Hexp by exact Hts. discriminate. }
  destruct (unpack2_rsplit1 _ _ Hin) as (data & sig & ->). discriminate.
Qed.

(** ** Renewal *)

(** [get_next_nonce] renews at the timeout in force: the soft timeout,
    or the hard one when there is none. *)
Lemma get_next_nonce_renews maxint self t now' rnd nonce request T :
  seconds (default (timeout self) (soft_timeout self)) = Some T ->
  in_time_range T ->
  renews_at T t nonce
    (get_next_nonce maxint self (Float.Fin t) now' rnd nonce request)
    (generate_nonce maxint self now' rnd request).
Proof.
  intros Hsec HT. unfold renews_at, get_next_nonce. split.
  - intros ts a Hts Hrange Hage.
    destruct (_nonce_has_expired_age self t nonce (soft_timeout self) ts T a
                Hts Hrange Hsec HT Hage) as [Hold Hyoung].
    split; intros Ha.
    + rewrite (Hyoung Ha). reflexivity.
    + rewrite (Hold Ha). reflexivity.
  - intros Hbad. apply malformed_timestamp in Hbad.
    rewrite _nonce_has_expired_malformed by exact Hbad. reflexivity.
Qed.

(** ** The constructor *)

(** What the constructor stores. *)
Lemma __init___fields hashlib urandom16 secret_arg timeout_arg soft_arg
    headers_arg hashmod_arg self :
  __init__ hashlib urandom16 secret_arg timeout_arg soft_arg headers_arg
    hashmod_arg = Ok self ->
  secret self = default urandom16 secret_arg /\
  timeout self = default (PyInt 300) timeout_arg /\
  match soft_arg with
  | Some s => soft_timeout self = Some s
  | None =>
      exists s,
        eighty_percent (timeout self) = Ok s /\
        soft_timeout self = if (s =? 0)%Z then None else Some (PyInt s)
  end /\
  sign_headers self = default [b{"HTTP_USER_AGENT"}] headers_arg /\
  hashmod_digest_size self = digest_size (hashmod self) /\
  _signing_key self = hmac_of (hashmod self) b{"SIGN"} (secret self) /\
  _generation_key self = hmac_of (hashmod self) b{"GENERATE"} (secret self) /\
  _nonce_counts self = ∅ /\
  _nonce_purge_queue self = [].
Proof.
  unfold __init__. intros H.
  set (tm := match timeout_arg with Some t => t | None => PyInt (5 * 60) end) in *.
  assert (Etm : tm = default (PyInt 300) timeout_arg)
    by (destruct timeout_arg; reflexivity).
  destruct (match soft_arg with Some s => _ | None => _ end)
    as [soft|e] eqn:Hsoft; [|discriminate].
  cbn [mbind result_bind] in H.
  destruct (match hashmod_arg with Some _ => _ | None => _ end)
    as [h|e] eqn:Hh; [|discriminate].
  cbn [mbind result_bind mret result_ret] in H. injection H as <-.
  cbn [secret timeout soft_timeout sign_headers hashmod hashmod_digest_size
       _signing_key _generation_key _nonce_counts _nonce_purge_queue].
  split; [destruct secret_arg; reflexivity|].
  split; [exact Etm|].
  split.
  { destruct soft_arg as [s|].
    - injection Hsoft as <-. reflexivity.
    - unfold eighty_percent.
      destruct (to_float tm) as [t|] eqn:Ht; [|discriminate].
      cbn [mbind result_bind] in Hsoft |- *.
      destruct (Float.int _) as [s|] eqn:Hs; [|discriminate].
      cbn [mbind result_bind mret result_ret] in Hsoft. injection Hsoft as <-.
      exists s. done. }
  split; [destruct headers_arg; reflexivity|].
  repeat split; destruct secret_arg; reflexivity.
Qed.

(** ** The states of a manager *)

Lemma same_config_refl self : same_config self self.
Proof. repeat split. Qed.

Lemma same_config_trans s1 s2 s3 :
  same_config s1 s2 -> same_config s2 s3 -> same_config s1 s3.
Proof. unfold same_config. intuition congruence. Qed.

(** The expiry check reads the configuration only. *)
Lemma _nonce_has_expired_config self self' now nonce timeout_arg :
  same_config self self' ->
  _nonce_has_expired self' now nonce timeout_arg
  = _nonce_has_expired self now nonce timeout_arg.
Proof.
  intros (_ & Ht & _). unfold _nonce_has_expired. rewrite Ht. reflexivity.
Qed.

Lemma purge_loop_config self clock i n :
  same_config self (purge_loop self clock i n).2.
Proof.
  revert self i. induction n as [|n IH]; intros self i; simpl.
  - apply same_config_refl.
  - destruct (getitem0 _) as [nonce|]; [|apply same_config_refl].
    destruct (_nonce_has_expired _ _ _ _) as [[]|];
      try apply same_config_refl.
    destruct (heapq.heappop _ _) as [[x queue]|]; [|repeat split].
    eapply same_config_trans; [|apply IH]. repeat split.
Qed.

Lemma _purge_expired_nonces_config self clock limit :
  same_config self (_purge_expired_nonces self clock limit).2.
Proof. apply purge_loop_config. Qed.

Lemma set_nonce_count_config self clock nonce nc :
  same_config self (set_nonce_count self clock nonce nc).2.
Proof.
  unfold set_nonce_count.
  destruct (_nonce_counts self !! nonce); [repeat split|].
  pose proof (_purge_expired_nonces_config self clock (Some 10%Z)) as Hp.
  destruct (_purge_expired_nonces _ _ _) as [[[]|e] s1]; simpl in *.
  - eapply same_config_trans; [exact Hp|]. repeat split.
  - exact Hp.
Qed.

Lemma step_config self self' : step self self' -> same_config self self'.
Proof.
  intros [clock nonce nc r H|clock limit r H].
  - pose proof (set_nonce_count_config self clock nonce nc) as Hc.
    rewrite H in Hc. exact Hc.
  - pose proof (_purge_expired_nonces_config self clock limit) as Hc.
    rewrite H in Hc. exact Hc.
Qed.

Lemma rtc_step_config self self' : rtc step self self' -> same_config self self'.
Proof.
  induction 1 as [|s1 s2 s3 H12 _ IH]; [apply same_config_refl|].
  eapply same_config_trans; [apply step_config, H12 | exact IH].
Qed.

(** In every state the recorded digest size is that of the hash. *)
Lemma reachable_digest_size self :
  reachable self -> hashmod_digest_size self = digest_size (hashmod self).
Proof.
  intros (hashlib & u & a & b & c & d & e & self0 & Hinit & Hsteps).
  apply __init___fields in Hinit as (_ & _ & _ & _ & Hinit & _).
  apply rtc_step_config in Hsteps.
  destruct Hsteps as (_ & _ & _ & _ & Hh & Hd & _). congruence.
Qed.

Lemma reachable_step self self' : reachable self -> step self self' -> reachable self'.
Proof.
  intros (hashlib & u & a & b & c & d & e & self0 & Hinit & Hsteps) Hstep.
  exists hashlib, u, a, b, c, d, e, self0. split; [exact Hinit|].
  eapply rtc_r; eassumption.
Qed.

(** ** Pseudo-random bytes *)

Lemma ceil_div_bounds (a b : Z) :
  (0 < b)%Z -> ((ceil_div a b - 1) * b < a <= ceil_div a b * b)%Z.
Proof.
  intros Hb. unfold ceil_div.
  pose proof (Z.div_mod (a + b - 1) b ltac:(lia)).
  pose proof (Z.mod_pos_bound (a + b - 1) b Hb). nia.
Qed.

(** More rounds than 255 are needed exactly when more bytes than 255
    digests are asked for. *)
Lemma ceil_div_limit (size b : Z) :
  (0 < b)%Z -> (255 < ceil_div size b <-> 255 * b < size)%Z.
Proof. intros Hb. pose proof (ceil_div_bounds size b Hb). nia. Qed.

Lemma Qceiling_unique (q : Q) (k : Z) :
  (inject_Z k - 1 < q)%Q -> (q <= inject_Z k)%Q -> Qceiling q = k.
Proof.
  intros Hlo Hhi.
  pose proof (Qle_ceiling q) as H1. pose proof (Qceiling_lt q) as H2.
  unfold Z.sub in H2. rewrite inject_Z_plus, inject_Z_opp in H2.
  change (inject_Z 1) with 1%Q in H2.
  assert (Ha : (inject_Z (Qceiling q) < inject_Z (k + 1))%Q).
  { rewrite inject_Z_plus. change (inject_Z 1) with 1%Q. lra. }
  assert (Hb : (inject_Z (k - 1) < inject_Z (Qceiling q))%Q).
  { unfold Z.sub. rewrite inject_Z_plus, inject_Z_opp.
    change (inject_Z 1) with 1%Q. lra. }
  rewrite <- Zlt_Qlt in Ha, Hb. lia.
Qed.

Lemma Qabs_div_ge1 (y d : Q) : (1 <= d)%Q -> (Qabs (y / d) <= Qabs y)%Q.
Proof.
  intros Hd. unfold Qdiv. rewrite Qabs_Qmult, Qabs_Qinv.
  rewrite (Qabs_pos d) by lra.
  rewrite <- (Qmult_1_r (Qabs y)) at 2.
  apply Qmult_le_compat_nonneg.
  - split; [apply Qabs_nonneg | apply Qle_refl].
  - split; [apply Qlt_le_weak, Qinv_lt_0_compat; lra|].
    apply Qle_shift_inv_r; lra.
Qed.

Lemma Qdiv_mult_cancel (y d : Q) : (0 < d)%Q -> (y / d * d == y)%Q.
Proof. intros Hd. field. lra. Qed.

(** A divisor that is a digest size converts exactly, and is not
    zero. *)
Lemma of_int_divisor (ds : Z) :
  (0 < ds <= 2 ^ 43)%Z ->
  exists d, Float.of_int ds = Ok (Float.Fin d) /\ (d == inject_Z ds)%Q /\
            (1 <= d)%Q /\ (d <= 8796093022208)%Q /\ Qeq_bool d 0 = false.
Proof.
  intros Hds. destruct (of_int_exact ds) as (d & Hd & Hdq); [lia|].
  exists d. split; [exact Hd|]. split; [exact Hdq|].
  assert (H1 : (1 <= d)%Q).
  { rewrite Hdq. change 1%Q with (inject_Z 1). rewrite <- Zle_Qle. lia. }
  split; [exact H1|]. split.
  - rewrite Hdq. change 8796093022208%Q with (inject_Z (2 ^ 43)).
    rewrite <- Zle_Qle. lia.
  - destruct (Qeq_bool d 0) eqn:E; [|reflexivity].
    apply Qeq_bool_iff in E. lra.
Qed.

(** Within the limit the number of rounds computed in double precision is
    the exact ceiling. *)
Lemma ceil_quotient_div (size ds : Z) :
  (0 < ds <= 2 ^ 43)%Z -> (0 <= size <= 255 * ds)%Z ->
  ceil_quotient size ds = Ok (ceil_div size ds).
Proof.
  intros Hds Hsize. unfold ceil_quotient.
  destruct (of_int_exact size) as (y1 & -> & Hy1); [lia|].
  cbn [mbind result_bind Float.mul].
  destruct (round_Z (y1 * 1) size) as (y2 & -> & Hy2); [rewrite Hy1; ring | lia |].
  destruct (of_int_divisor ds Hds) as (d & -> & Hd & Hd1 & Hdmax & Hd0).
  cbn [mbind result_bind Float.div]. rewrite Hd0.
  cbn [mbind result_bind].
  assert (Hy2' : (y2 == inject_Z size)%Q) by (rewrite Hy2, Hy1; ring).
  pose proof (ceil_div_bounds size ds ltac:(lia)) as Hk.
  set (k := ceil_div size ds) in *.
  assert (Hk255 : (0 <= k <= 255)%Z) by nia.
  assert (Hx : (y2 / d * d == inject_Z size)%Q).
  { rewrite Qdiv_mult_cancel by lra. exact Hy2'. }
  assert (HkD : (inject_Z (k * ds) == inject_Z k * d)%Q)
    by (rewrite inject_Z_mult, Hd; reflexivity).
  assert (HkD' : (inject_Z ((k - 1) * ds) == (inject_Z k - 1) * d)%Q).
  { rewrite inject_Z_mult, Hd. unfold Z.sub.
    rewrite inject_Z_plus, inject_Z_opp. reflexivity. }
  destruct (Z.eq_dec size (k * ds)%Z) as [Heq|Hne].
  - (* a whole number of digests *)
    destruct (round_Z (y2 / d) k) as (q & -> & Hq); [|lia|].
    + apply (Qmult_inj_r _ _ d); [lra|]. rewrite Hx, Heq. exact HkD.
    + rewrite int_ceil. f_equal. rewrite Hq.
      assert (E : (y2 / d == inject_Z k)%Q).
      { apply (Qmult_inj_r _ _ d); [lra|]. rewrite Hx, Heq. exact HkD. }
      rewrite E. apply Qceiling_Z.
  - (* the quotient is at least [1 / ds] away from the integers *)
    assert (Hlo : (inject_Z ((k - 1) * ds) + 1 <= inject_Z size)%Q).
    { change 1%Q with (inject_Z 1). rewrite <- inject_Z_plus, <- Zle_Qle. lia. }
    assert (Hhi : (inject_Z size + 1 <= inject_Z (k * ds))%Q).
    { change 1%Q with (inject_Z 1). rewrite <- inject_Z_plus, <- Zle_Qle. lia. }
    assert (Hk' : (0 <= inject_Z k <= 255)%Q).
    { change 0%Q with (inject_Z 0). change 255%Q with (inject_Z 255).
      rewrite <- !Zle_Qle. exact Hk255. }
    set (x := (y2 / d)%Q) in *.
    assert (Hxlo : (inject_Z k - 1 + (1 # 8796093022208) <= x)%Q).
    { apply (Qmult_le_r _ _ d); [lra|]. rewrite Hx.
      lra. }
    assert (Hxhi : (x <= inject_Z k - (1 # 8796093022208))%Q).
    { apply (Qmult_le_r _ _ d); [lra|]. rewrite Hx.
      lra. }
    destruct (round_within_Z x 255) as (q & -> & Hq1 & Hq2).
    { apply Qabs_Qle_condition. change (inject_Z 255) with 255%Q. split; lra. }
    { reflexivity. }
    change (inject_Z 255) with 255%Q in Hq1, Hq2.
    rewrite int_ceil. f_equal. apply Qceiling_unique; lra.
Qed.

(** Beyond the limit, and below the overflow threshold, it is more than
    255. *)
Lemma ceil_quotient_big (size ds : Z) :
  (0 < ds <= 2 ^ 43)%Z -> (255 * ds < size)%Z -> (size < overflow_threshold)%Z ->
  exists N, ceil_quotient size ds = Ok N /\ (255 < N)%Z.
Proof.
  intros Hds Hsize Hthr. unfold ceil_quotient.
  destruct (of_int_finite size) as (y1 & -> & Hy1thr & Hy1lo & _ & Hy1pos & _);
    [unfold overflow_threshold in Hthr; lia|].
  specialize (Hy1pos ltac:(lia)).
  rewrite Z.abs_eq in Hy1lo by lia.
  cbn [mbind result_bind Float.mul].
  destruct (round_within (y1 * 1) y1) as (y2 & Hy2 & Hy2lo & _).
  { rewrite Qabs_pos by lra. lra. }
  { setoid_replace (y1 * 1)%Q with y1 using relation Qeq by ring. exact Hy1thr. }
  rewrite Hy2.
  pose proof (round_below_threshold _ _ Hy2) as Hy2thr.
  destruct (round_sign _ _ Hy2) as [Hy2pos _].
  specialize (Hy2pos ltac:(lra)).
  destruct (of_int_divisor ds Hds) as (d & -> & Hd & Hd1 & Hdmax & Hd0).
  cbn [mbind result_bind Float.div]. rewrite Hd0.
  cbn [mbind result_bind].
  set (x := (y2 / d)%Q).
  assert (Hx : (x * d == y2)%Q) by (apply Qdiv_mult_cancel; lra).
  assert (Hx0 : (0 <= x)%Q).
  { unfold x, Qdiv. apply Qmult_le_0_compat; [exact Hy2pos|].
    apply Qlt_le_weak, Qinv_lt_0_compat. lra. }
  assert (Hs : (255 * d + 1 <= inject_Z size)%Q).
  { rewrite Hd. change 255%Q with (inject_Z 255). change 1%Q with (inject_Z 1).
    rewrite <- inject_Z_mult, <- inject_Z_plus, <- Zle_Qle. lia. }
  assert (Hxlo : (255 + (1 # 17592186044416) <= x)%Q).
  { apply (Qmult_le_r _ _ d); [lra|]. rewrite Hx. lra. }
  destruct (round_within x x) as (q & -> & Hq & _).
  { rewrite Qabs_pos by exact Hx0. apply Qle_refl. }
  { eapply Qle_lt_trans; [apply Qabs_div_ge1, Hd1 | exact Hy2thr]. }
  rewrite int_ceil. eexists. split; [reflexivity|].
  pose proof (Qle_ceiling q) as Hc.
  assert (H : (inject_Z 255 < inject_Z (Qceiling q))%Q).
  { change (inject_Z 255) with 255%Q. lra. }
  rewrite <- Zlt_Qlt in H. exact H.
Qed.

(** From the overflow threshold on, the size does not convert. *)
Lemma ceil_quotient_overflow (size ds : Z) :
  (overflow_threshold <= Z.abs size)%Z ->
  ceil_quotient size ds = Raise OverflowError.
Proof.
  intros H. unfold ceil_quotient. rewrite (of_int_overflow size) by exact H.
  reflexivity.
Qed.


Lemma xrange_S a n : xrange a (S n) = a :: xrange (a + 1) n.
Proof.
  unfold xrange. simpl. f_equal; [f_equal; lia|].
  rewrite <- seq_shift, map_map. apply map_ext. intros k. lia.
Qed.

Lemma chr_succ k :
  (k < 255)%nat -> Py.chr (1 + Z.of_nat k) = Ok (ascii_of_nat (S k)).
Proof.
  intros Hk. unfold Py.chr.
  replace ((0 <=? 1 + Z.of_nat k)%Z && (1 + Z.of_nat k <? 256)%Z) with true
    by (symmetry; apply andb_true_iff; split; lia).
  f_equal. unfold ascii_of_nat. f_equal. lia.
Qed.

(** The loop computes [T(k+1) .. T(k+n)] from [T(k)], as long as the
    counter fits in a byte. *)
Lemma prandom_loop_hkdf self nonce n k output :
  (k + n <= 255)%nat ->
  prandom_loop self nonce (xrange (1 + Z.of_nat k) n) (hkdf_T self nonce k)
    output
  = Ok (output ++ map (hkdf_T self nonce) (seq (S k) n)).
Proof.
  revert k output. induction n as [|n IH]; intros k output Hk.
  - simpl. rewrite app_nil_r. reflexivity.
  - rewrite xrange_S. cbn [prandom_loop]. rewrite chr_succ by lia. simpl.
    replace (1 + Z.of_nat k + 1)%Z with (1 + Z.of_nat (S k))%Z by lia.
    change (hmac.hmac_digest
              (hmac.new (_generation_key self)
                 (hkdf_T self nonce k ++ nonce ++ [ascii_of_nat (S k)])
                 (hashmod self)))
      with (hkdf_T self nonce (S k)).
    rewrite IH by lia. rewrite <- app_assoc. reflexivity.
Qed.

Lemma hkdf_T_length self token i :
  length (hkdf_T self token (S i)) = digest_size (hashmod self).
Proof. simpl. apply hmac_of_length. Qed.

Lemma hkdf_blocks_length self token k n :
  length (concat (map (hkdf_T self token) (seq (S k) n)))
  = (n * digest_size (hashmod self))%nat.
Proof.
  revert k. induction n as [|n IH]; intros k; [reflexivity|].
  cbn [seq map concat]. rewrite length_app, hkdf_T_length, IH. simpl. lia.
Qed.

Lemma digest_size_range self :
  (0 < Z.of_nat (digest_size (hashmod self)) <= 2 ^ 43)%Z.
Proof.
  pose proof (digest_size_pos (hashmod self)).
  pose proof (digest_size_bound (hashmod self)). lia.
Qed.

(** What [get_prandom_bytes] returns within the limit. *)
Lemma get_prandom_bytes_hkdf self nonce size :
  hashmod_digest_size self = digest_size (hashmod self) ->
  (0 <= size <= 255 * Z.of_nat (digest_size (hashmod self)))%Z ->
  get_prandom_bytes self nonce size = Ok (hkdf_expand self nonce size).
Proof.
  intros Hds Hsize. unfold get_prandom_bytes, hkdf_expand.
  pose proof (digest_size_range self) as Husual.
  rewrite Hds, ceil_quotient_div by assumption.
  cbn [mbind result_bind].
  set (d := Z.of_nat (digest_size (hashmod self))) in *.
  pose proof (ceil_div_bounds size d ltac:(lia)) as Hb.
  set (N := ceil_div size d) in *.
  assert (HN : (0 <= N <= 255)%Z) by nia.
  replace (N <=? 255)%Z with true by (symmetry; apply Z.leb_le; lia).
  simpl negb. cbv iota.
  pose proof (prandom_loop_hkdf self nonce (Z.to_nat N) 0 [] ltac:(lia)) as Hl.
  change (prandom_loop self nonce (xrange 1 (Z.to_nat N)) [] []
          = Ok (map (hkdf_T self nonce) (seq 1 (Z.to_nat N)))) in Hl.
  rewrite Hl. simpl.
  unfold Py.slice_to.
  replace (0 <=? size)%Z with true by (symmetry; apply Z.leb_le; lia).
  reflexivity.
Qed.

Lemma hkdf_expand_length self token size :
  (0 <= size)%Z -> length (hkdf_expand self token size) = Z.to_nat size.
Proof.
  intros Hsize. unfold hkdf_expand.
  pose proof (digest_size_pos (hashmod self)) as Hpos.
  set (d := Z.of_nat (digest_size (hashmod self))).
  pose proof (ceil_div_bounds size d ltac:(lia)) as Hb.
  rewrite length_take, hkdf_blocks_length. fold d. nia.
Qed.

(** The output for a size is a prefix of the output for a larger size. *)
Lemma hkdf_expand_prefix self token s s' :
  (0 <= s <= s')%Z ->
  hkdf_expand self token s = take (Z.to_nat s) (hkdf_expand self token s').
Proof.
  intros Hs. unfold hkdf_expand.
  pose proof (digest_size_pos (hashmod self)) as Hpos.
  set (d := Z.of_nat (digest_size (hashmod self))).
  pose proof (ceil_div_bounds s d ltac:(lia)) as Hb.
  pose proof (ceil_div_bounds s' d ltac:(lia)) as Hb'.
  set (n := ceil_div s d) in *. set (n' := ceil_div s' d) in *.
  assert (Hn : (0 <= n <= n')%Z) by nia.
  rewrite take_take. replace (Z.to_nat s `min` Z.to_nat s')%nat
    with (Z.to_nat s) by lia.
  replace (Z.to_nat n') with (Z.to_nat n + (Z.to_nat n' - Z.to_nat n))%nat by lia.
  rewrite seq_app, map_app, concat_app.
  rewrite take_app_le; [reflexivity|].
  rewrite hkdf_blocks_length. fold d. nia.
Qed.

(** [get_prandom_bytes] reads the configuration only. *)
Lemma get_prandom_bytes_config self self' nonce size :
  same_config self self' ->
  get_prandom_bytes self' nonce size = get_prandom_bytes self nonce size.
Proof.
  intros (_ & _ & _ & _ & Hh & Hd & _ & Hg).
  unfold get_prandom_bytes. rewrite Hd.
  assert (Hloop : forall range T output,
             prandom_loop self' nonce range T output
             = prandom_loop self nonce range T output).
  { induction range as [|i range IH]; intros T output; [reflexivity|].
    simpl. destruct (Py.chr i); simpl; [|reflexivity].
    rewrite Hh, Hg. apply IH. }
  destruct (ceil_quotient _ _) as [N|]; simpl; [|reflexivity].
  rewrite Hloop. reflexivity.
Qed.

(** ** The counter store and the expiry queue *)

(** A sweep of at most as many turns as the queue has nonces sweeps as
    described. *)
Lemma purge_loop_swept self clock i n :
  n <= length (_nonce_purge_queue self) ->
  exists purged, swept self clock i n purged (purge_loop self clock i n).
Proof.
  revert self i. induction n as [|n IH]; intros self i Hn.
  - exists []. cbn [purge_loop]. unfold swept. cbn [fst snd length].
    split; [lia|]. split; [reflexivity|]. split; [reflexivity|].
    split; [intros k nonce Hk; discriminate|]. left. reflexivity.
  - destruct (_nonce_purge_queue self) as [|nonce rest] eqn:Hq;
      [simpl in Hn; lia|].
    cbn [purge_loop]. rewrite Hq. cbn [getitem0].
    destruct (_nonce_has_expired self (clock i) nonce None) as [[]|e] eqn:Hexp.
    + (* the head has expired *)
      cbn [set_counts _nonce_purge_queue]. rewrite Hq.
      destruct (heappop_cons Py.str_ltb nonce rest) as (queue' & Hpop & Hperm).
      rewrite Hpop.
      set (self1 := set_queue
                      (set_counts self (delete nonce (_nonce_counts self)))
                      queue').
      destruct (IH self1 (S i)) as (purged & Hswept).
      { simpl. rewrite Hperm. simpl in Hn. lia. }
      destruct Hswept as (Hlen & Hqueue & Hcounts & Hexpired & Hstop).
      exists (nonce :: purged).
      split; [simpl; lia|]. split.
      { rewrite Hq. simpl. f_equiv. rewrite <- Hqueue. symmetry. exact Hperm. }
      split; [|split].
      * intros m. rewrite Hcounts. simpl.
        destruct (decide (m = nonce)) as [->|Hne].
        -- rewrite lookup_delete_eq.
           rewrite (decide_True (P := nonce ∈ nonce :: purged))
             by apply list_elem_of_here.
           destruct (decide _); reflexivity.
        -- rewrite lookup_delete_ne by congruence.
           destruct (decide (m ∈ purged)) as [Hin|Hnin].
           ++ rewrite decide_True by (apply list_elem_of_further, Hin).
              reflexivity.
           ++ rewrite decide_False; [reflexivity|].
              intros Hin. apply elem_of_cons in Hin as [?|?]; contradiction.
      * intros [|k] m Hk; simpl in Hk.
        -- injection Hk as <-. rewrite Nat.add_0_r. exact Hexp.
        -- replace (i + S k) with (S i + k) by lia.
           rewrite <- (Hexpired k m Hk).
           symmetry. apply _nonce_has_expired_config. repeat split.
      * replace (i + length (nonce :: purged)) with (S i + length purged)
          by (simpl; lia).
        destruct (purge_loop self1 clock (S i) n).1 as [[]|e].
        -- destruct Hstop as [Hfull|(head & Hhead & Hfresh)].
           ++ left. simpl. lia.
           ++ right. exists head. split; [exact Hhead|].
              rewrite <- Hfresh. symmetry.
              apply _nonce_has_expired_config. repeat split.
        -- destruct Hstop as (Hless & head & Hhead & Hraise).
           split; [simpl; lia|]. exists head. split; [exact Hhead|].
           rewrite <- Hraise. symmetry.
           apply _nonce_has_expired_config. repeat split.
    + (* the head has not expired *)
      exists []. unfold swept. cbn [fst snd length].
      split; [lia|]. split; [reflexivity|]. split; [reflexivity|].
      split; [intros k m Hk; discriminate|].
      right. exists nonce. rewrite Hq. split; [reflexivity|].
      rewrite Nat.add_0_r. exact Hexp.
    + (* the expiry check raises *)
      exists []. unfold swept. cbn [fst snd length].
      split; [lia|]. split; [reflexivity|]. split; [reflexivity|].
      split; [intros k m Hk; discriminate|].
      split; [lia|]. exists nonce. rewrite Hq. split; [reflexivity|].
      rewrite Nat.add_0_r. exact Hexp.
Qed.

Lemma _purge_expired_nonces_swept self clock limit :
  exists purged,
    swept self clock 0 (purge_turns self limit) purged
      (_purge_expired_nonces self clock limit).
Proof.
  unfold _purge_expired_nonces, purge_turns.
  destruct limit as [l|]; simpl default; apply purge_loop_swept; lia.
Qed.

Lemma swept_store_inv self clock i n purged out :
  swept self clock i n purged out -> store_inv self -> store_inv out.2.
Proof.
  intros (_ & Hqueue & Hcounts & _ & _) [Hnodup Hmem].
  rewrite Hqueue in Hnodup. apply NoDup_app in Hnodup as (_ & Hdisj & Hnodup').
  split; [exact Hnodup'|].
  intros m. rewrite Hcounts. split.
  - intros Hin. destruct (decide (m ∈ purged)) as [Hp|_].
    + exfalso. exact (Hdisj m Hp Hin).
    + apply Hmem. rewrite Hqueue. apply elem_of_app. right. exact Hin.
  - destruct (decide (m ∈ purged)) as [_|Hp]; [intros [? [=]]|].
    intros Hsome. apply Hmem in Hsome. rewrite Hqueue in Hsome.
    apply elem_of_app in Hsome as [?|?]; [contradiction | assumption].
Qed.

Lemma set_nonce_count_registers self clock nonce nc :
  registers self clock nonce nc (set_nonce_count self clock nonce nc).
Proof.
  unfold set_nonce_count, registers.
  destruct (_nonce_counts self !! nonce) as [old|] eqn:Hold.
  - repeat split.
  - destruct (_purge_expired_nonces_swept self clock (Some 10%Z))
      as (purged & Hswept).
    exists purged. cbv zeta.
    split; [unfold purge_turns; simpl; lia|].
    split; [exact Hswept|].
    destruct (_purge_expired_nonces self clock (Some 10%Z)) as [[[]|e] s1];
      cbn [fst snd].
    + split; [reflexivity|]. split; [|reflexivity]. apply heappush_perm.
    + reflexivity.
Qed.

Lemma registers_store_inv self clock nonce nc out :
  registers self clock nonce nc out -> store_inv self -> store_inv out.2.
Proof.
  unfold registers. intros Hreg Hinv.
  destruct (_nonce_counts self !! nonce) as [old|] eqn:Hold.
  - destruct Hreg as (_ & Hq & Hc). destruct Hinv as [Hnodup Hmem].
    split; [rewrite Hq; exact Hnodup|].
    intros m. rewrite Hq, Hc, Hmem.
    destruct (decide (nonce = m)) as [<-|Hne].
    + rewrite lookup_insert_eq, Hold. split; eauto.
    + rewrite lookup_insert_ne by exact Hne. reflexivity.
  - destruct Hreg as (purged & _ & Hswept & Hout). cbv zeta in *.
    pose proof (swept_store_inv _ _ _ _ _ _ Hswept Hinv) as [Hnodup Hmem].
    destruct Hswept as (_ & _ & Hcounts & _ & _).
    destruct (_purge_expired_nonces self clock (Some 10%Z)) as [[[]|e] s1];
      cbn [fst snd] in *.
    + destruct Hout as (_ & Hq & Hc).
      assert (Hnew : nonce ∉ _nonce_purge_queue s1).
      { rewrite Hmem, Hcounts, Hold. destruct (decide _); intros [? [=]]. }
      split.
      * rewrite Hq. apply NoDup_cons. split; assumption.
      * intros m. rewrite Hq, Hc, elem_of_cons, Hmem.
        destruct (decide (nonce = m)) as [<-|Hne].
        -- rewrite lookup_insert_eq. split; eauto.
        -- rewrite lookup_insert_ne by exact Hne. split; [|auto].
           intros [?|?]; [congruence | assumption].
    + subst out. split; assumption.
Qed.

Lemma __init___store_inv hashlib urandom16 a b c d e self :
  __init__ hashlib urandom16 a b c d e = Ok self -> store_inv self.
Proof.
  intros H. apply __init___fields in H as (_ & _ & _ & _ & _ & _ & _ & Hc & Hq).
  split.
  - rewrite Hq. apply NoDup_nil_2.
  - intros m. rewrite Hq, Hc, lookup_empty. split.
    + intros Hin. apply elem_of_nil in Hin. contradiction.
    + intros [? [=]].
Qed.

Lemma step_store_inv self self' : step self self' -> store_inv self -> store_inv self'.
Proof.
  intros [clock nonce nc r H|clock limit r H] Hinv.
  - pose proof (set_nonce_count_registers self clock nonce nc) as Hreg.
    apply registers_store_inv in Hreg; [|exact Hinv].
    rewrite H in Hreg. exact Hreg.
  - destruct (_purge_expired_nonces_swept self clock limit) as (purged & Hswept).
    apply swept_store_inv in Hswept; [|exact Hinv].
    rewrite H in Hswept. exact Hswept.
Qed.

(** The invariant holds in every state. *)
Lemma reachable_store_inv self : reachable self -> store_inv self.
Proof.
  intros (hashlib & u & a & b & c & d & e & self0 & Hinit & Hsteps).
  apply __init___store_inv in Hinit.
  induction Hsteps as [|s1 s2 s3 H12 _ IH]; [exact Hinit|].
  apply IH. eapply step_store_inv; eassumption.
Qed.


(** ** The life of an issued nonce *)

(** The nonce issued at a time [t0] within the range is valid for the
    issuing request until 0.101 s before the hard timeout has passed
    since [t0], 0.1 s being the resolution of the timestamp, and invalid
    from 1 ms after it has. *)
Lemma issued_nonce_lifetime maxint self t0 rnd request T :
  seconds (timeout self) = Some T -> in_time_range T ->
  (0 <= t0)%Q -> in_time_range t0 ->
  exists nonce,
    generate_nonce maxint self (Float.Fin t0) rnd request = Ok nonce /\
    forall now,
      ((now - t0 <= T - (101 # 1000))%Q ->
       is_valid_nonce self (Float.Fin now) nonce request = Ok true) /\
      ((T + (1 # 1000) <= now - t0)%Q ->
       is_valid_nonce self (Float.Fin now) nonce request = Ok false).
Proof.
  intros Hsec HT Ht0 Hrange.
  destruct (ticks_near t0 Ht0 Hrange) as (n & Hticks & Hn & Hnrange & Hlo & Hhi).
  pose proof (generate_nonce_eq maxint self _ rnd request n Hticks Hn) as Hgen.
  cbv zeta in Hgen. eexists. split; [exact Hgen|].
  intros now.
  pose proof (timestamp_of_generated maxint self _ rnd request n _ Hticks Hn Hgen)
    as Hts.
  rewrite (is_valid_nonce_generated maxint self _ (Float.Fin now) rnd request n _
             Hticks Hn Hgen).
  destruct (_nonce_has_expired_near self _ None n T Hts Hnrange Hsec HT)
    as (E & HElo & HEhi & Hexp).
  rewrite Hexp. cbn [Float.le mbind result_bind].
  split; intros Hnow.
  - destruct (Qle_bool E now) eqn:Hle; [|reflexivity].
    apply Qle_bool_iff in Hle. lra.
  - assert (Hle : Qle_bool E now = true) by (apply Qle_bool_iff; lra).
    rewrite Hle. reflexivity.
Qed.

(** * The running examples, evaluated *)

(** 80% of the default hard timeout, in double precision, is 240 s. *)
Example eighty_percent_default : eighty_percent (PyInt (5 * 60)) = Ok 240%Z.
Proof. vm_compute. reflexivity. Qed.

Example eighty_percent_one_second : eighty_percent (PyInt 1) = Ok 0%Z.
Proof. vm_compute. reflexivity. Qed.

Example example_manager_init :
  __init__ no_hashlib [] (Some b{"sekrit"}) None None None None
  = Ok example_manager.
Proof.
  assert (E : (t ← to_float (PyInt (5 * 60));
               s ← Float.int (Float.mul t (Float.lit (8 # 10)));
               mret (if (s =? 0)%Z then None else Some (PyInt s)))
              = Ok (Some (PyInt 240))) by (vm_compute; reflexivity).
  unfold __init__. rewrite E.
  unfold example_manager, hmac_of. reflexivity.
Qed.

Example one_second_manager_init :
  __init__ no_hashlib [] (Some b{"sekrit"}) (Some (PyInt 1)) None None None
  = Ok one_second_manager.
Proof.
  assert (E : (t ← to_float (PyInt 1);
               s ← Float.int (Float.mul t (Float.lit (8 # 10)));
               mret (if (s =? 0)%Z then None else Some (PyInt s)))
              = Ok None) by (vm_compute; reflexivity).
  unfold __init__. rewrite E.
  unfold one_second_manager, manager_with_timeout, hmac_of. reflexivity.
Qed.

Example zero_soft_manager_init :
  __init__ no_hashlib [] (Some b{"sekrit"}) (Some (PyInt 300))
    (Some (PyInt 0)) None None
  = Ok zero_soft_manager.
Proof. unfold zero_soft_manager, hmac_of. reflexivity. Qed.

Example example_nonce_generated :
  generate_nonce maxint64 example_manager example_time example_rnd
    example_request
  = Ok example_nonce.
Proof. vm_compute. reflexivity. Qed.

(** The clock reading 1300000000.3 s is not a double, and the double next
    to it, multiplied by ten, rounds up to the next tenth of a second. *)
Example ticks_rounded_up :
  ticks (Float.lit (13000000003 # 10)) = Ok 13000000003%Z /\
  Qfloor ((13000000003 # 10) * 10) = 13000000003%Z /\
  match Float.lit (13000000003 # 10) with
  | Float.Fin x => Qfloor (x * 10) = 13000000002%Z
  | _ => False
  end.
Proof. repeat split; vm_compute; reflexivity. Qed.

(** RFC 2202, test case 2. *)
Example hmac_sha1_rfc2202 :
  hex_encode (hmac_of SHA1.hashmod b{"Jefe"} b{"what do ya want for nothing?"})
  = b{"effcdf6ae5eb2fa2d27416d5f184df9c259a7c79"}.
Proof. vm_compute. reflexivity. Qed.

(** The 45 bytes derived from the token ["nonce"]. *)
Example prandom_bytes_45 :
  get_prandom_bytes example_manager b{"nonce"} 45
  = Ok (flat_map (fun n => [ascii_of_nat n])
          [14; 200; 57; 230; 156; 24; 43; 215; 229; 115; 16; 240; 109; 11; 106;
           14; 10; 131; 244; 98; 246; 86; 122; 5; 197; 56; 112; 120; 53; 103;
           204; 59; 27; 152; 134; 17; 187; 52; 234; 71; 245; 160; 178; 201;
           178]%nat).
Proof. vm_compute. reflexivity. Qed.

(** A timestamp field that is not hexadecimal. *)
Example malformed_timestamp_field : malformed b{"12g:0102ff:c2ln"}.
Proof.
  right. exists b{"12g"}, b{"0102ff:c2ln"}.
  split; [reflexivity|]. split; [|reflexivity].
  rewrite list_elem_of_In. simpl. intuition discriminate.
Qed.

(** Python 2 reads a sign that is followed by white space. *)
Example int16_spaced_sign : Py.int16 b{" - 0x1F "} = Ok (-31)%Z.
Proof. reflexivity. Qed.

(** A timestamp of 257 hexadecimal digits is an integer that does not
    convert to a float: the expiry check raises. *)
Example oversized_nonce_raises :
  timestamp_of oversized_nonce = Some (16 ^ 256)%Z /\
  _nonce_has_expired example_manager example_time oversized_nonce None
  = Raise OverflowError /\
  is_valid_nonce example_manager example_time oversized_nonce example_request
  = Raise OverflowError.
Proof. repeat split; vm_compute; reflexivity. Qed.


Lemma reachable_example_manager : reachable example_manager.
Proof.
  exists no_hashlib, [], (Some b{"sekrit"}), None, None, None, None,
    example_manager.
  split; [exact example_manager_init | apply rtc_refl].
Qed.

Lemma reachable_example_registered : reachable example_registered.
Proof.
  eapply reachable_step; [exact reachable_example_manager|].
  eapply (step_set_nonce_count _ _ (fun _ => example_time) example_nonce 1).
  unfold example_registered. apply surjective_pairing.
Qed.

(** A nonce registered when issued has its counter, and is alone in the
    queue. *)
Example registered_nonce_count :
  get_nonce_count example_registered example_nonce = Some 1%Z /\
  _nonce_purge_queue example_registered = [example_nonce].
Proof. split; vm_compute; reflexivity. Qed.

(** * The properties *)

(** ** Signing *)

(** C1.  The signature of a payload is keyed with the raw secret: for the
    manager built from the secret ["sekrit"], the signature of
    ["306dc4205:0102ff"] for the user agent ["UA"] is the base64 of
    HMAC(secret, payload + bound header fields), and it is not the base64
    of the same HMAC keyed with the derived signing key HMAC("SIGN",
    secret), although the constructor derives that key. *)
Theorem C1_signature_keyed_with_raw_secret :
  let self := example_manager in
  let payload := b{"306dc4205:0102ff"} in
  let msg := payload ++ bound_headers self example_request in
  __init__ no_hashlib [] (Some b{"sekrit"}) None None None None = Ok self /\
  _signing_key self = hmac_of (hashmod self) b{"SIGN"} (secret self) /\
  _get_signature self payload example_request
  = base64.b64encode (hmac_of (hashmod self) (secret self) msg) /\
  _get_signature self payload example_request
  = b{"SUlPpb81RB4LVxoY8wuV89b8lg8="} /\
  base64.b64encode (hmac_of (hashmod self) (_signing_key self) msg)
  = b{"sigyti3TfgzMho9Og/CUUYW63I0="} /\
  _get_signature self payload example_request
  <> base64.b64encode (hmac_of (hashmod self) (_signing_key self) msg).
Proof.
  cbv zeta.
  split; [exact example_manager_init|].
  split; [unfold example_manager; cbn [_signing_key hashmod secret]; reflexivity|].
  split; [apply _get_signature_eq|].
  split; [vm_compute; reflexivity|].
  split; [vm_compute; reflexivity|].
  vm_compute. discriminate.
Qed.

(** ** Validation and renewal *)

(** C2, as amended.  A nonce issued at a clock reading [t] between 0 and
    [2^40] s, by a manager whose hard timeout is at least 0.101 s (the
    resolution of the encoded timestamp, and a millisecond for the
    rounding of the double arithmetic) and at most [2^40] s, is issued
    without an exception and is valid for the issuing request when
    checked at the same reading. *)
Theorem C2_issued_nonce_is_valid maxint self t rnd request T :
  seconds (timeout self) = Some T -> (101 # 1000 <= T)%Q -> in_time_range T ->
  (0 <= t)%Q -> in_time_range t ->
  exists nonce,
    generate_nonce maxint self (Float.Fin t) rnd request = Ok nonce /\
    is_valid_nonce self (Float.Fin t) nonce request = Ok true.
Proof.
  intros Hsec Hmin HT Ht Hrange.
  destruct (issued_nonce_lifetime maxint self t rnd request T Hsec HT Ht Hrange)
    as (nonce & Hgen & Hlife).
  exists nonce. split; [exact Hgen|].
  apply (Hlife t). lra.
Qed.

Lemma C2_issued_nonce_is_valid_witness :
  exists nonce,
    generate_nonce maxint64 example_manager (Float.Fin (13000000005 # 10))
      example_rnd example_request = Ok nonce /\
    is_valid_nonce example_manager (Float.Fin (13000000005 # 10)) nonce
      example_request = Ok true.
Proof.
  apply (C2_issued_nonce_is_valid maxint64 example_manager (13000000005 # 10)
           example_rnd example_request 300).
  - reflexivity.
  - vm_compute. discriminate.
  - vm_compute. discriminate.
  - vm_compute. discriminate.
  - vm_compute. discriminate.
Defined.

(** C2 as stated fails, for three managers with a positive hard timeout.
    With 0.05 s, the nonce issued at 100.09 s carries the timestamp
    100.0 s and has expired when it is issued.  With 0.1 s, the nonce
    issued at 1200000000.3999999 s has expired as well: the expiry time
    [(12000000003 * 0.1) + 0.1] rounds to the current time.  Before the
    epoch the timestamp is not even readable: at -1 s it is printed as
    ["xa"]. *)
Lemma C2_counterexample :
  ((exists T, seconds (timeout short_lived_manager) = Some T /\ (0 < T)%Q) /\
   (nonce ← generate_nonce maxint64 short_lived_manager
              (Float.lit (10009 # 100)) example_rnd example_request;
    is_valid_nonce short_lived_manager (Float.lit (10009 # 100)) nonce
      example_request)
   = Ok false) /\
  ((exists T, seconds (timeout tenth_second_manager) = Some T /\ (0 < T)%Q) /\
   (nonce ← generate_nonce maxint64 tenth_second_manager
              (Float.lit (12000000003999999 # 10000000)) example_rnd
              example_request;
    is_valid_nonce tenth_second_manager
      (Float.lit (12000000003999999 # 10000000)) nonce example_request)
   = Ok false) /\
  ((exists T, seconds (timeout example_manager) = Some T /\ (0 < T)%Q) /\
   (nonce ← generate_nonce maxint64 example_manager (Float.Fin (-1))
              example_rnd example_request;
    is_valid_nonce example_manager (Float.Fin (-1)) nonce example_request)
   = Ok false).
Proof.
  repeat split;
    try (eexists; split; [vm_compute; reflexivity | vm_compute; reflexivity]);
    vm_compute; reflexivity.
Qed.

(** C3, as amended.  With a soft timeout of [S] seconds, [get_next_nonce]
    returns none for a nonce whose age is below [S], and renews every
    other nonce: one whose age has reached [S], past the hard timeout or
    not, and one that is malformed.  The ages are the exact ones; those
    within a millisecond of [S] are left to the rounding of the expiry
    time. *)
Theorem C3_renewal_at_soft_timeout maxint self st S t now' rnd nonce request :
  soft_timeout self = Some st -> seconds st = Some S -> in_time_range S ->
  renews_at S t nonce
    (get_next_nonce maxint self (Float.Fin t) now' rnd nonce request)
    (generate_nonce maxint self now' rnd request).
Proof.
  intros Hsoft Hsec HS.
  apply get_next_nonce_renews; [|exact HS].
  rewrite Hsoft. exact Hsec.
Qed.

Lemma C3_renewal_at_soft_timeout_witness :
  renews_at 240 (13000002505 # 10) example_nonce
    (get_next_nonce maxint64 example_manager (Float.Fin (13000002505 # 10))
       (Float.Fin (13000002505 # 10)) example_rnd example_nonce
       example_request)
    (generate_nonce maxint64 example_manager (Float.Fin (13000002505 # 10))
       example_rnd example_request).
Proof.
  apply (C3_renewal_at_soft_timeout maxint64 example_manager (PyInt 240) 240
           (13000002505 # 10) (Float.Fin (13000002505 # 10)) example_rnd
           example_nonce example_request).
  - reflexivity.
  - reflexivity.
  - vm_compute. discriminate.
Defined.

(** C3 as stated fails: the nonce issued at 1300000000.5 s is past the
    hard timeout of 300 s when it is 1000 s old, and [get_next_nonce]
    still answers with a fresh nonce, not with none. *)
Lemma C3_counterexample :
  let now := (13000010005 # 10)%Q in
  (exists a, age now example_nonce = Some a /\ (300 <= a)%Q) /\
  seconds (timeout example_manager) = Some 300%Q /\
  is_valid_nonce example_manager (Float.Fin now) example_nonce example_request
  = Ok false /\
  get_next_nonce maxint64 example_manager (Float.Fin now) (Float.Fin now)
    example_rnd example_nonce example_request
  = Ok (Some b{"306dc6915:0102ff:f4Vt0D2Tp0k2oVMxakHzxzTC0aU="}) /\
  get_next_nonce maxint64 example_manager (Float.Fin now) (Float.Fin now)
    example_rnd example_nonce example_request
  <> Ok None.
Proof.
  cbv zeta. split; [|split; [|split; [|split]]].
  - eexists. split; [vm_compute; reflexivity | vm_compute; discriminate].
  - reflexivity.
  - vm_compute. reflexivity.
  - vm_compute. reflexivity.
  - vm_compute. discriminate.
Qed.

(** C4, as amended.  A manager built without a soft timeout, when
    [int(timeout * 0.8)] is zero, has no soft timeout, and then
    [get_next_nonce] renews at the hard timeout: none for a nonce younger
    than the hard timeout, a renewal for one that has reached it or is
    malformed.  A manager built with a soft timeout keeps it, zero
    included, and renews at it: at zero, every nonce whose age is not
    negative.  [T] is the timeout in force, in seconds. *)
Theorem C4_renewal_without_soft_timeout hashlib urandom16 secret_arg
    timeout_arg soft_arg headers_arg hashmod_arg self T maxint t now' rnd
    nonce request :
  __init__ hashlib urandom16 secret_arg timeout_arg soft_arg headers_arg
    hashmod_arg = Ok self ->
  seconds (default (timeout self) soft_arg) = Some T -> in_time_range T ->
  match soft_arg with
  | None =>
      eighty_percent (timeout self) = Ok 0%Z ->
      soft_timeout self = None /\
      renews_at T t nonce
        (get_next_nonce maxint self (Float.Fin t) now' rnd nonce request)
        (generate_nonce maxint self now' rnd request)
  | Some st =>
      soft_timeout self = Some st /\
      renews_at T t nonce
        (get_next_nonce maxint self (Float.Fin t) now' rnd nonce request)
        (generate_nonce maxint self now' rnd request)
  end.
Proof.
  intros Hinit Hsec HT.
  apply __init___fields in Hinit as (_ & _ & Hsoft & _).
  destruct soft_arg as [st|].
  - split; [exact Hsoft|].
    apply get_next_nonce_renews; [|exact HT]. rewrite Hsoft. exact Hsec.
  - intros Hzero. destruct Hsoft as (s & Hs & Hsoft).
    rewrite Hzero in Hs. injection Hs as <-. simpl in Hsoft.
    split; [exact Hsoft|].
    apply get_next_nonce_renews; [|exact HT]. rewrite Hsoft. exact Hsec.
Qed.

(** The manager built with a hard timeout of one second and no soft
    timeout, asked about a nonce stamped 0 at 5 s. *)
Lemma C4_renewal_without_soft_timeout_witness :
  soft_timeout one_second_manager = None /\
  renews_at 1 5 b{"0:0102ff:c2ln"}
    (get_next_nonce maxint64 one_second_manager (Float.Fin 5) (Float.Fin 5)
       example_rnd b{"0:0102ff:c2ln"} example_request)
    (generate_nonce maxint64 one_second_manager (Float.Fin 5) example_rnd
       example_request).
Proof.
  refine (C4_renewal_without_soft_timeout no_hashlib [] (Some b{"sekrit"})
            (Some (PyInt 1)) None None None one_second_manager 1 maxint64 5
            (Float.Fin 5) example_rnd b{"0:0102ff:c2ln"} example_request
            _ _ _ _).
  - exact one_second_manager_init.
  - reflexivity.
  - vm_compute. discriminate.
  - vm_compute. reflexivity.
Defined.

(** C4 as stated fails.  The manager built with a hard timeout of one
    second has no soft timeout, and it renews a nonce that is five
    seconds old.  The manager built with the soft timeout 0 renews a
    nonce at the time it is issued. *)
Lemma C4_counterexample :
  (__init__ no_hashlib [] (Some b{"sekrit"}) (Some (PyInt 1)) None None None
   = Ok one_second_manager /\
   soft_timeout one_second_manager = None /\
   get_next_nonce maxint64 one_second_manager (Float.Fin 5) (Float.Fin 5)
     example_rnd b{"0:0102ff:c2ln"} example_request
   = Ok (Some b{"32:0102ff:fiuBg6tvu3BDDvtoWGiaUT/8wpk="})) /\
  (__init__ no_hashlib [] (Some b{"sekrit"}) (Some (PyInt 300))
     (Some (PyInt 0)) None None
   = Ok zero_soft_manager /\
   soft_timeout zero_soft_manager = Some (PyInt 0) /\
   get_next_nonce maxint64 zero_soft_manager example_time example_time
     example_rnd example_nonce example_request
   = Ok (Some example_nonce)).
Proof.
  split; (split; [|split]).
  - exact one_second_manager_init.
  - reflexivity.
  - vm_compute. reflexivity.
  - exact zero_soft_manager_init.
  - reflexivity.
  - vm_compute. reflexivity.
Qed.

(** C5, as amended.  A nonce whose age, at the time of the check, exceeds
    the hard timeout by a millisecond or more is invalid, whatever its
    signature.  The age is the exact one, of a timestamp within
    [2^44] tenths of a second, and the hard timeout is within [2^40] s. *)
Theorem C5_expired_nonce_is_invalid self t nonce request ts T a :
  timestamp_of nonce = Some ts -> in_tick_range ts ->
  seconds (timeout self) = Some T -> in_time_range T ->
  age t nonce = Some a -> (T + slack <= a)%Q ->
  is_valid_nonce self (Float.Fin t) nonce request = Ok false.
Proof.
  intros Hts Hrange Hsec HT Hage Hold. unfold is_valid_nonce.
  destruct (_nonce_has_expired_age self t nonce None ts T a Hts Hrange Hsec HT
              Hage) as [Hexp _].
  rewrite (Hexp Hold). reflexivity.
Qed.

(** The nonce issued at 1300000000.5 s, correctly signed for the request,
    checked 301 s later. *)
Lemma C5_expired_nonce_is_invalid_witness :
  is_valid_nonce example_manager (Float.Fin (13000003015 # 10)) example_nonce
    example_request
  = Ok false.
Proof.
  apply (C5_expired_nonce_is_invalid example_manager (13000003015 # 10)
           example_nonce example_request 13000000005 300
           ((13000003015 # 10) - inject_Z 13000000005 / 10)%Q).
  - vm_compute. reflexivity.
  - vm_compute. discriminate.
  - reflexivity.
  - vm_compute. discriminate.
  - vm_compute. reflexivity.
  - vm_compute. discriminate.
Defined.

(** C5 as stated fails: with a hard timeout of 299.9 s, the nonce stamped
    1700000000.1 s and correctly signed is still valid at 1700000300.0 s,
    when its age, 299.9 s, has reached the hard timeout: the expiry time
    [(17000000001 * 0.1) + 299.9] rounds to 1700000300.0000002. *)
Lemma C5_counterexample :
  exists T a,
    seconds (timeout fractional_manager) = Some T /\
    age 1700000300 fractional_nonce = Some a /\
    (T <= a)%Q /\
    is_valid_nonce fractional_manager (Float.Fin 1700000300) fractional_nonce
      example_request
    = Ok true.
Proof.
  eexists. eexists.
  split; [vm_compute; reflexivity|].
  split; [vm_compute; reflexivity|].
  split; [vm_compute; discriminate|].
  vm_compute. reflexivity.
Qed.

(** C6.  A malformed nonce, one without a colon or with a timestamp field
    that is not a hexadecimal integer, is reported as expired and as
    invalid; no exception is raised. *)
Theorem C6_malformed_nonce_is_invalid self now nonce request :
  malformed nonce ->
  (forall timeout_arg,
     _nonce_has_expired self now nonce timeout_arg = Ok true) /\
  is_valid_nonce self now nonce request = Ok false.
Proof.
  intros Hbad. apply malformed_timestamp in Hbad.
  assert (Hexp : forall t, _nonce_has_expired self now nonce t = Ok true).
  { intros t. apply _nonce_has_expired_malformed, Hbad. }
  split; [exact Hexp|].
  unfold is_valid_nonce. rewrite Hexp. reflexivity.
Qed.

Lemma C6_malformed_nonce_is_invalid_witness :
  (forall timeout_arg,
     _nonce_has_expired example_manager (Float.Fin 0) b{"not-a-nonce"}
       timeout_arg
     = Ok true) /\
  is_valid_nonce example_manager (Float.Fin 0) b{"not-a-nonce"} example_request
  = Ok false.
Proof.
  apply (C6_malformed_nonce_is_invalid example_manager (Float.Fin 0)
           b{"not-a-nonce"} example_request).
  left. rewrite list_elem_of_In. simpl. intuition discriminate.
Defined.

(** ** Pseudo-random bytes *)

(** C7, as amended.  A request for more bytes than 255 digests, or, which
    is the same, one that needs more than 255 rounds, fails, and no
    output, truncated or not, is returned: the assertion fails for a size
    that converts to a float, and [size * 1.0] raises [OverflowError] for
    a size from [2^1024 - 2^970] on. *)
Theorem C7_oversized_request_fails self nonce size :
  reachable self ->
  let ds := Z.of_nat (digest_size (hashmod self)) in
  (255 * ds < size \/ 255 < ceil_div size ds)%Z ->
  (255 * ds < size /\ 255 < ceil_div size ds)%Z /\
  get_prandom_bytes self nonce size
  = Raise (if (size <? overflow_threshold)%Z then AssertionError
           else OverflowError).
Proof.
  intros Hreach ds Hbig.
  pose proof (digest_size_range self) as Husual. fold ds in Husual.
  assert (Hlimit := ceil_div_limit size ds ltac:(lia)).
  assert (Hsize : (255 * ds < size)%Z) by tauto.
  split; [tauto|].
  unfold get_prandom_bytes.
  rewrite (reachable_digest_size self Hreach). fold ds.
  destruct (Z.ltb_spec size overflow_threshold) as [Hlt|Hge].
  - destruct (ceil_quotient_big size ds Husual Hsize Hlt) as (N & -> & HN).
    cbn [mbind result_bind].
    replace (N <=? 255)%Z with false by (symmetry; apply Z.leb_gt; lia).
    reflexivity.
  - rewrite ceil_quotient_overflow by lia. reflexivity.
Qed.

(** One byte more than 255 SHA-1 digests. *)
Lemma C7_oversized_request_fails_witness :
  (255 * 20 < 5101 /\ 255 < ceil_div 5101 20)%Z /\
  get_prandom_bytes example_manager b{"nonce"} 5101 = Raise AssertionError.
Proof.
  apply (C7_oversized_request_fails example_manager b{"nonce"} 5101
           reachable_example_manager).
  left. vm_compute. reflexivity.
Defined.

(** C7 as stated fails: a request for [2^1024] bytes exceeds 255 digests
    of 20 bytes, and it ends with an [OverflowError], raised by
    [size * 1.0] before the assertion is reached. *)
Lemma C7_counterexample :
  (255 * Z.of_nat (digest_size (hashmod example_manager)) < 2 ^ 1024)%Z /\
  get_prandom_bytes example_manager b{"nonce"} (2 ^ 1024) = Raise OverflowError /\
  get_prandom_bytes example_manager b{"nonce"} (2 ^ 1024)
  <> Raise AssertionError.
Proof.
  split; [vm_compute; reflexivity|].
  split; [vm_compute; reflexivity | vm_compute; discriminate].
Qed.

(** C8.  Within the limit of 255 digests, [get_prandom_bytes] returns
    HKDF-Expand of the token under the generation key: exactly [size]
    bytes, none for size 0, and the same bytes in every later state of
    the manager. *)
Theorem C8_prandom_bytes_are_hkdf_expand self nonce size :
  reachable self ->
  (0 <= size <= 255 * Z.of_nat (digest_size (hashmod self)))%Z ->
  get_prandom_bytes self nonce size = Ok (hkdf_expand self nonce size) /\
  length (hkdf_expand self nonce size) = Z.to_nat size /\
  (size = 0%Z -> hkdf_expand self nonce size = []) /\
  (forall self', rtc step self self' ->
     get_prandom_bytes self' nonce size = get_prandom_bytes self nonce size).
Proof.
  intros Hreach Hsize.
  split; [apply get_prandom_bytes_hkdf;
          [apply reachable_digest_size, Hreach | exact Hsize]|].
  split; [apply hkdf_expand_length; lia|].
  split.
  - intros ->. reflexivity.
  - intros self' Hsteps. apply get_prandom_bytes_config, rtc_step_config, Hsteps.
Qed.

Lemma C8_prandom_bytes_are_hkdf_expand_witness :
  get_prandom_bytes example_manager example_nonce 45
  = Ok (hkdf_expand example_manager example_nonce 45) /\
  length (hkdf_expand example_manager example_nonce 45) = Z.to_nat 45 /\
  (45%Z = 0%Z -> hkdf_expand example_manager example_nonce 45 = []) /\
  (forall self', rtc step example_manager self' ->
     get_prandom_bytes self' example_nonce 45
     = get_prandom_bytes example_manager example_nonce 45).
Proof.
  apply (C8_prandom_bytes_are_hkdf_expand example_manager example_nonce 45
           reachable_example_manager).
  vm_compute. split; discriminate.
Defined.

(** ** The counter store and the expiry queue *)

(** A sweep returns unless the expiry check of a queued nonce raises. *)
Lemma swept_returns self clock i n purged out :
  swept self clock i n purged out ->
  (forall k nonce,
     nonce ∈ _nonce_purge_queue self ->
     exists b, _nonce_has_expired self (clock k) nonce None = Ok b) ->
  out.1 = Ok ().
Proof.
  intros (_ & Hqueue & _ & _ & Hstop) Hall.
  destruct out.1 as [[]|e]; [reflexivity|].
  destruct Hstop as (_ & head & Hhead & Hraise).
  assert (Hin : head ∈ _nonce_purge_queue self).
  { rewrite Hqueue. apply elem_of_app. right.
    eapply list_elem_of_lookup_2, Hhead. }
  destruct (Hall (i + length purged) head Hin) as [b Hb]. congruence.
Qed.

(** The only exception of a sweep is the [OverflowError] of the expiry
    check. *)
Lemma swept_raises self clock i n purged out e :
  swept self clock i n purged out -> out.1 = Raise e -> e = OverflowError.
Proof.
  intros (_ & _ & _ & _ & Hstop) He. rewrite He in Hstop.
  destruct Hstop as (_ & head & _ & Hraise).
  apply _nonce_has_expired_raises in Hraise as [-> _]. reflexivity.
Qed.



(** ** Prefixes of the pseudo-random bytes *)

(** C10.  For sizes [s <= s'] within the limit, the bytes derived for
    [s] are the first [s] bytes of those derived for [s']. *)
Theorem C10_prandom_bytes_prefix self nonce s s' :
  reachable self ->
  (0 <= s <= s')%Z ->
  (s' <= 255 * Z.of_nat (digest_size (hashmod self)))%Z ->
  exists out out',
    get_prandom_bytes self nonce s = Ok out /\
    get_prandom_bytes self nonce s' = Ok out' /\
    out = take (Z.to_nat s) out'.
Proof.
  intros Hreach Hs Hs'.
  pose proof (reachable_digest_size self Hreach) as Hds.
  exists (hkdf_expand self nonce s), (hkdf_expand self nonce s').
  split; [apply get_prandom_bytes_hkdf; [exact Hds | lia]|].
  split; [apply get_prandom_bytes_hkdf; [exact Hds | lia]|].
  apply hkdf_expand_prefix. exact Hs.
Qed.

Lemma C10_prandom_bytes_prefix_witness :
  exists out out',
    get_prandom_bytes example_manager example_nonce 7 = Ok out /\
    get_prandom_bytes example_manager example_nonce 45 = Ok out' /\
    out = take (Z.to_nat 7) out'.
Proof.
  apply (C10_prandom_bytes_prefix example_manager example_nonce 7 45
           reachable_example_manager).
  - vm_compute. split; discriminate.
  - vm_compute. discriminate.
Defined.

(** * Further properties *)

(** ** The counter store *)

(** The nonces that a sweep takes away had a counter or not, but have
    none afterwards; the others keep theirs. *)
Lemma swept_counts self clock i n purged out nonce :
  swept self clock i n purged out ->
  _nonce_counts out.2 !! nonce = None \/
  _nonce_counts out.2 !! nonce = _nonce_counts self !! nonce.
Proof.
  intros (_ & _ & Hcounts & _). rewrite Hcounts.
  destruct (decide (nonce ∈ purged)); [left|right]; reflexivity.
Qed.

(** X1.  When [set_nonce_count] returns, the counter it stored is the one
    that [get_nonce_count] reads back, whatever was stored before and
    whether or not the nonce has expired.  It returns for a nonce that
    has a counter, and for a new nonce unless the expiry check of a
    queued nonce raises; then it raises that [OverflowError] and the new
    nonce is left without a counter. *)
Theorem X1_set_then_get_nonce_count self clock nonce nc :
  let out := set_nonce_count self clock nonce nc in
  (out.1 = Ok () -> get_nonce_count out.2 nonce = Some nc) /\
  (forall e,
     out.1 = Raise e ->
     e = OverflowError /\
     get_nonce_count self nonce = None /\
     get_nonce_count out.2 nonce = None) /\
  (is_Some (get_nonce_count self nonce) \/
   (forall k queued,
      queued ∈ _nonce_purge_queue self ->
      exists b, _nonce_has_expired self (clock k) queued None = Ok b) ->
   out.1 = Ok ()).
Proof.
  intros out.
  pose proof (set_nonce_count_registers self clock nonce nc) as Hreg.
  fold out in Hreg. unfold registers in Hreg. unfold get_nonce_count.
  destruct (_nonce_counts self !! nonce) as [old|] eqn:Hold.
  - destruct Hreg as (Hok & _ & Hcounts). split; [|split].
    + intros _. rewrite Hcounts. apply lookup_insert_eq.
    + intros e He. congruence.
    + intros _. exact Hok.
  - destruct Hreg as (purged & _ & Hswept & Hreg).
    destruct (_purge_expired_nonces self clock (Some 10%Z)).1 as [[]|e0] eqn:Hs.
    + destruct Hreg as (Hok & _ & Hcounts). split; [|split].
      * intros _. rewrite Hcounts. apply lookup_insert_eq.
      * intros e He. congruence.
      * intros _. exact Hok.
    + split; [|split].
      * intros Hok. rewrite Hreg, Hs in Hok. discriminate.
      * intros e He. rewrite Hreg, Hs in He. injection He as <-.
        split; [eapply swept_raises; [exact Hswept | exact Hs]|].
        split; [reflexivity|]. rewrite Hreg.
        destruct (swept_counts _ _ _ _ _ _ nonce Hswept) as [H|H];
          [exact H | rewrite H; exact Hold].
      * intros [[v Hv]|Hall]; [discriminate|].
        pose proof (swept_returns _ _ _ _ _ _ Hswept Hall) as Hok.
        congruence.
Qed.

Lemma swept_unexpired self clock i n purged out other :
  swept self clock i n purged out ->
  (forall k, _nonce_has_expired self (clock k) other None = Ok false) ->
  _nonce_counts out.2 !! other = _nonce_counts self !! other.
Proof.
  intros (_ & _ & Hcounts & Hexpired & _) Hlive.
  rewrite Hcounts. destruct (decide (other ∈ purged)) as [Hin|_]; [|reflexivity].
  apply list_elem_of_lookup in Hin as [k Hk].
  apply Hexpired in Hk. rewrite Hlive in Hk. discriminate.
Qed.

(** X2.  The counter of a nonce for which the expiry check answers "not
    expired" at every reading of the clock is kept by a sweep, and by the
    registration or the update of another nonce, whether these return or
    raise. *)
Theorem X2_unexpired_counter_is_kept self clock other :
  (forall k, _nonce_has_expired self (clock k) other None = Ok false) ->
  (forall limit,
     get_nonce_count (_purge_expired_nonces self clock limit).2 other
     = get_nonce_count self other) /\
  (forall nonce nc,
     nonce <> other ->
     get_nonce_count (set_nonce_count self clock nonce nc).2 other
     = get_nonce_count self other).
Proof.
  intros Hlive. unfold get_nonce_count. split.
  - intros limit.
    destruct (_purge_expired_nonces_swept self clock limit) as (purged & Hswept).
    eapply swept_unexpired; eassumption.
  - intros nonce nc Hne.
    pose proof (set_nonce_count_registers self clock nonce nc) as Hreg.
    unfold registers in Hreg.
    destruct (_nonce_counts self !! nonce).
    + destruct Hreg as (_ & _ & ->). apply lookup_insert_ne. exact Hne.
    + destruct Hreg as (purged & _ & Hswept & Hreg).
      pose proof (swept_unexpired _ _ _ _ _ _ _ Hswept Hlive) as Hkept.
      destruct (_purge_expired_nonces self clock (Some 10%Z)).1 as [[]|e].
      * destruct Hreg as (_ & _ & ->).
        rewrite lookup_insert_ne by exact Hne. exact Hkept.
      * rewrite Hreg. exact Hkept.
Qed.

Lemma X2_unexpired_counter_is_kept_witness :
  (forall limit,
     get_nonce_count
       (_purge_expired_nonces example_registered
          (fun _ => Float.Fin (13000001005 # 10)) limit).2 example_nonce
     = get_nonce_count example_registered example_nonce) /\
  (forall nonce nc,
     nonce <> example_nonce ->
     get_nonce_count
       (set_nonce_count example_registered
          (fun _ => Float.Fin (13000001005 # 10)) nonce nc).2 example_nonce
     = get_nonce_count example_registered example_nonce).
Proof.
  apply (X2_unexpired_counter_is_kept example_registered
           (fun _ => Float.Fin (13000001005 # 10)) example_nonce).
  intros k. vm_compute. reflexivity.
Defined.

(** X3.  In every state the counter store has as many entries as the
    queue has nonces, and the queued nonces are those with a counter. *)
Theorem X3_one_queue_entry_per_counter self :
  reachable self ->
  size (_nonce_counts self) = length (_nonce_purge_queue self) /\
  forall nonce,
    nonce ∈ _nonce_purge_queue self <-> is_Some (get_nonce_count self nonce).
Proof.
  intros Hreach. apply reachable_store_inv in Hreach as [Hnodup Hmem].
  split; [|exact Hmem].
  rewrite <- size_dom, <- (size_list_to_set (C := gset str)) by exact Hnodup.
  f_equal. apply set_eq. intros nonce.
  rewrite elem_of_dom, elem_of_list_to_set. symmetry. apply Hmem.
Qed.

Lemma X3_one_queue_entry_per_counter_witness :
  size (_nonce_counts example_registered)
  = length (_nonce_purge_queue example_registered) /\
  forall nonce,
    nonce ∈ _nonce_purge_queue example_registered
    <-> is_Some (get_nonce_count example_registered nonce).
Proof.
  exact (X3_one_queue_entry_per_counter example_registered
           reachable_example_registered).
Defined.

(** X4.  When the expiry check answers "expired" for every queued nonce,
    a sweep without limit returns and leaves the queue and the counter
    store empty. *)
Theorem X4_full_sweep_empties_the_store self clock :
  reachable self ->
  (forall k nonce,
     nonce ∈ _nonce_purge_queue self ->
     _nonce_has_expired self (clock k) nonce None = Ok true) ->
  let out := _purge_expired_nonces self clock None in
  out.1 = Ok () /\ _nonce_purge_queue out.2 = [] /\ _nonce_counts out.2 = ∅.
Proof.
  intros Hreach Hall out.
  destruct (_purge_expired_nonces_swept self clock None) as (purged & Hswept).
  fold out in Hswept.
  assert (Hok : out.1 = Ok ()).
  { eapply swept_returns; [exact Hswept|].
    intros k nonce Hin. exists true. apply Hall, Hin. }
  split; [exact Hok|].
  pose proof (swept_store_inv _ _ _ _ _ _ Hswept (reachable_store_inv _ Hreach))
    as [_ Hmem].
  destruct Hswept as (_ & Hqueue & _ & _ & Hstop). rewrite Hok in Hstop.
  assert (Hempty : _nonce_purge_queue out.2 = []).
  { destruct Hstop as [Hfull|(head & Hhead & Hfresh)].
    - unfold purge_turns in Hfull. simpl in Hfull.
      apply Permutation_length in Hqueue. rewrite length_app in Hqueue.
      apply length_zero_iff_nil. lia.
    - exfalso.
      assert (Hin : head ∈ _nonce_purge_queue self).
      { rewrite Hqueue. apply elem_of_app. right.
        eapply list_elem_of_lookup_2, Hhead. }
      rewrite (Hall _ _ Hin) in Hfresh. discriminate. }
  split; [exact Hempty|].
  apply map_empty. intros nonce.
  destruct (_nonce_counts out.2 !! nonce) as [v|] eqn:Hv; [|reflexivity].
  exfalso. assert (Hin : nonce ∈ _nonce_purge_queue out.2)
    by (apply Hmem; eauto).
  rewrite Hempty in Hin. apply elem_of_nil in Hin. exact Hin.
Qed.

Lemma X4_full_sweep_empties_the_store_witness :
  let out :=
    _purge_expired_nonces example_registered
      (fun _ => Float.Fin (13000004005 # 10)) None in
  out.1 = Ok () /\ _nonce_purge_queue out.2 = [] /\ _nonce_counts out.2 = ∅.
Proof.
  apply (X4_full_sweep_empties_the_store example_registered
           (fun _ => Float.Fin (13000004005 # 10))
           reachable_example_registered).
  intros k nonce Hin.
  rewrite (proj2 registered_nonce_count) in Hin.
  apply list_elem_of_singleton in Hin. subst nonce.
  vm_compute. reflexivity.
Defined.



(** ** Signing *)

Lemma bound_headers_ext self r1 r2 :
  (forall header,
     header ∈ sign_headers self ->
     dict_get (environ r1) header [] = dict_get (environ r2) header []) ->
  bound_headers self r1 = bound_headers self r2.
Proof.
  unfold bound_headers.
  induction (sign_headers self) as [|h hs IH]; intros Hsame; [reflexivity|].
  simpl. rewrite (Hsame h) by apply list_elem_of_here.
  rewrite IH; [reflexivity|].
  intros header Hin. apply Hsame, list_elem_of_further, Hin.
Qed.

(** X6.  A signature, and so the validity of a nonce, depends on the
    request only through the values of the signed headers, where a
    missing header counts as an empty one: two requests that agree on
    them are signed alike. *)
Theorem X6_signature_reads_signed_headers_only self r1 r2 :
  (forall header,
     header ∈ sign_headers self ->
     dict_get (environ r1) header [] = dict_get (environ r2) header []) ->
  (forall value, _get_signature self value r1 = _get_signature self value r2) /\
  (forall now nonce,
     is_valid_nonce self now nonce r1 = is_valid_nonce self now nonce r2).
Proof.
  intros Hsame.
  assert (Hsig : forall value,
             _get_signature self value r1 = _get_signature self value r2).
  { intros value. rewrite !_get_signature_eq.
    rewrite (bound_headers_ext self r1 r2 Hsame). reflexivity. }
  split; [exact Hsig|].
  intros now nonce. unfold is_valid_nonce.
  destruct (_nonce_has_expired self now nonce None) as [[]|]; simpl;
    try reflexivity.
  destruct (Py.unpack2 _) as [[data sig]|]; simpl; [|reflexivity].
  rewrite Hsig. reflexivity.
Qed.

Lemma X6_signature_reads_signed_headers_only_witness :
  (forall value,
     _get_signature example_manager value example_request
     = _get_signature example_manager value example_request_more) /\
  (forall now nonce,
     is_valid_nonce example_manager now nonce example_request
     = is_valid_nonce example_manager now nonce example_request_more).
Proof.
  apply (X6_signature_reads_signed_headers_only example_manager
           example_request example_request_more).
  intros header Hin. apply list_elem_of_singleton in Hin. subst header.
  vm_compute. reflexivity.
Defined.

(** Two strings cut at their first separator are equal part by part. *)
Lemma app_sep_inj (sep : ascii) (a a' r r' : str) :
  (sep ∉ a) -> (sep ∉ a') ->
  a ++ sep :: r = a' ++ sep :: r' -> a = a' /\ r = r'.
Proof.
  revert a'. induction a as [|c a IH]; intros [|c' a'] Ha Ha' Heq;
    simpl in Heq.
  - injection Heq as ->. split; reflexivity.
  - injection Heq as <- _. exfalso. apply Ha'. apply list_elem_of_here.
  - injection Heq as -> _. exfalso. apply Ha. apply list_elem_of_here.
  - injection Heq as -> Heq.
    apply not_elem_of_cons in Ha as [_ Ha].
    apply not_elem_of_cons in Ha' as [_ Ha'].
    destruct (IH a' Ha Ha' Heq) as [-> ->]. split; reflexivity.
Qed.

Lemma flat_map_zero_inj (g1 g2 : str -> str) (a a' : str) (hs : list str) :
  (zero ∉ a) -> (zero ∉ a') ->
  (forall h, h ∈ hs -> (zero ∉ g1 h) /\ (zero ∉ g2 h)) ->
  a ++ flat_map (fun h => zero :: g1 h) hs
  = a' ++ flat_map (fun h => zero :: g2 h) hs ->
  a = a' /\ forall h, h ∈ hs -> g1 h = g2 h.
Proof.
  revert a a'. induction hs as [|h hs IH]; intros a a' Ha Ha' Hfree Heq.
  - simpl in Heq. rewrite !app_nil_r in Heq. split; [exact Heq|].
    intros h Hin. apply elem_of_nil in Hin. contradiction.
  - simpl in Heq. apply app_sep_inj in Heq as [-> Heq]; [|exact Ha|exact Ha'].
    split; [reflexivity|].
    destruct (Hfree h (list_elem_of_here _ _)) as [H1 H2].
    apply IH in Heq as [Hh Hrest]; [|exact H1|exact H2|].
    + intros h' Hin. apply elem_of_cons in Hin as [->|Hin];
        [exact Hh | apply Hrest, Hin].
    + intros h' Hin. apply Hfree, list_elem_of_further, Hin.
Qed.

(** X7.  The signature is the HMAC, under the secret, of the value
    followed by a zero byte and the value of each signed header.  When
    the values and the header fields hold no zero byte, these bytes
    determine the value and every signed header field: different values
    or fields are never signed as the same message. *)
Theorem X7_signed_message_is_unambiguous self v1 v2 r1 r2 :
  (zero ∉ v1) -> (zero ∉ v2) ->
  (forall header,
     header ∈ sign_headers self ->
     (zero ∉ dict_get (environ r1) header []) /\
     (zero ∉ dict_get (environ r2) header [])) ->
  (_get_signature self v1 r1
   = base64.b64encode
       (hmac_of (hashmod self) (secret self) (signed_message self v1 r1))) /\
  (signed_message self v1 r1 = signed_message self v2 r2 ->
   v1 = v2 /\
   forall header,
     header ∈ sign_headers self ->
     dict_get (environ r1) header [] = dict_get (environ r2) header []).
Proof.
  intros Hv1 Hv2 Hfree. split; [apply _get_signature_eq|].
  unfold signed_message, bound_headers. intros Heq.
  exact (flat_map_zero_inj
           (fun h => dict_get (environ r1) h [])
           (fun h => dict_get (environ r2) h [])
           v1 v2 (sign_headers self) Hv1 Hv2 Hfree Heq).
Qed.

Lemma X7_signed_message_is_unambiguous_witness :
  (_get_signature example_manager b{"306dc4205:0102ff"} example_request
   = base64.b64encode
       (hmac_of (hashmod example_manager) (secret example_manager)
          (signed_message example_manager b{"306dc4205:0102ff"}
             example_request))) /\
  (signed_message example_manager b{"306dc4205:0102ff"} example_request
   = signed_message example_manager b{"306dc4205:0102ff"}
       example_request_more ->
   b{"306dc4205:0102ff"} = b{"306dc4205:0102ff"} /\
   forall header,
     header ∈ sign_headers example_manager ->
     dict_get (environ example_request) header []
     = dict_get (environ example_request_more) header []).
Proof.
  apply (X7_signed_message_is_unambiguous example_manager
           b{"306dc4205:0102ff"} b{"306dc4205:0102ff"} example_request
           example_request_more).
  - rewrite list_elem_of_In. simpl. intuition discriminate.
  - rewrite list_elem_of_In. simpl. intuition discriminate.
  - intros header Hin. apply list_elem_of_singleton in Hin. subst header.
    split; rewrite list_elem_of_In; vm_compute; intuition discriminate.
Defined.

(** X8.  The zero byte that separates the signed fields is not escaped:
    with two signed headers, moving a zero byte and what follows it from
    the first field to the front of the second leaves the signature
    unchanged. *)
Theorem X8_zero_bytes_shift_between_fields self h1 h2 u v w value r1 r2 :
  sign_headers self = [h1; h2] ->
  dict_get (environ r1) h1 [] = u ++ zero :: v ->
  dict_get (environ r1) h2 [] = w ->
  dict_get (environ r2) h1 [] = u ->
  dict_get (environ r2) h2 [] = v ++ zero :: w ->
  _get_signature self value r1 = _get_signature self value r2.
Proof.
  intros Hheaders H11 H12 H21 H22.
  rewrite !_get_signature_eq. unfold bound_headers. rewrite Hheaders.
  simpl. rewrite H11, H12, H21, H22.
  rewrite !app_nil_r, <- !app_assoc. reflexivity.
Qed.

Lemma X8_zero_bytes_shift_between_fields_witness :
  _get_signature two_header_manager b{"306dc4205:0102ff"} zero_byte_request_1
  = _get_signature two_header_manager b{"306dc4205:0102ff"} zero_byte_request_2.
Proof.
  apply (X8_zero_bytes_shift_between_fields two_header_manager
           b{"HTTP_USER_AGENT"} b{"HTTP_ACCEPT"} b{"U"} b{"A"} b{"*"}
           b{"306dc4205:0102ff"} zero_byte_request_1 zero_byte_request_2).
  - reflexivity.
  - vm_compute. reflexivity.
  - vm_compute. reflexivity.
  - vm_compute. reflexivity.
  - vm_compute. reflexivity.
Defined.

(** ** The life of a nonce *)

(** X9.  The nonce issued at a time [t0], for times and timeouts up to
    [2^40] seconds, is valid for the issuing request as long as no more
    than the hard timeout less 0.101 s has passed since [t0], and invalid
    once the hard timeout and 1 ms have passed.  In between, the answer
    depends on where [t0] lies in its tenth of a second and on the
    rounding of the expiry time. *)
Theorem X9_lifetime_of_an_issued_nonce maxint self t0 rnd request T :
  seconds (timeout self) = Some T -> in_time_range T ->
  (0 <= t0)%Q -> in_time_range t0 ->
  exists nonce,
    generate_nonce maxint self (Float.Fin t0) rnd request = Ok nonce /\
    forall now,
      ((now - t0 <= T - (101 # 1000))%Q ->
       is_valid_nonce self (Float.Fin now) nonce request = Ok true) /\
      ((T + (1 # 1000) <= now - t0)%Q ->
       is_valid_nonce self (Float.Fin now) nonce request = Ok false).
Proof. apply issued_nonce_lifetime. Qed.

Lemma X9_lifetime_of_an_issued_nonce_witness :
  exists nonce,
    generate_nonce maxint64 example_manager (Float.Fin (13000000005 # 10))
      example_rnd example_request = Ok nonce /\
    forall now,
      ((now - (13000000005 # 10) <= 300 - (101 # 1000))%Q ->
       is_valid_nonce example_manager (Float.Fin now) nonce example_request
       = Ok true) /\
      ((300 + (1 # 1000) <= now - (13000000005 # 10))%Q ->
       is_valid_nonce example_manager (Float.Fin now) nonce example_request
       = Ok false).
Proof.
  apply (X9_lifetime_of_an_issued_nonce maxint64 example_manager
           (13000000005 # 10) example_rnd example_request 300).
  - reflexivity.
  - vm_compute. discriminate.
  - vm_compute. discriminate.
  - vm_compute. discriminate.
Defined.

(** X10.  Between the soft and the hard timeout a nonce is still valid
    and is renewed: when at least the soft timeout and 1 ms, and at most
    the hard timeout less 0.101 s, have passed since it was issued,
    [is_valid_nonce] accepts it and [get_next_nonce] answers with the
    nonce that [generate_nonce] issues, which is itself valid when it is
    issued.  Times and timeouts are up to [2^40] seconds, and the hard
    timeout is at least 0.101 s. *)
Theorem X10_renewal_window maxint self s S T t0 now now' rnd rnd' request :
  soft_timeout self = Some s ->
  seconds s = Some S -> in_time_range S ->
  seconds (timeout self) = Some T -> in_time_range T ->
  (101 # 1000 <= T)%Q ->
  (0 <= t0)%Q -> in_time_range t0 ->
  (0 <= now')%Q -> in_time_range now' ->
  (S + (1 # 1000) <= now - t0)%Q -> (now - t0 <= T - (101 # 1000))%Q ->
  exists nonce fresh,
    generate_nonce maxint self (Float.Fin t0) rnd request = Ok nonce /\
    is_valid_nonce self (Float.Fin now) nonce request = Ok true /\
    generate_nonce maxint self (Float.Fin now') rnd' request = Ok fresh /\
    get_next_nonce maxint self (Float.Fin now) (Float.Fin now') rnd' nonce
      request = Ok (Some fresh) /\
    is_valid_nonce self (Float.Fin now') fresh request = Ok true.
Proof.
  intros Hsoft HS HSr HT HTr Hmin Ht0 Ht0r Hnow' Hnow'r Hold Hyoung.
  destruct (issued_nonce_lifetime maxint self t0 rnd request T HT HTr Ht0 Ht0r)
    as (nonce & Hgen & Hlife).
  destruct (issued_nonce_lifetime maxint self now' rnd' request T HT HTr Hnow'
              Hnow'r) as (fresh & Hgen' & Hlife').
  exists nonce, fresh.
  split; [exact Hgen|]. split; [apply Hlife, Hyoung|].
  split; [exact Hgen'|]. split; [|apply Hlife'; lra].
  destruct (ticks_near t0 Ht0 Ht0r) as (n & Hticks & Hn & Hnr & _ & Hhi).
  pose proof (timestamp_of_generated maxint self _ rnd request n _ Hticks Hn Hgen)
    as Hts.
  destruct (_nonce_has_expired_near self nonce (Some s) n S Hts Hnr HS HSr)
    as (E & _ & HE & Hexp).
  unfold get_next_nonce. rewrite Hsoft, Hexp.
  assert (Hle : Float.le (Float.Fin E) (Float.Fin now) = true).
  { apply Qle_bool_iff. lra. }
  rewrite Hle. cbn [mbind result_bind negb]. rewrite Hgen'. reflexivity.
Qed.

Lemma X10_renewal_window_witness :
  exists nonce fresh,
    generate_nonce maxint64 example_manager (Float.Fin (13000000005 # 10))
      example_rnd example_request = Ok nonce /\
    is_valid_nonce example_manager (Float.Fin (13000002505 # 10)) nonce
      example_request = Ok true /\
    generate_nonce maxint64 example_manager (Float.Fin (13000002505 # 10))
      example_rnd example_request = Ok fresh /\
    get_next_nonce maxint64 example_manager (Float.Fin (13000002505 # 10))
      (Float.Fin (13000002505 # 10)) example_rnd nonce example_request
    = Ok (Some fresh) /\
    is_valid_nonce example_manager (Float.Fin (13000002505 # 10)) fresh
      example_request = Ok true.
Proof.
  apply (X10_renewal_window maxint64 example_manager (PyInt 240) 240 300
           (13000000005 # 10) (13000002505 # 10) (13000002505 # 10)
           example_rnd example_rnd example_request).
  - reflexivity.
  - reflexivity.
  - vm_compute. discriminate.
  - reflexivity.
  - vm_compute. discriminate.
  - vm_compute. discriminate.
  - vm_compute. discriminate.
  - vm_compute. discriminate.
  - vm_compute. discriminate.
  - vm_compute. discriminate.
  - vm_compute. discriminate.
  - vm_compute. discriminate.
Defined.

(** [rsplit] cuts a string at a colon. *)
Lemma unpack2_rsplit1_inv sep s a b :
  Py.unpack2 (Py.rsplit1 sep s) = Ok (a, b) -> s = a ++ sep :: b.
Proof.
  unfold Py.rsplit1.
  destruct (split1_shape sep (rev s)) as [[_ He]|(x & y & Hrev & _ & He)];
    rewrite He; simpl.
  - discriminate.
  - intros [= <- <-].
    rewrite <- (rev_involutive s), Hrev, rev_app_distr. simpl.
    rewrite <- app_assoc. reflexivity.
Qed.

(** X11.  A nonce that [is_valid_nonce] accepts ends with the signature,
    for the request, of everything before its last colon, and its
    timestamp field is a hexadecimal integer; for timestamps up to [2^44]
    tenths of a second and a hard timeout up to [2^40] seconds, its age
    is less than 1 ms above the hard timeout.  Nothing else is ever
    accepted. *)
Theorem X11_accepted_nonces_are_signed self now nonce request :
  is_valid_nonce self (Float.Fin now) nonce request = Ok true ->
  exists data ts,
    nonce = data ++ Py.colon :: _get_signature self data request /\
    timestamp_of nonce = Some ts /\
    forall T,
      seconds (timeout self) = Some T -> in_time_range T -> in_tick_range ts ->
      (now - inject_Z ts / 10 < T + slack)%Q.
Proof.
  intros Hvalid. pose proof Hvalid as Hcut. unfold is_valid_nonce in Hcut.
  destruct (_nonce_has_expired self (Float.Fin now) nonce None)
    as [[]|e] eqn:Hexp; simpl in Hcut; try discriminate.
  destruct (Py.unpack2 _) as [[data sig]|] eqn:Hsplit; simpl in Hcut;
    [|discriminate].
  injection Hcut as Hsame. apply negb_true_iff, strings_differ_false in Hsame.
  apply unpack2_rsplit1_inv in Hsplit. subst sig.
  destruct (timestamp_of nonce) as [ts|] eqn:Hts.
  - exists data, ts. split; [exact Hsplit|]. split; [reflexivity|].
    intros T HT HTr Htsr.
    apply Qnot_le_lt. intros Hlate.
    assert (Hage : age now nonce = Some (now - inject_Z ts / 10)%Q)
      by (unfold age; rewrite Hts; reflexivity).
    destruct (_nonce_has_expired_age self now nonce None ts T _ Hts Htsr HT HTr
                Hage) as [Hold _].
    rewrite (Hold Hlate) in Hexp. discriminate.
  - rewrite _nonce_has_expired_malformed in Hexp by exact Hts. discriminate.
Qed.

Lemma X11_accepted_nonces_are_signed_witness :
  exists data ts,
    example_nonce
    = data ++ Py.colon :: _get_signature example_manager data example_request /\
    timestamp_of example_nonce = Some ts /\
    forall T,
      seconds (timeout example_manager) = Some T -> in_time_range T ->
      in_tick_range ts ->
      ((13000000005 # 10) - inject_Z ts / 10 < T + slack)%Q.
Proof.
  apply (X11_accepted_nonces_are_signed example_manager (13000000005 # 10)
           example_nonce example_request).
  vm_compute. reflexivity.
Defined.

(** The order of the floats is transitive. *)
Lemma float_le_trans (a b c : Float.float) :
  Float.le a b = true -> Float.le b c = true -> Float.le a c = true.
Proof.
  destruct a as [x|[]|], b as [y|[]|], c as [z|[]|]; simpl; intros H1 H2;
    try discriminate; try reflexivity.
  apply Qle_bool_iff in H1, H2. apply Qle_bool_iff. lra.
Qed.

(** X12.  Validity only ends: a nonce that is valid at some time was
    valid at every earlier time, also before the time it is stamped
    with. *)
Theorem X12_validity_only_ends self now now' nonce request :
  Float.le now now' = true ->
  is_valid_nonce self now' nonce request = Ok true ->
  is_valid_nonce self now nonce request = Ok true.
Proof.
  intros Hle. unfold is_valid_nonce, _nonce_has_expired.
  destruct (expiry_time nonce (timeout self)) as [E|[]]; simpl;
    try discriminate.
  destruct (Float.le E now') eqn:Hlate; [discriminate|].
  destruct (Float.le E now) eqn:Hearly; [|intros H; exact H].
  rewrite (float_le_trans E now now' Hearly Hle) in Hlate. discriminate.
Qed.

Lemma X12_validity_only_ends_witness :
  is_valid_nonce example_manager (Float.Fin 0) example_nonce example_request
  = Ok true.
Proof.
  apply (X12_validity_only_ends example_manager (Float.Fin 0) example_time
           example_nonce example_request).
  - vm_compute. reflexivity.
  - vm_compute. reflexivity.
Defined.

Lemma _get_signature_config self self' value request :
  same_config self self' ->
  _get_signature self' value request = _get_signature self value request.
Proof.
  intros (Hs & _ & _ & Hh & Hm & _).
  rewrite !_get_signature_eq. unfold bound_headers. rewrite Hs, Hh, Hm.
  reflexivity.
Qed.

Lemma generate_nonce_config maxint self self' now rnd request :
  same_config self self' ->
  generate_nonce maxint self' now rnd request
  = generate_nonce maxint self now rnd request.
Proof.
  intros Hc. unfold generate_nonce.
  destruct (Float.int _); [|reflexivity]. cbn [mbind result_bind].
  rewrite (_get_signature_config self self') by exact Hc. reflexivity.
Qed.

(** X13.  Issuing, validating and renewing nonces read no stored state:
    whatever counters have been set and swept since, the three methods
    answer as they did before. *)
Theorem X13_validation_is_stateless self self' :
  rtc step self self' ->
  (forall maxint now rnd request,
     generate_nonce maxint self' now rnd request
     = generate_nonce maxint self now rnd request) /\
  (forall now nonce request,
     is_valid_nonce self' now nonce request
     = is_valid_nonce self now nonce request) /\
  (forall maxint now now' rnd nonce request,
     get_next_nonce maxint self' now now' rnd nonce request
     = get_next_nonce maxint self now now' rnd nonce request).
Proof.
  intros Hsteps. apply rtc_step_config in Hsteps.
  split; [|split].
  - intros. apply generate_nonce_config, Hsteps.
  - intros now nonce request. unfold is_valid_nonce.
    rewrite (_nonce_has_expired_config self self') by exact Hsteps.
    destruct (_nonce_has_expired self now nonce None) as [[]|]; simpl;
      try reflexivity.
    destruct (Py.unpack2 _) as [[data sig]|]; simpl; [|reflexivity].
    rewrite (_get_signature_config self self') by exact Hsteps. reflexivity.
  - intros maxint now now' rnd nonce request. unfold get_next_nonce.
    destruct Hsteps as (Hs & Ht & Hsoft & Hrest) eqn:Hc. clear Hc.
    rewrite Hsoft.
    rewrite (_nonce_has_expired_config self self')
      by (repeat split; tauto).
    rewrite (generate_nonce_config maxint self self')
      by (repeat split; tauto).
    reflexivity.
Qed.

Lemma X13_validation_is_stateless_witness :
  (forall maxint now rnd request,
     generate_nonce maxint example_registered now rnd request
     = generate_nonce maxint example_manager now rnd request) /\
  (forall now nonce request,
     is_valid_nonce example_registered now nonce request
     = is_valid_nonce example_manager now nonce request) /\
  (forall maxint now now' rnd nonce request,
     get_next_nonce maxint example_registered now now' rnd nonce request
     = get_next_nonce maxint example_manager now now' rnd nonce request).
Proof.
  apply (X13_validation_is_stateless example_manager example_registered).
  apply rtc_once.
  eapply (step_set_nonce_count _ _ (fun _ => example_time) example_nonce 1).
  unfold example_registered. apply surjective_pairing.
Defined.

(** ** Pseudo-random bytes of no length *)



(** ** The constructor *)

(** [int(timeout * 0.8)] returns for a finite timeout. *)
Lemma eighty_percent_returns (a : number) :
  match a with
  | PyInt n => (Z.abs n < overflow_threshold)%Z
  | PyFloat (Float.Fin x) => (Qabs x < 2 ^ 1024)%Q
  | PyFloat _ => False
  end ->
  exists s, eighty_percent a = Ok s.
Proof.
  intros Ha.
  assert (Hfin : exists y, to_float a = Ok (Float.Fin y) /\ (Qabs y < 2 ^ 1024)%Q).
  { destruct a as [n|[x|b|]]; try contradiction.
    - destruct (of_int_finite n Ha) as (y & Hy & Hthr & _).
      exists y. split; [exact Hy|].
      pose proof (pow2_pos 970). lra.
    - exists x. split; [reflexivity | exact Ha]. }
  destruct Hfin as (y & Hy & Hlt).
  unfold eighty_percent. rewrite Hy.
  destruct lit_eight_tenths as (c & -> & Hc).
  cbn [mbind result_bind Float.mul].
  destruct (round_finite (y * c)) as (z & -> & _).
  { rewrite Qabs_Qmult, Hc.
    rewrite (Qabs_pos (3602879701896397 # 4503599627370496)) by (vm_compute; discriminate).
    pose proof (Qabs_nonneg y) as H0.
    assert (E : (2 ^ 1024 == 2 ^ 54 * 2 ^ 970)%Q).
    { rewrite <- pow2_add. reflexivity. }
    pose proof (pow2_pos 970) as H970.
    assert (H54 : (2 ^ 54 == 18014398509481984)%Q) by reflexivity.
    rewrite E, H54 in *.
    set (u := (2 ^ 970)%Q) in *. set (v := Qabs y) in *.
    nra. }
  unfold Float.int. eexists. reflexivity.
Qed.

(** X15.  The constructor fails in these cases only.  When no soft
    timeout is given, it raises what [int(timeout * 0.8)] raises:
    [ValueError] for a timeout that is not a number, [OverflowError] for
    an infinite one and for an integer from [2^1024 - 2^970] on; for
    every other timeout that product is converted.  After that, when the
    hash is given by name, it raises [AttributeError] for a name that
    [hashlib] does not have, and what [hashmod().digest_size] raises for
    an attribute that is not a hash constructor.  The manager it builds
    has no counter and an empty queue. *)
Theorem X15_constructor_failure hashlib urandom16 secret_arg timeout_arg
    soft_arg headers_arg hashmod_arg :
  let timeout := default (PyInt 300) timeout_arg in
  let built :=
    __init__ hashlib urandom16 secret_arg timeout_arg soft_arg headers_arg
      hashmod_arg in
  (forall e,
     built = Raise e <->
     (soft_arg = None /\ eighty_percent timeout = Raise e) \/
     ((is_Some soft_arg \/ exists s, eighty_percent timeout = Ok s) /\
      exists name,
        hashmod_arg = Some (HashName name) /\
        (hashlib name = Some (NotConstructor e) \/
         hashlib name = None /\ e = AttributeError))) /\
  (eighty_percent (PyFloat Float.NaN) = Raise ValueError /\
   (forall b, eighty_percent (PyFloat (Float.Inf b)) = Raise OverflowError) /\
   (forall n,
      (overflow_threshold <= Z.abs n)%Z ->
      eighty_percent (PyInt n) = Raise OverflowError) /\
   (forall n,
      (Z.abs n < overflow_threshold)%Z ->
      exists s, eighty_percent (PyInt n) = Ok s) /\
   (forall x,
      (Qabs x < 2 ^ 1024)%Q ->
      exists s, eighty_percent (PyFloat (Float.Fin x)) = Ok s)) /\
  (forall self,
     built = Ok self ->
     _nonce_purge_queue self = [] /\
     forall nonce, get_nonce_count self nonce = None).
Proof.
  intros timeout built. split; [|split].
  - intros e. unfold built, __init__.
    change (match timeout_arg with Some t => t | None => PyInt (5 * 60) end)
      with timeout.
    assert (Hsoft :
      (t ← to_float timeout;
       s ← Float.int (Float.mul t (Float.lit (8 # 10)));
       mret (if (s =? 0)%Z then None else Some (PyInt s)))
      = (s ← eighty_percent timeout;
         mret (if (s =? 0)%Z then None else Some (PyInt s)))).
    { unfold eighty_percent. destruct (to_float timeout); reflexivity. }
    destruct soft_arg as [s0|].
    + cbn [mbind result_bind mret result_ret].
      destruct hashmod_arg as [[h|name]|]; cbn [mbind result_bind].
      * split; [discriminate|].
        intros [[H _]|(_ & name & H & _)]; discriminate.
      * destruct (hashlib name) as [[h|e0]|] eqn:Hname; cbn [mbind result_bind].
        -- split; [discriminate|].
           intros [[H _]|(_ & name' & [= <-] & [H|[H _]])]; congruence.
        -- split.
           ++ intros [= <-]. right. split; [left; eauto|].
              exists name. split; [reflexivity|]. left. exact Hname.
           ++ intros [[H _]|(_ & name' & [= <-] & [H|[H _]])]; congruence.
        -- split.
           ++ intros [= <-]. right. split; [left; eauto|].
              exists name. split; [reflexivity|]. right. split; [exact Hname|].
              reflexivity.
           ++ intros [[H _]|(_ & name' & [= <-] & [H|[_ H]])]; congruence.
      * split; [discriminate|].
        intros [[H _]|(_ & name & H & _)]; discriminate.
    + rewrite Hsoft.
      destruct (eighty_percent timeout) as [s|e0] eqn:Heighty;
        cbn [mbind result_bind mret result_ret].
      * destruct hashmod_arg as [[h|name]|]; cbn [mbind result_bind].
        -- split; [discriminate|].
           intros [[_ H]|(_ & name & H & _)]; discriminate.
        -- destruct (hashlib name) as [[h|e1]|] eqn:Hname;
             cbn [mbind result_bind].
           ++ split; [discriminate|].
              intros [[_ H]|(_ & name' & [= <-] & [H|[H _]])]; congruence.
           ++ split.
              ** intros [= <-]. right. split; [right; eauto|].
                 exists name. split; [reflexivity|]. left. exact Hname.
              ** intros [[_ H]|(_ & name' & [= <-] & [H|[H _]])]; congruence.
           ++ split.
              ** intros [= <-]. right. split; [right; eauto|].
                 exists name. split; [reflexivity|]. right.
                 split; [exact Hname | reflexivity].
              ** intros [[_ H]|(_ & name' & [= <-] & [H|[_ H]])]; congruence.
        -- split; [discriminate|].
           intros [[_ H]|(_ & name & H & _)]; discriminate.
      * split.
        -- intros [= <-]. left. split; reflexivity.
        -- intros [[_ H]|([[s Hs]|[s Hs]] & _)]; congruence.
  - split; [reflexivity|]. split; [intros []; reflexivity|].
    split; [|split].
    + intros n Hn. unfold eighty_percent, to_float.
      rewrite of_int_overflow by (unfold overflow_threshold in Hn; exact Hn).
      reflexivity.
    + intros n Hn. apply (eighty_percent_returns (PyInt n)), Hn.
    + intros x Hx. apply (eighty_percent_returns (PyFloat (Float.Fin x))), Hx.
  - intros self Hbuilt. apply __init___fields in Hbuilt.
    destruct Hbuilt as (_ & _ & _ & _ & _ & _ & _ & Hcounts & Hqueue).
    split; [exact Hqueue|].
    intros nonce. unfold get_nonce_count. rewrite Hcounts. apply lookup_empty.
Qed.



(** ** The text of a nonce *)

Lemma hex_digit_inj d d' :
  (0 <= d < 16)%Z -> (0 <= d' < 16)%Z -> hex_digit d = hex_digit d' -> d = d'.
Proof.
  intros Hd Hd' Heq. apply (f_equal hex_value) in Heq.
  rewrite !hex_value_digit in Heq by assumption. congruence.
Qed.

Lemma byte_val_bound (c : ascii) : (0 <= Z.of_N (N_of_ascii c) < 256)%Z.
Proof. pose proof (N_ascii_bounded c). lia. Qed.

(** [encode("hex")] loses nothing. *)
Lemma hex_encode_inj s s' : hex_encode s = hex_encode s' -> s = s'.
Proof.
  revert s'. induction s as [|c s IH]; intros [|c' s'] Heq; simpl in Heq;
    try discriminate; [reflexivity|].
  injection Heq as Hhi Hlo Hrest.
  pose proof (byte_val_bound c) as Hc. pose proof (byte_val_bound c') as Hc'.
  apply hex_digit_inj in Hhi;
    [| split; [apply Z.div_pos; lia | apply Z.div_lt_upper_bound; lia]
     | split; [apply Z.div_pos; lia | apply Z.div_lt_upper_bound; lia]].
  apply hex_digit_inj in Hlo; [| apply Z.mod_pos_bound; lia ..].
  assert (Hn : Z.of_N (N_of_ascii c) = Z.of_N (N_of_ascii c')).
  { rewrite (Z.div_mod (Z.of_N (N_of_ascii c)) 16) by lia.
    rewrite (Z.div_mod (Z.of_N (N_of_ascii c')) 16) by lia.
    rewrite Hhi, Hlo. reflexivity. }
  apply N2Z.inj in Hn. apply (f_equal ascii_of_N) in Hn.
  rewrite !ascii_N_embedding in Hn. subst c'.
  f_equal. apply IH, Hrest.
Qed.

Lemma hex_encode_lower s : Forall (fun c => c ∈ lower_hex) (hex_encode s).
Proof.
  induction s as [|c s IH]; simpl; [constructor|].
  pose proof (byte_val_bound c) as Hc.
  constructor; [|constructor; [|exact IH]].
  - apply hex_digit_lower.
    split; [apply Z.div_pos; lia | apply Z.div_lt_upper_bound; lia].
  - apply hex_digit_lower, Z.mod_pos_bound. lia.
Qed.

Lemma lower_hex_no_colon s :
  Forall (fun c => c ∈ lower_hex) s -> Py.colon ∉ s.
Proof.
  intros Hall Hin. rewrite Forall_forall in Hall.
  apply Hall, lower_hex_facts in Hin. tauto.
Qed.

(** The three fields of a nonce stamped with a non-negative integer. *)
Lemma generate_nonce_fields maxint self now rnd request n :
  ticks now = Ok n -> (0 <= n)%Z ->
  exists sig,
    generate_nonce maxint self now rnd request
    = Ok (hex_digits n ++ Py.colon :: hex_encode rnd ++ Py.colon :: sig) /\
    (Py.colon ∉ hex_digits n) /\
    (Py.colon ∉ hex_encode rnd) /\
    sig = _get_signature self (hex_digits n ++ Py.colon :: hex_encode rnd)
            request.
Proof.
  intros Hticks Hn. eexists. split; [|split; [|split; [|reflexivity]]].
  - rewrite (generate_nonce_eq maxint self now rnd request n Hticks Hn).
    cbv zeta. rewrite <- app_assoc. reflexivity.
  - apply lower_hex_no_colon, hex_digits_lower, Hn.
  - apply lower_hex_no_colon, hex_encode_lower.
Qed.

(** X17.  Nonces stamped with different integers, or issued with
    different random bytes, are different: two equal nonces, whoever
    issued them and for whatever request, carry the same timestamp
    [int(time * 10)], as the code computes it, and the same random bytes.
    The timestamps are not negative. *)
Theorem X17_issued_nonces_differ m1 m2 self1 self2 t1 t2 rnd1 rnd2 r1 r2
    n1 n2 :
  ticks t1 = Ok n1 -> ticks t2 = Ok n2 -> (0 <= n1)%Z -> (0 <= n2)%Z ->
  generate_nonce m1 self1 t1 rnd1 r1 = generate_nonce m2 self2 t2 rnd2 r2 ->
  n1 = n2 /\ rnd1 = rnd2.
Proof.
  intros Ht1 Ht2 Hn1 Hn2 Heq.
  destruct (generate_nonce_fields m1 self1 t1 rnd1 r1 n1 Ht1 Hn1)
    as (sig1 & E1 & Hts1 & Hrnd1 & _).
  destruct (generate_nonce_fields m2 self2 t2 rnd2 r2 n2 Ht2 Hn2)
    as (sig2 & E2 & Hts2 & Hrnd2 & _).
  rewrite E1, E2 in Heq. injection Heq as Heq.
  apply app_sep_inj in Heq as [Hts Heq]; [|assumption ..].
  apply app_sep_inj in Heq as [Hrnd _]; [|assumption ..].
  split; [|apply hex_encode_inj, Hrnd].
  pose proof (int16_hex_digits _ Hn1) as P1.
  pose proof (int16_hex_digits _ Hn2) as P2.
  rewrite Hts in P1. congruence.
Qed.

(** The times 1300000000.3 and 1300000000.35 are both stamped
    13000000003. *)
Lemma X17_issued_nonces_differ_witness :
  13000000003%Z = 13000000003%Z /\ example_rnd = example_rnd.
Proof.
  apply (X17_issued_nonces_differ maxint64 maxint64 example_manager
           example_manager (Float.lit (13000000003 # 10))
           (Float.lit (130000000035 # 100))
           example_rnd example_rnd example_request example_request).
  - vm_compute. reflexivity.
  - vm_compute. reflexivity.
  - lia.
  - lia.
  - vm_compute. reflexivity.
Defined.

(** X18.  The timestamp field of an issued nonce reads back, as
    [_nonce_has_expired] reads it, as the integer [int(time * 10)] that
    the code computed, when that is not negative; so the nonce is not
    malformed.  The nonce is the same whether [hex] prints the integer as
    an [int] or, with a trailing ["L"], as a [long].  For a time up to
    [2^40] seconds the timestamp, in seconds, lies between 0.1002 s
    before the time and 0.0002 s after it. *)
Theorem X18_timestamp_round_trip maxint maxint' self now rnd request n :
  ticks now = Ok n -> (0 <= n)%Z ->
  exists nonce,
    generate_nonce maxint self now rnd request = Ok nonce /\
    generate_nonce maxint' self now rnd request = Ok nonce /\
    timestamp_of nonce = Some n /\
    ~ malformed nonce /\
    forall t,
      now = Float.Fin t -> (0 <= t)%Q -> in_time_range t ->
      (t - (1 # 10) - (2 # 10000) <= inject_Z n / 10)%Q /\
      (inject_Z n / 10 <= t + (2 # 10000))%Q.
Proof.
  intros Hticks Hn.
  pose proof (generate_nonce_eq maxint self now rnd request n Hticks Hn) as Hgen.
  pose proof (generate_nonce_eq maxint' self now rnd request n Hticks Hn)
    as Hgen'.
  cbv zeta in Hgen, Hgen'. eexists. split; [exact Hgen|].
  split; [exact Hgen'|].
  pose proof (timestamp_of_generated maxint self now rnd request n _ Hticks Hn
                Hgen) as Hts.
  split; [exact Hts|]. split.
  - rewrite malformed_timestamp, Hts. discriminate.
  - intros t -> Ht Hrange.
    destruct (ticks_near t Ht Hrange) as (n' & Hticks' & _ & _ & Hlo & Hhi).
    rewrite Hticks in Hticks'. injection Hticks' as <-. split; assumption.
Qed.

Lemma X18_timestamp_round_trip_witness :
  exists nonce,
    generate_nonce (2 ^ 31 - 1) example_manager example_time example_rnd
      example_request = Ok nonce /\
    generate_nonce maxint64 example_manager example_time example_rnd
      example_request = Ok nonce /\
    timestamp_of nonce = Some 13000000005%Z /\
    ~ malformed nonce /\
    forall t,
      example_time = Float.Fin t -> (0 <= t)%Q -> in_time_range t ->
      (t - (1 # 10) - (2 # 10000) <= inject_Z 13000000005 / 10)%Q /\
      (inject_Z 13000000005 / 10 <= t + (2 # 10000))%Q.
Proof.
  apply (X18_timestamp_round_trip (2 ^ 31 - 1) maxint64 example_manager
           example_time example_rnd example_request 13000000005).
  - vm_compute. reflexivity.
  - lia.
Defined.

(** The 32-bit build prints the timestamp of the running example as a
    [long]. *)
Example hex_long_suffix :
  Py.hex (2 ^ 31 - 1) 13000000005 = b{"0x306dc4205L"} /\
  Py.hex maxint64 13000000005 = b{"0x306dc4205"}.
Proof. split; vm_compute; reflexivity. Qed.

Lemma b64encode_chars_len k s :
  (length s <= k)%nat ->
  Forall (fun c => c = "="%char \/ c ∈ base64.alphabet) (base64.b64encode s).
Proof.
  revert s. induction k as [k IH] using lt_wf_ind. intros s Hlen.
  destruct s as [|a [|b [|c s]]]; simpl.
  - constructor.
  - repeat (constructor;
            [first [right; apply Base64Facts.sextet_alphabet
                   | left; reflexivity]|]).
    constructor.
  - repeat (constructor;
            [first [right; apply Base64Facts.sextet_alphabet
                   | left; reflexivity]|]).
    constructor.
  - repeat (constructor;
            [first [right; apply Base64Facts.sextet_alphabet
                   | left; reflexivity]|]).
    simpl in Hlen. apply (IH (length s)); lia.
Qed.

Lemma lower_hex_base64 c : c ∈ lower_hex -> c ∈ base64.alphabet.
Proof.
  unfold lower_hex. simpl. intros H.
  repeat (apply elem_of_cons in H as [->|H];
          [apply list_elem_of_In; simpl; tauto|]).
  apply elem_of_nil in H. contradiction.
Qed.

(** X19.  A nonce issued at a non-negative time, one for which the code
    computes a timestamp [int(time * 10)] that is not negative, has
    exactly two colons, and every other character of it is a character
    of the base64 alphabet or the padding ["="]. *)
Theorem X19_characters_of_a_nonce maxint self now rnd request n :
  ticks now = Ok n -> (0 <= n)%Z ->
  exists nonce,
    generate_nonce maxint self now rnd request = Ok nonce /\
    count_occ ascii_dec nonce Py.colon = 2 /\
    Forall (fun c => c = Py.colon \/ c = "="%char \/ c ∈ base64.alphabet) nonce.
Proof.
  intros Hticks Hn.
  destruct (generate_nonce_fields maxint self now rnd request n Hticks Hn)
    as (sig & Hgen & Hts & Hrnd & ->).
  eexists. split; [exact Hgen|].
  pose proof (hex_digits_lower _ Hn) as Hdigits.
  pose proof (hex_encode_lower rnd) as Hhex.
  pose proof (_get_signature_no_colon self
                (hex_digits n ++ Py.colon :: hex_encode rnd) request) as Hsig.
  split.
  - rewrite count_occ_app. simpl.
    destruct (ascii_dec Py.colon Py.colon) as [_|Hne]; [|contradiction].
    rewrite count_occ_app. simpl.
    destruct (ascii_dec Py.colon Py.colon) as [_|Hne]; [|contradiction].
    rewrite !(proj1 (count_occ_not_In ascii_dec _ _)); [reflexivity| | |].
    + rewrite <- list_elem_of_In. exact Hsig.
    + rewrite <- list_elem_of_In. exact Hrnd.
    + rewrite <- list_elem_of_In. exact Hts.
  - apply Forall_app. split.
    + eapply Forall_impl; [exact Hdigits|]. intros c Hc.
      right. right. apply lower_hex_base64, Hc.
    + constructor; [left; reflexivity|]. apply Forall_app. split.
      * eapply Forall_impl; [exact Hhex|]. intros c Hc.
        right. right. apply lower_hex_base64, Hc.
      * constructor; [left; reflexivity|].
        unfold _get_signature.
        eapply Forall_impl; [apply (b64encode_chars_len _ _ (le_n _))|].
        intros c Hc. right. exact Hc.
Qed.

Lemma X19_characters_of_a_nonce_witness :
  exists nonce,
    generate_nonce maxint64 example_manager example_time example_rnd
      example_request = Ok nonce /\
    count_occ ascii_dec nonce Py.colon = 2 /\
    Forall (fun c => c = Py.colon \/ c = "="%char \/ c ∈ base64.alphabet) nonce.
Proof.
  apply (X19_characters_of_a_nonce maxint64 example_manager example_time
           example_rnd example_request 13000000005).
  - vm_compute. reflexivity.
  - lia.
Defined.
